(** * Check10 rules engine and search: a shallow embedding of
    [gameLogic.js] (class [Check10Game]), [zobrist.js] and the search of
    [server.js].

    Modelling conventions.
    - A colour string is ['white'] or ['black']: the inductive [Color].
    - A piece object [{color, number, promoted}] is the record [Piece];
      [number] is a JS number holding an integer, so [Z].
    - A board is an 8x8 array of arrays of [piece | null].  It is modelled by
      its read function [Board := Z -> Z -> option Piece]; [None] stands for
      both [null] and [undefined].  The rows [0..7] exist; reading a row
      outside them throws, reading a missing column gives [undefined].
    - JS numbers used as scores and search values are [jsnum]: a rational,
      [+Infinity], [-Infinity] or [NaN].  Rounding of doubles is not
      modelled (all values involved are small integers or tenths).
    - A thrown [TypeError] is the [None] of an [option] result.
    - JS bitwise operators act on 32-bit two's complement integers: their
      wrap-around is written out in [toInt32], [shl32], [sar32], [band32]. *)

From Stdlib Require Import ZArith QArith Qround List Bool Lia Sorting.Sorted Sorting.Permutation.
Import ListNotations.

Open Scope Z_scope.

(* ================================================================= *)
(** ** JS values *)

Inductive Color := white | black.

Definition Color_eqb (a b : Color) : bool :=
  match a, b with
  | white, white | black, black => true
  | _, _ => false
  end.

Definition opponent (c : Color) : Color :=
  match c with white => black | black => white end.

Record Piece := mkPiece { color : Color; number : Z; promoted : bool }.

Definition Board := Z -> Z -> option Piece.

Definition is_some {A} (o : option A) : bool :=
  match o with Some _ => true | None => false end.

Definition in_grid (r c : Z) : bool :=
  (0 <=? r) && (r <? 8) && (0 <=? c) && (c <? 8).

(** [board[r][c] = v]. *)
Definition set_cell (b : Board) (r c : Z) (v : option Piece) : Board :=
  fun r' c' => if (r' =? r) && (c' =? c) then v else b r' c'.

(** [for (let x = a; x <= b; x++)]. *)
Definition zrange (a b : Z) : list Z :=
  map (fun k => a + Z.of_nat k) (seq 0 (Z.to_nat (b - a + 1))).

Definition rows8 : list Z := [0; 1; 2; 3; 4; 5; 6; 7].

(** The row-major scan [for r in 0..7, for c in 0..7]. *)
Definition squares : list (Z * Z) :=
  flat_map (fun r => map (fun c => (r, c)) rows8) rows8.

(** JS numbers. *)
Inductive jsnum := Fin (q : Q) | PInf | NInf | NaN.

Definition jadd (a b : jsnum) : jsnum :=
  match a, b with
  | Fin x, Fin y => Fin (x + y)
  | NaN, _ | _, NaN => NaN
  | PInf, NInf | NInf, PInf => NaN
  | PInf, _ | _, PInf => PInf
  | NInf, _ | _, NInf => NInf
  end.

Definition jneg (a : jsnum) : jsnum :=
  match a with
  | Fin x => Fin (- x) | PInf => NInf | NInf => PInf | NaN => NaN
  end.

Definition jsub (a b : jsnum) : jsnum := jadd a (jneg b).

(** [a < b]; false as soon as one side is [NaN]. *)
Definition jlt (a b : jsnum) : bool :=
  match a, b with
  | Fin x, Fin y => negb (Qle_bool y x)
  | NInf, Fin _ | NInf, PInf | Fin _, PInf => true
  | _, _ => false
  end.

(** [a <= b]. *)
Definition jle (a b : jsnum) : bool :=
  match a, b with
  | Fin x, Fin y => Qle_bool x y
  | NInf, NInf | NInf, Fin _ | NInf, PInf | Fin _, PInf | PInf, PInf => true
  | _, _ => false
  end.

Definition jsnan (a : jsnum) : bool := match a with NaN => true | _ => false end.

(** [Math.max(a, b)] and [Math.min(a, b)]. *)
Definition jmax (a b : jsnum) : jsnum :=
  if jsnan a || jsnan b then NaN else if jlt a b then b else a.

Definition jmin (a b : jsnum) : jsnum :=
  if jsnan a || jsnan b then NaN else if jlt b a then b else a.

Definition jfin (a : jsnum) : Prop := exists q, a = Fin q.

(** 32-bit integer semantics of [<<], [>>] and [&]. *)
Definition toInt32 (x : Z) : Z :=
  let y := x mod 2 ^ 32 in if 2 ^ 31 <=? y then y - 2 ^ 32 else y.

Definition shl32 (a b : Z) : Z := toInt32 (Z.shiftl (toInt32 a) (b mod 32)).

Definition sar32 (a b : Z) : Z := Z.shiftr (toInt32 a) (b mod 32).

Definition band32 (a b : Z) : Z := Z.land (toInt32 a) (toInt32 b).

(* ================================================================= *)
(** ** Move generation ([getValidMoves], [getValidMovesOnBoard], ...) *)

Record Move := mkMove {
  fromRow : Z; fromCol : Z; toRow : Z; toCol : Z; piece : Piece }.

Definition direction_of (c : Color) : Z :=
  match c with white => -1 | black => 1 end.

Definition getValidMovesOnBoard (row col : Z) (boardState : Board)
    (pieceColor : Color) : list (Z * Z) :=
  let newRow := row + direction_of pieceColor in
  if (0 <=? newRow) && (newRow <? 8) then
    (if is_some (boardState newRow col) then [] else [(newRow, col)]) ++
    flat_map (fun deltaCol =>
      let newCol := col + deltaCol in
      if (0 <=? newCol) && (newCol <? 8) && negb (is_some (boardState newRow newCol))
      then [(newRow, newCol)] else []) [-1; 1]
  else [].

(** [getValidMoves(row, col)] reads [this.board]. *)
Definition getValidMoves (board : Board) (row col : Z) : list (Z * Z) :=
  match board row col with
  | None => []
  | Some p => getValidMovesOnBoard row col board (color p)
  end.

Definition moves_from (r c : Z) (p : Piece) (targets : list (Z * Z)) : list Move :=
  map (fun '(tr, tc) => mkMove r c tr tc p) targets.

Definition getAllPossibleMovesForPlayerOnBoard (playerColor : Color)
    (boardState : Board) : list Move :=
  flat_map (fun '(r, c) =>
    match boardState r c with
    | Some p => if Color_eqb (color p) playerColor
                then moves_from r c p (getValidMovesOnBoard r c boardState (color p))
                else []
    | None => []
    end) squares.

Definition getAllPossibleMovesForPlayer (board : Board) (playerColor : Color)
    : list Move :=
  flat_map (fun '(r, c) =>
    match board r c with
    | Some p => if Color_eqb (color p) playerColor
                then moves_from r c p (getValidMoves board r c)
                else []
    | None => []
    end) squares.

Definition hasValidMoves (board : Board) (playerColor : Color) : bool :=
  existsb (fun '(r, c) =>
    match board r c with
    | Some p => Color_eqb (color p) playerColor
                && (0 <? Z.of_nat (length (getValidMoves board r c)))
    | None => false
    end) squares.

(* ================================================================= *)
(** ** Promotion pass ([processPromotion]) *)

Record PromotionResult := mkPromo {
  points : Z; leadsToChoice : bool; captures : list (Z * Z) }.

(** The scan of [processPromotion]: opposing, unpromoted pieces with the
    same number, in row-major order. *)
Definition matching_pieces (boardState : Board) (opponentColor : Color)
    (n : Z) : list (Z * Z) :=
  filter (fun '(r, c) =>
    match boardState r c with
    | Some t => Color_eqb (color t) opponentColor && (number t =? n)
                && negb (promoted t)
    | None => false
    end) squares.

(** [piece.color] on an empty square throws. *)
Definition processPromotion (row col : Z) (boardState : Board)
    : option PromotionResult :=
  match boardState row col with
  | None => None
  | Some p =>
    let opponentColor := opponent (color p) in
    match matching_pieces boardState opponentColor (number p) with
    | [] => Some (mkPromo 0 false [])
    | [m] => Some (mkPromo (number p) false [m])
    | m :: _ => Some (mkPromo (number p) true [m])
    end
  end.

(* ================================================================= *)
(** ** Combination pass *)

(** A [nearbyPieces] entry [{row, col, piece}]. *)
Record PieceData := mkPD { row : Z; col : Z; pdpiece : Piece }.

(** Positions are compared through the key string [`${row},${col}`], which
    is injective on integers: keys are modelled as pairs. *)
Definition key := (Z * Z)%type.

Definition key_eqb (a b : key) : bool := (fst a =? fst b) && (snd a =? snd b).

Definition mem (k : key) (s : list key) : bool := existsb (key_eqb k) s.

Definition pkey (p : PieceData) : key := (row p, col p).

Definition dirs8 : list (Z * Z) :=
  [(-1, -1); (-1, 0); (-1, 1); (0, -1); (0, 1); (1, -1); (1, 0); (1, 1)].

(** One pass of [for (const [dR, dC] of d)] around the dequeued entry.
    [ps.find(...)] returns the entry stored under key [k] (it exists since
    [pS.has(k)]); the search only reads its row and column, so the queue
    holds keys. *)
Definition bfs_expand (pS : list key) (cur : key) (vS q : list key)
    : list key * list key :=
  fold_left (fun '(vS, q) '(dR, dC) =>
    let k := (fst cur + dR, snd cur + dC) in
    if mem k pS && negb (mem k vS) then (k :: vS, q ++ [k]) else (vS, q))
    dirs8 (vS, q).

(** [while (q.length > 0)]: every key enters the queue at most once, so
    [length ps] rounds suffice. *)
Fixpoint bfs (fuel : nat) (pS vS q : list key) : list key :=
  match fuel with
  | O => vS
  | S f =>
    match q with
    | [] => vS
    | c :: q' => let '(vS', q'') := bfs_expand pS c vS q' in bfs f pS vS' q''
    end
  end.

Definition areConnectedOptimized (ps : list PieceData) : bool :=
  match ps with
  | [] | [_] => true
  | p0 :: _ =>
    let pS := map pkey ps in
    let vS := bfs (length ps) pS [pkey p0] [pkey p0] in
    Nat.eqb (length vS) (length ps)
  end.

(** [cL]: the number of [i < n] with [(m >> i) & 1]. *)
Definition bit_count (m : Z) (n : nat) : Z :=
  Z.of_nat (length (filter (fun i => negb (band32 (sar32 m (Z.of_nat i)) 1 =? 0))
                           (seq 0 n))).

(** The entries [ps[i]] with [m & (1 << i)]. *)
Definition select (m : Z) (ps : list PieceData) : list PieceData :=
  map snd (filter (fun '(i, _) => negb (band32 m (shl32 1 (Z.of_nat i)) =? 0))
                  (combine (seq 0 (length ps)) ps)).

Definition sum_numbers (c : list PieceData) : Z :=
  fold_left (fun s pD => s + number (pdpiece pD)) c 0.

Definition has_color (k : Color) (c : list PieceData) : bool :=
  existsb (fun pD => Color_eqb (color (pdpiece pD)) k) c.

Definition findValidCombinations (ps : list PieceData) : list (list PieceData) :=
  let n := length ps in
  flat_map (fun m =>
    let cL := bit_count m n in
    if (cL >? 8) || (cL <? 2) then []
    else
      let c := select m ps in
      if (sum_numbers c =? 10) && has_color white c && has_color black c
         && areConnectedOptimized c
      then [c] else [])
    (zrange 3 (shl32 1 (Z.of_nat n) - 1)).

Definition window (center : Z) : list Z :=
  zrange (Z.max 0 (center - 3)) (Z.min 7 (center + 3)).

Definition nearby_pieces (checkRow checkCol : Z) (boardState : Board)
    : list PieceData :=
  flat_map (fun r =>
    flat_map (fun c =>
      match boardState r c with
      | Some p => [mkPD r c p]
      | None => []
      end) (window checkCol)) (window checkRow).

(** The flag loop with its [break]. *)
Fixpoint scan_colors (l : list PieceData) (hw hb : bool) : bool * bool :=
  match l with
  | [] => (hw, hb)
  | pD :: l' =>
    let hw' := hw || Color_eqb (color (pdpiece pD)) white in
    let hb' := hb || Color_eqb (color (pdpiece pD)) black in
    if hw' && hb' then (hw', hb') else scan_colors l' hw' hb'
  end.

Definition checkCombinationsAroundPositionOnBoard (checkRow checkCol : Z)
    (boardState : Board) (scoringPlayerColor : Color) : list (list PieceData) :=
  let nearbyPieces := nearby_pieces checkRow checkCol boardState in
  let '(hasWhitePiece, hasBlackPiece) := scan_colors nearbyPieces false false in
  if negb hasWhitePiece || negb hasBlackPiece then []
  else findValidCombinations nearbyPieces.

(* ================================================================= *)
(** ** Move simulation ([simulateFullMove]) *)

Record SimResult := mkSim {
  tempBoard : option Board; aiScoreGain : jsnum;
  leadsToChoiceForThisPlayer : bool }.

Definition invalid_move : SimResult := mkSim None NInf false.

(** [sourceBoard.map(r => r.map(p => (p ? { ...p } : null)))]: only the
    cells of the 8x8 grid are copied. *)
Definition copy_board (b : Board) : Board :=
  fun r c => if in_grid r c then b r c else None.

Definition promote (p : Piece) : Piece := mkPiece (color p) (number p) true.

Definition clear_cells (tb : Board) (ks : list key) : Board :=
  fold_left (fun tb k => set_cell tb (fst k) (snd k) None) ks tb.

(** Lines 287-300: the promotion pass.  [movedPiece] already sits at
    [tempBoard[toRow][toCol]], so [movedPiece.promoted = true] is seen
    through that cell. *)
Definition promotion_step (fromRow fromCol toRow toCol : Z)
    (sourceBoard : Board) (movedPiece : Piece) (tb : Board)
    : option (Board * Z * bool) :=
  let originalPieceFromSource := sourceBoard fromRow fromCol in
  let isPromotion := (Color_eqb (color movedPiece) white && (toRow =? 0))
                     || (Color_eqb (color movedPiece) black && (toRow =? 7)) in
  if isPromotion && match originalPieceFromSource with
                    | Some p => negb (promoted p) | None => false end
  then
    let tb := set_cell tb toRow toCol (Some (promote movedPiece)) in
    match processPromotion toRow toCol tb with
    | None => None
    | Some pr => Some (clear_cells tb (captures pr), points pr, leadsToChoice pr)
    end
  else Some (tb, 0, false).

(** Lines 304-316: the deduplicated capture set and the points. *)
Definition combination_captures (forPlayerColor : Color) (tb : Board)
    (combinations : list (list PieceData)) (scoreGain : Z) : list key * Z :=
  fold_left (fun acc combination =>
    fold_left (fun '(toRemove, sg) pos =>
      match tb (row pos) (col pos) with
      | Some pc =>
        if negb (Color_eqb (color pc) forPlayerColor) then
          let k := (row pos, col pos) in
          if mem k toRemove then (toRemove, sg)
          else (toRemove ++ [k], sg + number pc)
        else (toRemove, sg)
      | None => (toRemove, sg)
      end) combination acc) combinations ([], scoreGain).

(** Lines 302-322: the combination pass. *)
Definition combination_step (toRow toCol : Z) (forPlayerColor : Color)
    (tb : Board) (scoreGain : Z) : Board * Z :=
  let combinations := checkCombinationsAroundPositionOnBoard toRow toCol tb forPlayerColor in
  match combinations with
  | [] => (tb, scoreGain)
  | _ => let '(toRemove, sg) := combination_captures forPlayerColor tb combinations scoreGain in
         (clear_cells tb toRemove, sg)
  end.

Definition simulateFullMove (fromRow fromCol toRow toCol : Z)
    (forPlayerColor : Color) (sourceBoard : Board) : option SimResult :=
  let tempBoard := copy_board sourceBoard in
  match tempBoard fromRow fromCol with
  | None => Some invalid_move
  | Some pieceToMove =>
    if negb (Color_eqb (color pieceToMove) forPlayerColor) then Some invalid_move
    else
      let movedPiece := pieceToMove in
      (* [tempBoard[toRow]] is [undefined] off the rows: TypeError *)
      if negb ((0 <=? toRow) && (toRow <? 8)) then None
      else if is_some (tempBoard toRow toCol) then Some invalid_move
      else
        let tb := set_cell (set_cell tempBoard toRow toCol (Some movedPiece))
                           fromRow fromCol None in
        match promotion_step fromRow fromCol toRow toCol sourceBoard movedPiece tb with
        | None => None
        | Some (tb, scoreGain, leads) =>
          let '(tb, scoreGain) := combination_step toRow toCol forPlayerColor tb scoreGain in
          Some (mkSim (Some tb) (Fin (inject_Z scoreGain)) leads)
        end
  end.

(** Building a board from the rows of a JSON array. *)
Definition of_rows (rs : list (list (option Piece))) : Board :=
  fun r c => if (0 <=? r) && (0 <=? c)
             then nth (Z.to_nat c) (nth (Z.to_nat r) rs []) None else None.

Definition empty_board : Board := fun _ _ => None.

Definition put (ps : list (Z * Z * Piece)) : Board :=
  fold_left (fun b '(r, c, p) => set_cell b r c (Some p)) ps empty_board.

Definition W (n : Z) : Piece := mkPiece white n false.
Definition B (n : Z) : Piece := mkPiece black n false.

Definition cells (b : Board) : list (Z * Z * Piece) :=
  flat_map (fun '(r, c) => match b r c with Some p => [(r, c, p)] | None => [] end) squares.

Definition sim_summary (r : option SimResult) : option (option (list (Z * Z * Piece)) * jsnum * bool) :=
  option_map (fun s => (option_map cells (tempBoard s), aiScoreGain s, leadsToChoiceForThisPlayer s)) r.

(* ================================================================= *)
(** ** Zobrist hashing ([zobrist.js]) and the search ([server.js]) *)

Section Search.

(** [ZOBRIST.table] (16 x 64 random keys) and [ZOBRIST.blackToMove]. *)
Variable table : Z -> Z -> Z.
Variable blackToMove : Z.

(** [ZOBRIST.table[pi][si]]; off the table the lookup is [undefined] and
    the following [^] throws. *)
Definition zobrist_entry (pi si : Z) : option Z :=
  if (0 <=? pi) && (pi <? 16) && (0 <=? si) && (si <? 64)
  then Some (table pi si) else None.

Definition getPieceIndex (p : Piece) : Z :=
  (match color p with white => 0 | black => 8 end) + number p - 1.

(** One iteration of the double loop of [calculateZobristKey]. *)
Definition zobrist_step (board : Board) (acc : option Z) (sq : Z * Z) : option Z :=
  match acc with
  | None => None
  | Some hash =>
    let '(r, c) := sq in
    match board r c with
    | Some p => option_map (Z.lxor hash) (zobrist_entry (getPieceIndex p) (r * 8 + c))
    | None => Some hash
    end
  end.

Definition calculateZobristKey (board : Board) (currentPlayer : Color) : option Z :=
  match fold_left (zobrist_step board) squares (Some 0) with
  | None => None
  | Some hash =>
    Some (match currentPlayer with black => Z.lxor hash blackToMove | white => hash end)
  end.

(** The incremental update of [server.js] lines 114-117 and 175-178. *)
Definition next_hash (currentHash : Z) (m : Move) : option Z :=
  match zobrist_entry (getPieceIndex (piece m)) (fromRow m * 8 + fromCol m),
        zobrist_entry (getPieceIndex (piece m)) (toRow m * 8 + toCol m) with
  | Some k1, Some k2 => Some (Z.lxor (Z.lxor (Z.lxor currentHash k1) k2) blackToMove)
  | _, _ => None
  end.

(** A [Check10Game] as the search uses it; [board] is [null] when it is
    hydrated from the invalid-move sentinel. *)
Record Game := mkGame {
  board : option Board; currentPlayer : Color;
  whiteScore : jsnum; blackScore : jsnum; gameOver : bool }.

Inductive Flag := EXACT | LOWERBOUND | UPPERBOUND.

Record TTEntry := mkEntry { value : jsnum; tdepth : nat; flag : Flag }.

(** The [transpositionTable] [Map], keyed by the hash. *)
Definition TT := Z -> option TTEntry.

Definition tt_set (tbl : TT) (k : Z) (e : TTEntry) : TT :=
  fun k' => if k' =? k then Some e else tbl k'.

Definition evaluateBoard (game : Game) (aiRootColor : Color) : option jsnum :=
  match board game with
  | None => None
  | Some b =>
    let aiScore := match aiRootColor with white => whiteScore game | black => blackScore game end in
    let opponentScore := match opponent aiRootColor with
                         | white => whiteScore game | black => blackScore game end in
    Some (fold_left (fun score '(r, c) =>
      match b r c with
      | Some p =>
        let pieceValue :=
          ((if promoted p then inject_Z (number p) * (1 # 2) else 0)
           + (match color p with
              | white => inject_Z (7 - r) * (1 # 10)
              | black => inject_Z r * (1 # 10) end))%Q in
        if Color_eqb (color p) aiRootColor then jadd score (Fin pieceValue)
        else jsub score (Fin pieceValue)
      | None => score
      end) squares (jadd (Fin 0) (jsub aiScore opponentScore)))
  end.

(** [childGame.hydrateFromServerState({...})] after [mover] played. *)
Definition child_game (game : Game) (mover : Color) (s : SimResult) : Game :=
  mkGame (tempBoard s) (opponent mover)
    (jadd (whiteScore game) (match mover with white => aiScoreGain s | black => Fin 0 end))
    (jadd (blackScore game) (match mover with black => aiScoreGain s | white => Fin 0 end))
    false.

(** Lines 157-163: the table probe.  Returns the early result, if any, and
    the tightened window. *)
Definition tt_probe (tbl : TT) (currentHash : Z) (depth : nat) (alpha beta : jsnum)
    : option jsnum * jsnum * jsnum :=
  match tbl currentHash with
  | Some e =>
    if (depth <=? tdepth e)%nat then
      match flag e with
      | EXACT => (Some (value e), alpha, beta)
      | LOWERBOUND =>
        let alpha := jmax alpha (value e) in
        if jle beta alpha then (Some (value e), alpha, beta) else (None, alpha, beta)
      | UPPERBOUND =>
        let beta := jmin beta (value e) in
        if jle beta alpha then (Some (value e), alpha, beta) else (None, alpha, beta)
      end
    else (None, alpha, beta)
  | None => (None, alpha, beta)
  end.

(** Lines 220-222. *)
Definition node_flag (bestValue originalAlpha beta : jsnum) : Flag :=
  if jle bestValue originalAlpha then UPPERBOUND
  else if jle beta bestValue then LOWERBOUND
  else EXACT.

(** Lines 180-217: the loop over the moves of a node; [search] is the
    recursive call [alphaBetaSearch(childGame, depth - 1, alpha, beta,
    !isMaximizingPlayer, aiRootColor, nextHash)]. *)
Fixpoint alphaBetaLoop
    (search : Game -> jsnum -> jsnum -> bool -> Z -> TT -> option (jsnum * TT))
    (game : Game) (b : Board) (isMaximizingPlayer : bool) (currentHash : Z)
    (ms : list Move) (bestValue alpha beta : jsnum) (tbl : TT)
    : option (jsnum * jsnum * jsnum * TT) :=
  match ms with
  | [] => Some (bestValue, alpha, beta, tbl)
  | move :: ms' =>
    match next_hash currentHash move with
    | None => None
    | Some nextHash =>
      match simulateFullMove (fromRow move) (fromCol move) (toRow move) (toCol move)
                             (currentPlayer game) b with
      | None => None
      | Some s =>
        match search (child_game game (currentPlayer game) s)
                alpha beta (negb isMaximizingPlayer) nextHash tbl with
        | None => None
        | Some (v, tbl) =>
          if isMaximizingPlayer then
            let ev := jadd (aiScoreGain s) v in
            let bestValue := jmax bestValue ev in
            let alpha := jmax alpha ev in
            if jle beta alpha then Some (bestValue, alpha, beta, tbl)
            else alphaBetaLoop search game b isMaximizingPlayer currentHash ms'
                   bestValue alpha beta tbl
          else
            let ev := jadd (jneg (aiScoreGain s)) v in
            let bestValue := jmin bestValue ev in
            let beta := jmin beta ev in
            if jle beta alpha then Some (bestValue, alpha, beta, tbl)
            else alphaBetaLoop search game b isMaximizingPlayer currentHash ms'
                   bestValue alpha beta tbl
        end
      end
    end
  end.

Fixpoint alphaBetaSearch (depth : nat) (game : Game) (alpha beta : jsnum)
    (isMaximizingPlayer : bool) (aiRootColor : Color) (currentHash : Z) (tbl : TT)
    {struct depth} : option (jsnum * TT) :=
  let originalAlpha := alpha in
  match tt_probe tbl currentHash depth alpha beta with
  | (Some v, _, _) => Some (v, tbl)
  | (None, alpha, beta) =>
    let leaf := option_map (fun v => (v, tbl)) (evaluateBoard game aiRootColor) in
    match depth with
    | O => leaf
    | S d =>
      if gameOver game then leaf else
      match board game with
      | None => None
      | Some b =>
        if negb (hasValidMoves b (currentPlayer game)) then leaf else
        match alphaBetaLoop
                (fun g a bt mx h t => alphaBetaSearch d g a bt mx aiRootColor h t)
                game b isMaximizingPlayer currentHash
                (getAllPossibleMovesForPlayer b (currentPlayer game))
                (if isMaximizingPlayer then NInf else PInf) alpha beta tbl with
        | None => None
        | Some (bestValue, _, beta, tbl) =>
          Some (bestValue, tt_set tbl currentHash
                  (mkEntry bestValue depth (node_flag bestValue originalAlpha beta)))
        end
      end
    end
  end.

(** Lines 108-128: the value of one root move. *)
Definition root_move_value (game : Game) (b : Board) (playerColor : Color)
    (depth : nat) (rootHash : Z) (move : Move) (tbl : TT) : option (jsnum * TT) :=
  match simulateFullMove (fromRow move) (fromCol move) (toRow move) (toCol move)
                         playerColor b with
  | None => None
  | Some s =>
    if leadsToChoiceForThisPlayer s then Some (aiScoreGain s, tbl)
    else
      match next_hash rootHash move with
      | None => None
      | Some nextHash =>
        match alphaBetaSearch (depth - 1) (child_game game playerColor s)
                NInf PInf false playerColor nextHash tbl with
        | None => None
        | Some (v, tbl) => Some (jadd (aiScoreGain s) v, tbl)
        end
      end
  end.

(** [Date.now() - startTime > AI_THINKING_TIME_MS] at the [k]-th check of
    one call. *)
Variable expired : nat -> bool.

Inductive DepthOutcome :=
  | TimedOut
  | Completed (best : option Move) (v : jsnum) (tbl : TT) (k : nat).

(** Lines 102-134: one depth over the ordered root moves. *)
Fixpoint search_root (game : Game) (b : Board) (playerColor : Color)
    (depth : nat) (rootHash : Z) (ms : list Move) (k : nat)
    (currentBestMoveForDepth : option Move) (bestValueForDepth : jsnum) (tbl : TT)
    : option DepthOutcome :=
  match ms with
  | [] => Some (Completed currentBestMoveForDepth bestValueForDepth tbl k)
  | move :: ms' =>
    if expired k then Some TimedOut
    else
      match root_move_value game b playerColor depth rootHash move tbl with
      | None => None
      | Some (moveValue, tbl) =>
        if jlt bestValueForDepth moveValue
        then search_root game b playerColor depth rootHash ms' (S k) (Some move) moveValue tbl
        else search_root game b playerColor depth rootHash ms' (S k)
               currentBestMoveForDepth bestValueForDepth tbl
      end
  end.

Definition same_coords (a m : Move) : bool :=
  (fromRow m =? fromRow a) && (fromCol m =? fromCol a)
  && (toRow m =? toRow a) && (toCol m =? toCol a).

Fixpoint findIndex (p : Move -> bool) (l : list Move) : option nat :=
  match l with
  | [] => None
  | x :: l' => if p x then Some O else option_map S (findIndex p l')
  end.

Fixpoint remove_nth (i : nat) (l : list Move) : list Move :=
  match i, l with
  | _, [] => []
  | O, _ :: l' => l'
  | S i', x :: l' => x :: remove_nth i' l'
  end.

(** Lines 87-95: the previous best move first. *)
Definition prioritize (bestMoveSoFar : Move) (possibleMoves : list Move) : list Move :=
  match findIndex (same_coords bestMoveSoFar) possibleMoves with
  | Some i => nth i possibleMoves bestMoveSoFar :: remove_nth i possibleMoves
  | None => possibleMoves
  end.

Definition MAX_SEARCH_DEPTH : nat := 15.

(** Lines 83-146: iterative deepening from [depth] to [MAX_SEARCH_DEPTH];
    [fuel] is the number of depths left. *)
Fixpoint deepen (fuel : nat) (game : Game) (b : Board) (playerColor : Color)
    (possibleMoves : list Move) (depth : nat) (bestMoveSoFar : option Move)
    (tbl : TT) (k : nat) : option (option Move) :=
  match fuel with
  | O => Some bestMoveSoFar
  | S fuel' =>
    match bestMoveSoFar with
    | None => None  (* [bestMoveSoFar.fromRow] on [null] *)
    | Some bm =>
      let movesToSearch := prioritize bm possibleMoves in
      match calculateZobristKey b (currentPlayer game) with
      | None => None
      | Some rootHash =>
        match search_root game b playerColor depth rootHash movesToSearch k None NInf tbl with
        | None => None
        | Some TimedOut => Some bestMoveSoFar
        | Some (Completed best _ tbl k) =>
          if expired k then Some best
          else deepen fuel' game b playerColor possibleMoves (S depth) best tbl (S k)
        end
      end
    end
  end.

(** [findBestMoveWithAlphaBeta(game)], with [Math.random()] = [rnd] and the
    table [tbl] as found on entry.  [Some None] is the [null] result. *)
Definition findBestMoveWithAlphaBeta (rnd : Q) (game : Game) (tbl : TT)
    : option (option Move) :=
  match board game with
  | None => None
  | Some b =>
    let playerColor := currentPlayer game in
    let possibleMoves := getAllPossibleMovesForPlayer b playerColor in
    match possibleMoves with
    | [] => Some None
    | _ =>
      let i := Z.to_nat (Qfloor (rnd * inject_Z (Z.of_nat (length possibleMoves)))) in
      deepen MAX_SEARCH_DEPTH game b playerColor possibleMoves 1 (nth_error possibleMoves i) tbl 0
    end
  end.

End Search.

Definition empty_tt : TT := fun _ => None.

Definition ztab (pi si : Z) : Z := (pi * 7919 + si * 104729 + 13) mod 65536.

(* ================================================================= *)
(** ** Basic facts *)

(** The square [(r, c)] of an 8x8 board: empty off the grid. *)
Definition square (b : Board) (r c : Z) : option Piece :=
  if in_grid r c then b r c else None.

Lemma Color_eqb_true (a b : Color) : Color_eqb a b = true <-> a = b.
Proof. destruct a, b; simpl; split; congruence. Qed.

Lemma Color_eqb_refl (a : Color) : Color_eqb a a = true.
Proof. destruct a; reflexivity. Qed.

Lemma Color_eqb_false (a b : Color) : Color_eqb a b = false <-> a <> b.
Proof. destruct a, b; simpl; split; congruence. Qed.

Lemma copy_board_square (b : Board) (r c : Z) : copy_board b r c = square b r c.
Proof. reflexivity. Qed.

Lemma square_in_grid (b : Board) (r c : Z) (p : Piece) :
  square b r c = Some p -> in_grid r c = true.
Proof. unfold square. destruct (in_grid r c); congruence. Qed.

Lemma in_grid_spec (r c : Z) : in_grid r c = true <-> 0 <= r < 8 /\ 0 <= c < 8.
Proof.
  unfold in_grid. rewrite !andb_true_iff, !Z.leb_le, !Z.ltb_lt. tauto.
Qed.

Lemma set_cell_same (b : Board) (r c : Z) (v : option Piece) : set_cell b r c v r c = v.
Proof. unfold set_cell. rewrite !Z.eqb_refl. reflexivity. Qed.

Lemma set_cell_other (b : Board) (r c r' c' : Z) (v : option Piece) :
  (r' <> r \/ c' <> c) -> set_cell b r c v r' c' = b r' c'.
Proof.
  intros H. unfold set_cell.
  destruct (Z.eqb_spec r' r), (Z.eqb_spec c' c); simpl; auto; lia.
Qed.

(** The shape of a simulation that passes the three checks. *)
Lemma simulate_valid (b : Board) (fr fc tr tc : Z) (s : Color) (p : Piece) :
  square b fr fc = Some p -> color p = s -> 0 <= tr < 8 -> square b tr tc = None ->
  simulateFullMove fr fc tr tc s b =
    let tb := set_cell (set_cell (copy_board b) tr tc (Some p)) fr fc None in
    match promotion_step fr fc tr tc b p tb with
    | None => None
    | Some (tb, scoreGain, leads) =>
      let '(tb, scoreGain) := combination_step tr tc s tb scoreGain in
      Some (mkSim (Some tb) (Fin (inject_Z scoreGain)) leads)
    end.
Proof.
  intros Hf Hc Htr Ht. unfold simulateFullMove.
  change (copy_board b fr fc) with (square b fr fc). rewrite Hf, Hc, Color_eqb_refl. simpl.
  change (copy_board b tr tc) with (square b tr tc).
  assert (E : (0 <=? tr) && (tr <? 8) = true) by (apply andb_true_iff; split; [apply Z.leb_le | apply Z.ltb_lt]; lia).
  rewrite E, Ht. reflexivity.
Qed.

Lemma In_squares (r c : Z) : In (r, c) squares <-> in_grid r c = true.
Proof.
  rewrite in_grid_spec. unfold squares. rewrite in_flat_map. split.
  - intros [r' [Hr Hm]]. apply in_map_iff in Hm. destruct Hm as [c' [E Hc]].
    inversion E; subst. unfold rows8 in *. simpl in Hr, Hc. lia.
  - intros [Hr Hc]. exists r. split.
    + assert (r = 0 \/ r = 1 \/ r = 2 \/ r = 3 \/ r = 4 \/ r = 5 \/ r = 6 \/ r = 7) as E by lia.
      unfold rows8. repeat destruct E as [E|E]; subst; simpl; tauto.
    + apply in_map_iff. exists c. split; [reflexivity|].
      assert (c = 0 \/ c = 1 \/ c = 2 \/ c = 3 \/ c = 4 \/ c = 5 \/ c = 6 \/ c = 7) as E by lia.
      unfold rows8. repeat destruct E as [E|E]; subst; simpl; tauto.
Qed.

Lemma getValidMovesOnBoard_spec (r c : Z) (b : Board) (k : Color) (tr tc : Z) :
  0 <= c < 8 ->
  In (tr, tc) (getValidMovesOnBoard r c b k) ->
  tr = r + direction_of k /\ 0 <= tr < 8 /\ 0 <= tc < 8 /\ b tr tc = None
  /\ (tc = c \/ tc = c - 1 \/ tc = c + 1).
Proof.
  intros Hc. unfold getValidMovesOnBoard.
  destruct ((0 <=? r + direction_of k) && (r + direction_of k <? 8)) eqn:E;
    [|simpl; tauto].
  apply andb_true_iff in E. destruct E as [E1 E2].
  apply Z.leb_le in E1. apply Z.ltb_lt in E2.
  intros H. apply in_app_or in H. destruct H as [H|H].
  - destruct (b (r + direction_of k) c) eqn:Eb; simpl in H; [tauto|].
    destruct H as [H|[]]. inversion H; subst. repeat split; auto; lia.
  - simpl in H.
    destruct ((0 <=? c + -1) && (c + -1 <? 8) && negb (is_some (b (r + direction_of k) (c + -1)))) eqn:E3;
    destruct ((0 <=? c + 1) && (c + 1 <? 8) && negb (is_some (b (r + direction_of k) (c + 1)))) eqn:E4;
    simpl in H;
    repeat match goal with
    | H : _ \/ _ |- _ => destruct H as [H|H]
    | H : False |- _ => destruct H
    | H : (_, _) = (_, _) |- _ => inversion H; subst; clear H
    end;
    repeat match goal with
    | E : _ && _ = true |- _ => apply andb_true_iff in E; destruct E
    | E : negb _ = true |- _ => apply negb_true_iff in E
    | E : (_ <=? _) = true |- _ => apply Z.leb_le in E
    | E : (_ <? _) = true |- _ => apply Z.ltb_lt in E
    end;
    repeat split; try lia;
    match goal with
    | E : is_some ?x = false |- ?x = None => destruct x; simpl in E; congruence
    end.
Qed.

(** What the move generator guarantees about a move it produces. *)
Lemma generated_move_spec (s : Color) (b : Board) (m : Move) :
  In m (getAllPossibleMovesForPlayerOnBoard s b) ->
  square b (fromRow m) (fromCol m) = Some (piece m) /\ color (piece m) = s
  /\ in_grid (fromRow m) (fromCol m) = true
  /\ toRow m = fromRow m + direction_of s /\ 0 <= toRow m < 8 /\ 0 <= toCol m < 8
  /\ square b (toRow m) (toCol m) = None
  /\ (toCol m = fromCol m \/ toCol m = fromCol m - 1 \/ toCol m = fromCol m + 1).
Proof.
  unfold getAllPossibleMovesForPlayerOnBoard. intros H.
  apply in_flat_map in H. destruct H as [[r c] [Hsq H]].
  pose proof Hsq as Hg. apply In_squares in Hg.
  destruct (b r c) as [p|] eqn:Ep; [|destruct H].
  destruct (Color_eqb (color p) s) eqn:Ec; [|destruct H].
  apply Color_eqb_true in Ec.
  unfold moves_from in H. apply in_map_iff in H. destruct H as [[tr tc] [Em Ht]].
  subst m. simpl.
  pose proof Hg as Hg'. apply in_grid_spec in Hg'.
  apply getValidMovesOnBoard_spec in Ht; [|lia].
  destruct Ht as [E1 [E2 [E3 [E4 E5]]]]. rewrite Ec in E1.
  unfold square. rewrite Hg, Ep.
  assert (Hg2 : in_grid tr tc = true) by (apply in_grid_spec; lia).
  rewrite Hg2, E4. repeat split; auto; lia.
Qed.

(** [getAllPossibleMovesForPlayer] (on [this.board]) and
    [getAllPossibleMovesForPlayerOnBoard] produce the same moves. *)
Lemma getAllPossibleMoves_same (b : Board) (s : Color) :
  getAllPossibleMovesForPlayer b s = getAllPossibleMovesForPlayerOnBoard s b.
Proof.
  unfold getAllPossibleMovesForPlayer, getAllPossibleMovesForPlayerOnBoard.
  apply flat_map_ext. intros [r c]. unfold getValidMoves.
  destruct (b r c); reflexivity.
Qed.

Lemma promotion_step_some (fr fc tr tc : Z) (src : Board) (mp : Piece) (tb : Board) :
  exists tb' g l, promotion_step fr fc tr tc src mp tb = Some (tb', g, l).
Proof.
  unfold promotion_step.
  destruct (_ && _); [|eauto].
  unfold processPromotion. rewrite set_cell_same.
  destruct (matching_pieces _ _ _) as [|m [|m' ms]]; simpl; eauto.
Qed.

(** A simulation that passes the checks returns a board and a finite gain. *)
Lemma simulate_valid_result (b : Board) (fr fc tr tc : Z) (s : Color) (p : Piece) :
  square b fr fc = Some p -> color p = s -> 0 <= tr < 8 -> square b tr tc = None ->
  exists b' g l, simulateFullMove fr fc tr tc s b = Some (mkSim (Some b') (Fin g) l).
Proof.
  intros Hf Hc Htr Ht. rewrite (simulate_valid b fr fc tr tc s p Hf Hc Htr Ht).
  destruct (promotion_step_some fr fc tr tc b p
             (set_cell (set_cell (copy_board b) tr tc (Some p)) fr fc None))
    as [tb [g [l E]]].
  simpl. rewrite E. destruct (combination_step tr tc s tb g). eauto.
Qed.

(** ** C5: the invalid-move sentinel *)

(** C5: [simulateFullMove] returns the sentinel [{tempBoard: null,
    aiScoreGain: -Infinity}] exactly when the origin square is empty, holds
    a piece of another colour than the mover, or the destination square is
    occupied; on every move of the move generator it returns a result with a
    board and a finite gain, never the sentinel. *)
Theorem simulate_sentinel_iff (b : Board) (fr fc tr tc : Z) (s : Color) :
  (simulateFullMove fr fc tr tc s b = Some invalid_move <->
     square b fr fc = None
     \/ (exists p, square b fr fc = Some p /\ color p <> s)
     \/ square b tr tc <> None)
  /\ (forall m, In m (getAllPossibleMovesForPlayerOnBoard s b) ->
       simulateFullMove (fromRow m) (fromCol m) (toRow m) (toCol m) s b <> Some invalid_move
       /\ exists b' g l, simulateFullMove (fromRow m) (fromCol m) (toRow m) (toCol m) s b
                         = Some (mkSim (Some b') (Fin g) l)).
Proof.
  split.
  - unfold simulateFullMove. cbv zeta.
    change (copy_board b fr fc) with (square b fr fc).
    change (copy_board b tr tc) with (square b tr tc).
    destruct (square b fr fc) as [p|] eqn:Hf; [|split; auto].
    destruct (Color_eqb (color p) s) eqn:Hc; simpl.
    + apply Color_eqb_true in Hc.
      destruct ((0 <=? tr) && (tr <? 8)) eqn:Htr; simpl.
      * destruct (square b tr tc) eqn:Ht; simpl.
        -- split; auto. intros _. right; right; congruence.
        -- split.
           ++ destruct (promotion_step _ _ _ _ _ _ _) as [[[tb g] l]|];
                [destruct (combination_step _ _ _ _ _)|]; discriminate.
           ++ intros [H|[[q [H1 H2]]|H]]; congruence.
      * split; [discriminate|].
        intros [H|[[q [H1 H2]]|H]]; [congruence|congruence|].
        exfalso. apply H. unfold square.
        destruct (in_grid tr tc) eqn:G; [|reflexivity].
        apply in_grid_spec in G. apply andb_false_iff in Htr.
        destruct Htr as [Htr|Htr]; [apply Z.leb_gt in Htr|apply Z.ltb_ge in Htr]; lia.
    + split; auto. intros _. right; left. exists p. split; auto.
      apply Color_eqb_false; auto.
  - intros m Hm.
    destruct (generated_move_spec s b m Hm) as [Hf [Hc [_ [_ [Htr [_ [Ht _]]]]]]].
    destruct (simulate_valid_result b _ _ _ _ s _ Hf Hc Htr Ht) as [b' [g [l E]]].
    rewrite E. split; [discriminate | eauto].
Qed.

(* ================================================================= *)
(** ** Zobrist hashing *)

Section ZobristFacts.

Variable table : Z -> Z -> Z.
Variable blackToMove : Z.

Lemma zfold_none (b : Board) (l : list (Z * Z)) : fold_left (zobrist_step table b) l None = None.
Proof. induction l; simpl; auto. Qed.

Lemma zfold_xor (b : Board) (l : list (Z * Z)) (h z : Z) :
  fold_left (zobrist_step table b) l (Some (Z.lxor h z)) = option_map (fun x => Z.lxor x z) (fold_left (zobrist_step table b) l (Some h)).
Proof.
  revert h. induction l as [|[r c] l IH]; intros h; simpl; auto.
  destruct (b r c) as [p|]; [|apply IH].
  destruct (zobrist_entry table (getPieceIndex p) (r * 8 + c)) as [e|]; simpl.
  - replace (Z.lxor (Z.lxor h z) e) with (Z.lxor (Z.lxor h e) z) by
      (rewrite !Z.lxor_assoc, (Z.lxor_comm z e); reflexivity).
    apply IH.
  - rewrite !zfold_none. reflexivity.
Qed.

Lemma zstep_agree (b1 b2 : Board) (r c : Z) (acc : option Z) :
  b1 r c = b2 r c -> zobrist_step table b1 acc (r, c) = zobrist_step table b2 acc (r, c).
Proof. intros H. destruct acc; simpl; [rewrite H|]; reflexivity. Qed.

Lemma zfold_agree (b1 b2 : Board) (l : list (Z * Z)) (acc : option Z) :
  (forall r c, In (r, c) l -> b1 r c = b2 r c) -> fold_left (zobrist_step table b1) l acc = fold_left (zobrist_step table b2) l acc.
Proof.
  revert acc. induction l as [|[r c] l IH]; intros acc H; simpl; auto.
  rewrite IH by (intros; apply H; simpl; auto).
  destruct acc; simpl; auto. rewrite H by (simpl; auto). reflexivity.
Qed.

(** Adding one piece on one square XORs its key into the fold. *)
Lemma zfold_add_one (b1 b2 : Board) (l : list (Z * Z)) (r0 c0 : Z) (p : Piece) :
  NoDup l -> In (r0, c0) l ->
  (forall r c, In (r, c) l -> (r, c) <> (r0, c0) -> b1 r c = b2 r c) ->
  b1 r0 c0 = None -> b2 r0 c0 = Some p ->
  forall acc, fold_left (zobrist_step table b2) l acc =
    match fold_left (zobrist_step table b1) l acc with
    | None => None
    | Some h => option_map (Z.lxor h) (zobrist_entry table (getPieceIndex p) (r0 * 8 + c0))
    end.
Proof.
  induction l as [|[r c] l IH]; intros Hnd Hin Hag H1 H2 acc; [destruct Hin|].
  inversion Hnd as [|? ? Hnot Hnd']; subst.
  simpl.
  destruct (Z.eq_dec r r0) as [Er|Hr]; [destruct (Z.eq_dec c c0) as [Ec|Hc]|]; try subst r; try subst c.
  - rewrite (zfold_agree b2 b1) by
      (intros r c Hrc; symmetry; apply Hag; [simpl; auto| intros E; inversion E; subst; contradiction]).
    destruct acc as [h|]; [|simpl; rewrite !zfold_none; reflexivity].
    change (zobrist_step table b2 (Some h) (r0, c0)) with
      (match b2 r0 c0 with
       | Some p => option_map (Z.lxor h) (zobrist_entry table (getPieceIndex p) (r0 * 8 + c0))
       | None => Some h end).
    change (zobrist_step table b1 (Some h) (r0, c0)) with
      (match b1 r0 c0 with
       | Some p => option_map (Z.lxor h) (zobrist_entry table (getPieceIndex p) (r0 * 8 + c0))
       | None => Some h end).
    rewrite H1, H2.
    destruct (zobrist_entry table (getPieceIndex p) (r0 * 8 + c0)) as [z|]; simpl.
    + rewrite zfold_xor. destruct (fold_left (zobrist_step table b1) l (Some h)); reflexivity.
    + rewrite zfold_none. destruct (fold_left (zobrist_step table b1) l (Some h)); reflexivity.
  - destruct Hin as [E|Hin]; [inversion E; congruence|].
    rewrite (zstep_agree b2 b1) by (symmetry; apply Hag; simpl; auto; intros E; inversion E; congruence).
    apply IH; auto. intros; apply Hag; simpl; auto.
  - destruct Hin as [E|Hin]; [inversion E; congruence|].
    rewrite (zstep_agree b2 b1) by (symmetry; apply Hag; simpl; auto; intros E; inversion E; congruence).
    apply IH; auto. intros; apply Hag; simpl; auto.
Qed.

End ZobristFacts.

Lemma squares_NoDup : NoDup squares.
Proof.
  unfold squares, rows8. simpl.
  repeat constructor; simpl; intros H;
    repeat (destruct H as [H|H]; [inversion H|]); exact H.
Qed.

Ltac xor_solve :=
  apply Z.bits_inj'; intros ? _; rewrite ?Z.lxor_spec;
  repeat match goal with |- context [Z.testbit ?x ?n] => destruct (Z.testbit x n) end;
  reflexivity.

(** Line 290: the test that starts the promotion pass. *)
Definition promotion_triggered (b : Board) (m : Move) : bool :=
  match square b (fromRow m) (fromCol m) with
  | Some p => ((Color_eqb (color p) white && (toRow m =? 0))
               || (Color_eqb (color p) black && (toRow m =? 7))) && negb (promoted p)
  | None => false
  end.

(** The board after lines 281-282: the piece [p] relocated. *)
Definition relocate (b : Board) (m : Move) (p : Piece) : Board :=
  set_cell (set_cell (copy_board b) (toRow m) (toCol m) (Some p)) (fromRow m) (fromCol m) None.

(** A plain move: no promotion pass, and no combination (hence no capture)
    around the destination. *)
Definition plain_move (s : Color) (b : Board) (m : Move) : Prop :=
  promotion_triggered b m = false
  /\ checkCombinationsAroundPositionOnBoard (toRow m) (toCol m) (relocate b m (piece m)) s = [].

(** ** C8: incremental hashing of a plain move *)

(** C8: for every board, side to move [s] and plain move of [s] produced by
    the move generator, the simulation yields the relocated board [b'] with
    no gain and no choice, and the incremental update of [server.js]
    ([next_hash]) applied to the full hash of [b] with [s] to move equals
    [calculateZobristKey] of [b'] with the other side to move (both throw
    together when a piece has no key). *)
Theorem incremental_hash_plain_move (table : Z -> Z -> Z) (blackToMove : Z)
    (b : Board) (s : Color) (m : Move) :
  In m (getAllPossibleMovesForPlayer b s) -> plain_move s b m ->
  exists b',
    simulateFullMove (fromRow m) (fromCol m) (toRow m) (toCol m) s b
      = Some (mkSim (Some b') (Fin 0) false)
    /\ match calculateZobristKey table blackToMove b s with
       | Some h => next_hash table blackToMove h m
       | None => None
       end = calculateZobristKey table blackToMove b' (opponent s).
Proof.
  intros Hm [Hp Hcomb]. rewrite getAllPossibleMoves_same in Hm.
  destruct (generated_move_spec s b m Hm) as [Hf [Hc [Hg [Hdir [Htr [Htc [Ht Hcol]]]]]]].
  set (p := piece m) in *. set (fr := fromRow m) in *. set (fc := fromCol m) in *.
  set (tr := toRow m) in *. set (tc := toCol m) in *.
  assert (Hb : b fr fc = Some p) by (unfold square in Hf; rewrite Hg in Hf; exact Hf).
  assert (Hne : (tr, tc) <> (fr, fc)) by (intros E; inversion E; destruct s; simpl in Hdir; lia).
  exists (relocate b m p). split.
  - rewrite (simulate_valid b fr fc tr tc s p Hf Hc Htr Ht).
    unfold promotion_triggered in Hp. fold fr fc tr in Hp. rewrite Hf in Hp.
    unfold promotion_step. rewrite Hb, Hp. simpl.
    unfold combination_step.
    change (set_cell (set_cell (copy_board b) tr tc (Some p)) fr fc None) with (relocate b m p).
    rewrite Hcomb. reflexivity.
  - set (b0 := set_cell (copy_board b) fr fc None).
    assert (Gf : In (fr, fc) squares) by (apply In_squares; exact Hg).
    assert (Gt : In (tr, tc) squares) by (apply In_squares, in_grid_spec; lia).
    assert (A : fold_left (zobrist_step table b) squares (Some 0) =
              match fold_left (zobrist_step table b0) squares (Some 0) with
              | None => None
              | Some h => option_map (Z.lxor h) (zobrist_entry table (getPieceIndex p) (fr * 8 + fc))
              end).
    { apply zfold_add_one; auto using squares_NoDup.
      - intros r c Hrc Hn. unfold b0. rewrite set_cell_other.
        + unfold copy_board. apply In_squares in Hrc. rewrite Hrc. reflexivity.
        + destruct (Z.eq_dec r fr); [right; congruence | left; auto].
      - unfold b0. apply set_cell_same. }
    assert (B : fold_left (zobrist_step table (relocate b m p)) squares (Some 0) =
              match fold_left (zobrist_step table b0) squares (Some 0) with
              | None => None
              | Some h => option_map (Z.lxor h) (zobrist_entry table (getPieceIndex p) (tr * 8 + tc))
              end).
    { apply zfold_add_one; auto using squares_NoDup.
      - intros r c Hrc Hn. unfold relocate, b0. fold fr fc tr tc.
        destruct (Z.eq_dec r fr); [destruct (Z.eq_dec c fc)|]; try subst r; try subst c.
        + rewrite !set_cell_same. reflexivity.
        + rewrite !(set_cell_other _ fr fc) by (right; auto).
          rewrite set_cell_other; auto.
          destruct (Z.eq_dec fr tr); [right; congruence | left; auto].
        + rewrite !(set_cell_other _ fr fc) by (left; auto).
          rewrite set_cell_other; auto.
          destruct (Z.eq_dec r tr); [right; congruence | left; auto].
      - unfold b0. rewrite set_cell_other by
          (destruct (Z.eq_dec tr fr); [right; congruence | left; auto]).
        exact Ht.
      - unfold relocate. fold fr fc tr tc.
        rewrite set_cell_other by
          (destruct (Z.eq_dec tr fr); [right; congruence | left; auto]).
        apply set_cell_same. }
    unfold calculateZobristKey. rewrite A, B.
    destruct (fold_left (zobrist_step table b0) squares (Some 0)) as [h0|]; [|reflexivity].
    unfold next_hash. fold p fr fc tr tc.
    apply in_grid_spec in Hg.
    assert (Sf : (0 <=? fr * 8 + fc) && (fr * 8 + fc <? 64) = true)
      by (apply andb_true_iff; rewrite Z.leb_le, Z.ltb_lt; lia).
    assert (St : (0 <=? tr * 8 + tc) && (tr * 8 + tc <? 64) = true)
      by (apply andb_true_iff; rewrite Z.leb_le, Z.ltb_lt; lia).
    unfold zobrist_entry. rewrite <- !andb_assoc, Sf, St, andb_true_r.
    destruct ((0 <=? getPieceIndex p) && (getPieceIndex p <? 16)); simpl; [|destruct s; reflexivity].
    destruct s; simpl; f_equal; xor_solve.
Qed.

(** ** C10: the hash ignores promotion *)

Definition same_up_to_promotion (b1 b2 : Board) : Prop :=
  forall r c, option_map (fun p => (color p, number p)) (b1 r c)
              = option_map (fun p => (color p, number p)) (b2 r c).

(** C10: [calculateZobristKey] does not see promotion flags: two boards
    that differ only in the [promoted] flags of their pieces get the same
    hash (or both throw), for either side to move, so the transposition
    table cannot tell them apart. *)
Theorem calculateZobristKey_ignores_promotion (table : Z -> Z -> Z) (blackToMove : Z)
    (b1 b2 : Board) (s : Color) :
  same_up_to_promotion b1 b2 ->
  calculateZobristKey table blackToMove b1 s = calculateZobristKey table blackToMove b2 s.
Proof.
  intros H. unfold calculateZobristKey.
  assert (E : forall l acc, fold_left (zobrist_step table b1) l acc
                          = fold_left (zobrist_step table b2) l acc).
  { induction l as [|[r c] l IH]; intros acc; simpl; auto.
    rewrite IH. f_equal. destruct acc as [h|]; simpl; auto.
    specialize (H r c).
    destruct (b1 r c) as [p|], (b2 r c) as [q|]; simpl in H; inversion H; auto.
    unfold getPieceIndex. rewrite H1, H2. reflexivity. }
  rewrite E. reflexivity.
Qed.

Definition board_unpromoted : Board := put [(1, 0, W 5); (6, 3, B 2)].
Definition board_promoted : Board := put [(1, 0, promote (W 5)); (6, 3, B 2)].

Lemma calculateZobristKey_ignores_promotion_witness :
  same_up_to_promotion board_unpromoted board_promoted
  /\ calculateZobristKey ztab 4242 board_unpromoted white
     = calculateZobristKey ztab 4242 board_promoted white.
Proof.
  assert (H : same_up_to_promotion board_unpromoted board_promoted).
  { intros r c. unfold board_unpromoted, board_promoted, put. simpl.
    unfold set_cell, empty_board.
    destruct ((r =? 6) && (c =? 3)); [reflexivity|].
    destruct ((r =? 1) && (c =? 0)); reflexivity. }
  split; [exact H | apply (calculateZobristKey_ignores_promotion ztab 4242 _ _ white H)].
Defined.

Lemma incremental_hash_plain_move_witness :
  exists b',
    simulateFullMove 4 0 3 0 white (put [(4, 0, W 5); (1, 6, B 2)])
      = Some (mkSim (Some b') (Fin 0) false)
    /\ match calculateZobristKey ztab 99 (put [(4, 0, W 5); (1, 6, B 2)]) white with
       | Some h => next_hash ztab 99 h (mkMove 4 0 3 0 (W 5))
       | None => None
       end = calculateZobristKey ztab 99 b' black.
Proof.
  apply (incremental_hash_plain_move ztab 99 (put [(4, 0, W 5); (1, 6, B 2)]) white
           (mkMove 4 0 3 0 (W 5))).
  - vm_compute. left. reflexivity.
  - split; vm_compute; reflexivity.
Defined.

(* ================================================================= *)
(** ** C4: the promotion pass *)

Definition promotion_rank (k : Color) (r : Z) : bool :=
  match k with white => r =? 0 | black => r =? 7 end.

(** [a] comes before [b] in the row-major scan. *)
Definition row_major_before (a b : Z * Z) : Prop :=
  fst a * 8 + snd a < fst b * 8 + snd b.

(** An opposing, not yet promoted piece with the number of [p]. *)
Definition promotion_match (tb : Board) (p : Piece) (q : Z * Z) : Prop :=
  in_grid (fst q) (snd q) = true
  /\ exists t, tb (fst q) (snd q) = Some t /\ color t = opponent (color p)
               /\ number t = number p /\ promoted t = false.

Lemma StronglySorted_filter {A} (R : A -> A -> Prop) (f : A -> bool) (l : list A) :
  StronglySorted R l -> StronglySorted R (filter f l).
Proof.
  induction 1 as [|a l Hs IH Hf]; simpl; [constructor|].
  destruct (f a); [|exact IH].
  constructor; [exact IH|].
  rewrite Forall_forall in *. intros x Hx. apply filter_In in Hx. apply Hf, Hx.
Qed.

Lemma squares_sorted : StronglySorted row_major_before squares.
Proof.
  apply Sorted_StronglySorted.
  - intros a b c. unfold row_major_before. lia.
  - unfold squares, rows8, row_major_before. simpl.
    repeat constructor; simpl; lia.
Qed.

Lemma matching_pieces_spec (tb : Board) (p : Piece) (q : Z * Z) :
  In q (matching_pieces tb (opponent (color p)) (number p)) <-> promotion_match tb p q.
Proof.
  destruct q as [r c]. unfold matching_pieces, promotion_match.
  rewrite filter_In, In_squares. cbn [fst snd]. split.
  - intros [Hg Hp]. split; [exact Hg|].
    destruct (tb r c) as [t|]; [|discriminate].
    rewrite !andb_true_iff, Color_eqb_true, Z.eqb_eq, negb_true_iff in Hp.
    exists t. tauto.
  - intros [Hg [t [E [H1 [H2 H3]]]]]. split; [exact Hg|].
    rewrite E, H1, H2, H3, Color_eqb_refl, Z.eqb_refl. reflexivity.
Qed.

(** C4: for a move of a piece [p] that passes the checks of
    [simulateFullMove], the promotion pass (lines 287-300) runs exactly when
    [p] is not yet promoted and ends on its promotion rank (row 0 for White,
    row 7 for Black).  Then [p] is marked promoted on its destination, and
    the scan lists, in row-major order, exactly the opposing unpromoted
    pieces with the number of [p]: with none the pass gives 0 points, no
    capture and no choice; with one it captures it for [number p] points and
    no choice; with two or more it captures the first one for [number p]
    points and reports a choice.  Otherwise the pass does nothing.  The
    simulated move reports the pass's flag as [leadsToChoice], and the
    pass's points are the score the combination pass starts from. *)
Theorem promotion_pass (b : Board) (s : Color) (fr fc tr tc : Z) (p : Piece) :
  square b fr fc = Some p -> color p = s -> 0 <= tr < 8 -> square b tr tc = None ->
  let tb0 := set_cell (set_cell (copy_board b) tr tc (Some p)) fr fc None in
  simulateFullMove fr fc tr tc s b
    = match promotion_step fr fc tr tc b p tb0 with
      | None => None
      | Some (tb, scoreGain, leads) =>
        let '(tb, scoreGain) := combination_step tr tc s tb scoreGain in
        Some (mkSim (Some tb) (Fin (inject_Z scoreGain)) leads)
      end
  /\ (promotion_rank (color p) tr = true -> promoted p = false ->
     let tb1 := set_cell tb0 tr tc (Some (promote p)) in
     let ms := matching_pieces tb1 (opponent (color p)) (number p) in
     tb1 tr tc = Some (promote p)
     /\ (forall q, In q ms <-> promotion_match tb1 p q)
     /\ StronglySorted row_major_before ms
     /\ ((ms = [] /\ promotion_step fr fc tr tc b p tb0 = Some (tb1, 0, false))
         \/ (exists q, ms = [q] /\ promotion_step fr fc tr tc b p tb0
                                 = Some (set_cell tb1 (fst q) (snd q) None, number p, false))
         \/ (exists q q' rest, ms = q :: q' :: rest
                 /\ promotion_step fr fc tr tc b p tb0
                    = Some (set_cell tb1 (fst q) (snd q) None, number p, true))))
  /\ (promotion_rank (color p) tr = false \/ promoted p = true ->
      promotion_step fr fc tr tc b p tb0 = Some (tb0, 0, false)).
Proof.
  intros Hf Hc Htr Ht tb0.
  assert (Hb : b fr fc = Some p).
  { unfold square in Hf. destruct (in_grid fr fc); congruence. }
  assert (Cond : ((Color_eqb (color p) white && (tr =? 0))
                  || (Color_eqb (color p) black && (tr =? 7)))
                 = promotion_rank (color p) tr)
    by (destruct (color p); simpl; rewrite ?orb_false_r; reflexivity).
  split; [exact (simulate_valid b fr fc tr tc s p Hf Hc Htr Ht)|].
  split.
  - intros Hr Hp tb1 ms.
    split; [apply set_cell_same|].
    split; [intros q; apply matching_pieces_spec|].
    split; [apply StronglySorted_filter, squares_sorted|].
    unfold promotion_step. rewrite Hb, Cond, Hr, Hp. cbn [andb negb].
    fold tb1.
    assert (Hat : tb1 tr tc = Some (promote p)) by apply set_cell_same.
    unfold processPromotion. rewrite Hat.
    change (color (promote p)) with (color p). change (number (promote p)) with (number p).
    fold ms. clearbody ms.
    destruct ms as [|q [|q' rest]] eqn:Ems; cbn [clear_cells fold_left captures points leadsToChoice].
    + left. split; reflexivity.
    + right; left. exists q. split; reflexivity.
    + right; right. exists q, q', rest. split; reflexivity.
  - intros H. unfold promotion_step. rewrite Hb, Cond.
    destruct H as [H|H]; rewrite H; [|rewrite andb_false_r]; reflexivity.
Qed.

(** White's 5 steps onto row 0 with two unpromoted Black 5 on the board. *)
Definition promo_board : Board := put [(1, 0, W 5); (5, 7, B 5); (6, 7, B 5)].

Definition promo_tb0 : Board :=
  set_cell (set_cell (copy_board promo_board) 0 0 (Some (W 5))) 1 0 None.

Lemma promotion_pass_witness :
  square promo_board 1 0 = Some (W 5) /\ square promo_board 0 0 = None
  /\ promotion_step 1 0 0 0 promo_board (W 5) promo_tb0
     = Some (set_cell (set_cell promo_tb0 0 0 (Some (promote (W 5)))) 5 7 None, 5, true).
Proof.
  assert (H1 : square promo_board 1 0 = Some (W 5)) by reflexivity.
  assert (H4 : square promo_board 0 0 = None) by reflexivity.
  split; [exact H1|]. split; [exact H4|].
  destruct (promotion_pass promo_board white 1 0 0 0 (W 5) H1 eq_refl
              ltac:(lia) H4) as [_ [A _]].
  destruct (A eq_refl eq_refl) as [_ [_ [_ C]]].
  assert (Ems : matching_pieces (set_cell promo_tb0 0 0 (Some (promote (W 5))))
                  (opponent (color (W 5))) (number (W 5)) = [(5, 7); (6, 7)])
    by (vm_compute; reflexivity).
  change (set_cell (set_cell (copy_board promo_board) 0 0 (Some (W 5))) 1 0 None)
    with promo_tb0 in C.
  rewrite Ems in C.
  destruct C as [[E _]|[[q [E _]]|[q [q' [rest [E R]]]]]]; [discriminate|discriminate|].
  injection E as <- _ _. exact R.
Defined.

(* ================================================================= *)
(** ** C3: the combination pass on a crowded window *)

(** 31 pieces inside the window of [(3, 3)]: a White 5 and a Black 5 side by
    side at [(0, 0)] and [(0, 1)], and 29 ones. *)
Definition crowded_board : Board := put [(0, 0, W 5); (0, 1, B 5); (0, 2, W 1); (0, 3, B 1); (0, 4, W 1); (0, 5, B 1); (0, 6, W 1); (1, 0, B 1); (1, 1, W 1); (1, 2, B 1); (1, 3, W 1); (1, 4, B 1); (1, 5, W 1); (1, 6, B 1); (2, 0, W 1); (2, 1, B 1); (2, 2, W 1); (2, 3, B 1); (2, 4, W 1); (2, 5, B 1); (2, 6, W 1); (3, 0, B 1); (3, 1, W 1); (3, 2, B 1); (3, 3, W 1); (3, 4, B 1); (3, 5, W 1); (3, 6, B 1); (4, 0, W 1); (4, 1, B 1); (4, 2, W 1)].

Definition pd_w5 : PieceData := mkPD 0 0 (W 5).
Definition pd_b5 : PieceData := mkPD 0 1 (B 5).

(** C3: with 31 pieces in the window, [1 << 31] is negative in 32-bit
    arithmetic, the subset loop runs zero times and the pass returns no
    combination, although the window holds both colours and the adjacent
    pair White 5 / Black 5 (size 2, sum 10, both colours, connected) is a
    subset of its occupied squares. *)
Lemma combinations_crowded_window_missed :
  checkCombinationsAroundPositionOnBoard 3 3 crowded_board white = []
  /\ length (nearby_pieces 3 3 crowded_board) = 31%nat
  /\ scan_colors (nearby_pieces 3 3 crowded_board) false false = (true, true)
  /\ shl32 1 31 = - 2 ^ 31
  /\ In pd_w5 (nearby_pieces 3 3 crowded_board)
  /\ In pd_b5 (nearby_pieces 3 3 crowded_board)
  /\ sum_numbers [pd_w5; pd_b5] = 10
  /\ has_color white [pd_w5; pd_b5] = true /\ has_color black [pd_w5; pd_b5] = true
  /\ areConnectedOptimized [pd_w5; pd_b5] = true.
Proof. vm_compute. repeat split; auto 20. Qed.

(** With 3 pieces the pass does accept the pair. *)
Example combinations_small_window :
  checkCombinationsAroundPositionOnBoard 0 0 (put [(0, 0, W 5); (0, 1, B 5); (2, 2, W 1)]) white
  = [[pd_w5; pd_b5]].
Proof. vm_compute. reflexivity. Qed.

(* ================================================================= *)
(** ** C9: the cluster White 3, White 3, Black 4 *)

(** White moves its 3 from [(4, 3)] to [(3, 3)], next to a White 3 at
    [(3, 4)] and a Black 4 at [(2, 4)]. *)
Definition cluster_board : Board := put [(4, 3, W 3); (3, 4, W 3); (2, 4, B 4)].

(** C9: the move captures the Black 4 alone, and gains 4 points, not 2. *)
Lemma cluster_gain_is_four :
  simulateFullMove 4 3 3 3 white cluster_board
    = Some (mkSim (Some (set_cell (relocate cluster_board (mkMove 4 3 3 3 (W 3)) (W 3)) 2 4 None))
                  (Fin 4) false)
  /\ ~ (4 == 2)%Q.
Proof.
  split.
  - reflexivity.
  - intros H. discriminate H.
Qed.

(* ================================================================= *)
(** ** C7: the flag stored in the transposition table *)

(** A minimizing node at depth 1, Black to move, full window. *)
Definition flag_game : Game :=
  mkGame (Some (put [(1, 5, B 1); (6, 3, W 2)])) black (Fin 0) (Fin 0) false.

(** C7: the node's value [-0.1] lies strictly inside the window
    [(-Infinity, +Infinity)] it was called with, so the rule of the claim
    gives EXACT; the code compares against [beta] after the loop lowered it
    to the value itself and stores LOWERBOUND. *)
Lemma stored_flag_uses_lowered_beta :
  exists q tbl,
    alphaBetaSearch ztab 99 1 flag_game NInf PInf false white 77 empty_tt = Some (Fin q, tbl)
    /\ (q == -1 # 10)%Q
    /\ tbl 77 = Some (mkEntry (Fin q) 1 LOWERBOUND)
    /\ node_flag (Fin q) NInf PInf = EXACT.
Proof.
  do 2 eexists. split; [vm_compute; reflexivity|].
  split; [|split]; vm_compute; reflexivity.
Qed.

(* ================================================================= *)
(** ** C6: moves that leave a choice *)

(** White's 5 one step from row 0, with two unpromoted Black 5 on the
    board: both of its moves promote and leave a choice. *)
Definition choice_board : Board := put [(1, 0, W 5); (5, 7, B 5); (6, 7, B 5)].

Definition choice_game : Game := mkGame (Some choice_board) white (Fin 0) (Fin 0) false.

(** C6: at a recursive maximizing node of depth 1 every move reports
    [leadsToChoice] with a gain of 5, so taking the immediate gain as each
    move's value would give the node the value 5; the node searches the
    children and its value is 12.6.  The root loop, on the same position,
    does take the gain of 5 as the value of each of these moves. *)
Lemma choice_moves_searched_below_root :
  getAllPossibleMovesForPlayer choice_board white
    = [mkMove 1 0 0 0 (W 5); mkMove 1 0 0 1 (W 5)]
  /\ (forall m, In m (getAllPossibleMovesForPlayer choice_board white) ->
        exists s, simulateFullMove (fromRow m) (fromCol m) (toRow m) (toCol m) white choice_board
                    = Some s
               /\ leadsToChoiceForThisPlayer s = true /\ aiScoreGain s = Fin 5)
  /\ (exists q tbl,
       alphaBetaSearch ztab 99 1 choice_game NInf PInf true white 0 empty_tt = Some (Fin q, tbl)
       /\ (q == 63 # 5)%Q /\ ~ (q == 5)%Q)
  /\ (forall m, In m (getAllPossibleMovesForPlayer choice_board white) ->
        root_move_value ztab 99 choice_game choice_board white 2 0 m empty_tt
          = Some (Fin 5, empty_tt)).
Proof.
  split; [vm_compute; reflexivity|]. split; [|split].
  - change (getAllPossibleMovesForPlayer choice_board white)
      with [mkMove 1 0 0 0 (W 5); mkMove 1 0 0 1 (W 5)].
    intros m [<-|[<-|[]]]; eexists; (split; [reflexivity|]); split; reflexivity.
  - do 2 eexists. split; [vm_compute; reflexivity|]. split; vm_compute; [reflexivity|discriminate].
  - change (getAllPossibleMovesForPlayer choice_board white)
      with [mkMove 1 0 0 0 (W 5); mkMove 1 0 0 1 (W 5)].
    intros m [<-|[<-|[]]]; vm_compute; reflexivity.
Qed.

(* ================================================================= *)
(** ** C1: the search returns a generated move *)

(** Every piece on the grid carries a number in [1..8], as in a game. *)
Definition wf_board (b : Board) : Prop :=
  forall r c p, in_grid r c = true -> b r c = Some p -> 1 <= number p <= 8.

Definition wf_game (g : Game) : Prop :=
  exists b, board g = Some b /\ wf_board b /\ jfin (whiteScore g) /\ jfin (blackScore g).

(** Every value stored in the transposition table is a finite number. *)
Definition tt_fin (tbl : TT) : Prop :=
  forall k e, tbl k = Some e -> jfin (value e).

Lemma wf_set_cell_none (b : Board) (r c : Z) :
  wf_board b -> wf_board (set_cell b r c None).
Proof.
  intros H r' c' p Hg E. unfold set_cell in E.
  destruct ((r' =? r) && (c' =? c)); [discriminate|]. exact (H r' c' p Hg E).
Qed.

Lemma wf_set_cell_some (b : Board) (r c : Z) (p : Piece) :
  wf_board b -> 1 <= number p <= 8 -> wf_board (set_cell b r c (Some p)).
Proof.
  intros H Hp r' c' q Hg E. unfold set_cell in E.
  destruct ((r' =? r) && (c' =? c)); [injection E as <-; exact Hp|]. exact (H r' c' q Hg E).
Qed.

Lemma wf_copy_board (b : Board) : wf_board b -> wf_board (copy_board b).
Proof. intros H r c p Hg E. unfold copy_board in E. rewrite Hg in E. exact (H r c p Hg E). Qed.

Lemma wf_clear_cells (tb : Board) (ks : list key) : wf_board tb -> wf_board (clear_cells tb ks).
Proof.
  unfold clear_cells. revert tb. induction ks as [|k ks IH]; intros tb H; simpl; [exact H|].
  apply IH, wf_set_cell_none, H.
Qed.

Lemma wf_put (l : list (Z * Z * Piece)) :
  Forall (fun '(_, _, p) => 1 <= number p <= 8) l -> wf_board (put l).
Proof.
  unfold put. assert (H0 : wf_board empty_board) by (intros r c p _ E; discriminate).
  revert H0. generalize empty_board.
  induction l as [|[[r c] p] l IH]; intros b0 Hb Hl; simpl; [exact Hb|].
  inversion Hl; subst. apply IH; [apply wf_set_cell_some|]; assumption.
Qed.

Lemma wf_promotion_step (fr fc tr tc : Z) (src : Board) (mp : Piece) (tb tb' : Board)
    (g : Z) (l : bool) :
  wf_board tb -> 1 <= number mp <= 8 ->
  promotion_step fr fc tr tc src mp tb = Some (tb', g, l) -> wf_board tb'.
Proof.
  intros H Hn E. unfold promotion_step in E. cbv zeta in E.
  match type of E with
  | (if ?c then _ else _) = _ => destruct c
  end.
  - destruct (processPromotion _ _ _) as [pr|]; [|discriminate].
    injection E as <- _ _. apply wf_clear_cells, wf_set_cell_some; [exact H|exact Hn].
  - injection E as <- _ _. exact H.
Qed.

Lemma wf_combination_step (tr tc : Z) (s : Color) (tb tb' : Board) (g g' : Z) :
  wf_board tb -> combination_step tr tc s tb g = (tb', g') -> wf_board tb'.
Proof.
  intros H E. unfold combination_step in E. cbv zeta in E.
  destruct (checkCombinationsAroundPositionOnBoard tr tc tb s) as [|c cs].
  - injection E as <- _. exact H.
  - destruct (combination_captures s tb (c :: cs) g) as [rm sg]. injection E as <- _.
    apply wf_clear_cells, H.
Qed.

Lemma generated_number (b : Board) (s : Color) (m : Move) :
  wf_board b -> In m (getAllPossibleMovesForPlayer b s) -> 1 <= number (piece m) <= 8.
Proof.
  intros Hw Hm. rewrite getAllPossibleMoves_same in Hm.
  destruct (generated_move_spec s b m Hm) as [Hf [_ [Hg _]]].
  unfold square in Hf. rewrite Hg in Hf. exact (Hw _ _ _ Hg Hf).
Qed.

(** A generated move simulates to a board that is again well formed. *)
Lemma simulate_generated_wf (s : Color) (b : Board) (m : Move) :
  wf_board b -> In m (getAllPossibleMovesForPlayer b s) ->
  exists b' g l, simulateFullMove (fromRow m) (fromCol m) (toRow m) (toCol m) s b
                 = Some (mkSim (Some b') (Fin g) l) /\ wf_board b'.
Proof.
  intros Hw Hm. pose proof (generated_number b s m Hw Hm) as Hn.
  rewrite getAllPossibleMoves_same in Hm.
  destruct (generated_move_spec s b m Hm) as [Hf [Hc [Hg [_ [Htr [_ [Ht _]]]]]]].
  rewrite (simulate_valid b _ _ _ _ s (piece m) Hf Hc Htr Ht). cbv zeta.
  set (tb := set_cell (set_cell (copy_board b) (toRow m) (toCol m) (Some (piece m)))
                      (fromRow m) (fromCol m) None).
  assert (Htb : wf_board tb)
    by (apply wf_set_cell_none, wf_set_cell_some; [apply wf_copy_board, Hw | exact Hn]).
  destruct (promotion_step_some (fromRow m) (fromCol m) (toRow m) (toCol m) b (piece m) tb)
    as [tb1 [g [l E]]].
  rewrite E.
  destruct (combination_step (toRow m) (toCol m) s tb1 g) as [tb2 g2] eqn:Ec.
  exists tb2, (inject_Z g2), l. split; [reflexivity|].
  eapply wf_combination_step; [|exact Ec]. eapply wf_promotion_step; [exact Htb|exact Hn|exact E].
Qed.

Lemma zobrist_entry_some (table : Z -> Z -> Z) (pi si : Z) :
  0 <= pi < 16 -> 0 <= si < 64 -> zobrist_entry table pi si = Some (table pi si).
Proof.
  intros Hp Hs. unfold zobrist_entry.
  replace ((0 <=? pi) && (pi <? 16) && (0 <=? si) && (si <? 64)) with true; [reflexivity|].
  symmetry. rewrite !andb_true_iff, !Z.leb_le, !Z.ltb_lt. lia.
Qed.

Lemma piece_index_range (p : Piece) : 1 <= number p <= 8 -> 0 <= getPieceIndex p < 16.
Proof. unfold getPieceIndex. destruct (color p); lia. Qed.

Lemma next_hash_generated (table : Z -> Z -> Z) (btm : Z) (b : Board) (s : Color)
    (m : Move) (h : Z) :
  wf_board b -> In m (getAllPossibleMovesForPlayer b s) ->
  exists h', next_hash table btm h m = Some h'.
Proof.
  intros Hw Hm. pose proof (piece_index_range _ (generated_number b s m Hw Hm)) as Hi.
  rewrite getAllPossibleMoves_same in Hm.
  destruct (generated_move_spec s b m Hm) as [_ [_ [Hg [_ [Htr [Htc _]]]]]].
  apply in_grid_spec in Hg.
  unfold next_hash. rewrite !zobrist_entry_some by lia. eauto.
Qed.

Lemma zfold_some (table : Z -> Z -> Z) (b : Board) (l : list (Z * Z)) (h : Z) :
  wf_board b -> (forall r c, In (r, c) l -> in_grid r c = true) ->
  exists h', fold_left (zobrist_step table b) l (Some h) = Some h'.
Proof.
  revert h. induction l as [|[r c] l IH]; intros h Hw Hl; simpl; [eauto|].
  assert (Hg : in_grid r c = true) by (apply Hl; left; reflexivity).
  assert (Hl' : forall r' c', In (r', c') l -> in_grid r' c' = true)
    by (intros; apply Hl; right; assumption).
  destruct (b r c) as [p|] eqn:E; [|apply IH; assumption].
  pose proof (piece_index_range p (Hw r c p Hg E)) as Hi.
  apply in_grid_spec in Hg.
  rewrite zobrist_entry_some by lia. simpl. apply IH; assumption.
Qed.

Lemma calculateZobristKey_some (table : Z -> Z -> Z) (btm : Z) (b : Board) (s : Color) :
  wf_board b -> exists h, calculateZobristKey table btm b s = Some h.
Proof.
  intros Hw. unfold calculateZobristKey.
  destruct (zfold_some table b squares 0 Hw) as [h E];
    [intros r c; apply In_squares|].
  rewrite E. eauto.
Qed.

Lemma hasValidMoves_nonempty (b : Board) (s : Color) :
  hasValidMoves b s = true -> getAllPossibleMovesForPlayer b s <> [].
Proof.
  unfold hasValidMoves, getAllPossibleMovesForPlayer. generalize squares as l.
  induction l as [|[r c] l IH]; cbn [existsb flat_map]; [discriminate|].
  intros H E. apply app_eq_nil in E. destruct E as [E1 E2].
  apply orb_true_iff in H. destruct H as [H|H]; [|exact (IH H E2)].
  destruct (b r c) as [p|]; [|discriminate].
  destruct (Color_eqb (color p) s); [|discriminate].
  destruct (getValidMoves b r c); [discriminate|discriminate].
Qed.

Lemma evaluateBoard_fin (g : Game) (k : Color) :
  wf_game g -> exists q, evaluateBoard g k = Some (Fin q).
Proof.
  intros [b [Hb [_ [[qw Hw] [qb Hbk]]]]]. unfold evaluateBoard. rewrite Hb. cbv zeta.
  match goal with
  | |- exists q, Some (fold_left ?f ?l ?a) = _ =>
    assert (Hf : forall l0 acc, jfin acc -> jfin (fold_left f l0 acc));
    [|assert (Ha : jfin a); [|destruct (Hf l a Ha) as [q Hq]; exists q; rewrite Hq; reflexivity]]
  end.
  - induction l0 as [|[r c] l0 IH]; intros acc [q ->]; simpl; [eexists; reflexivity|].
    apply IH. destruct (b r c) as [p|]; [|eexists; reflexivity].
    destruct (Color_eqb (color p) k); eexists; reflexivity.
  - rewrite Hw, Hbk. destruct k; eexists; reflexivity.
Qed.

Lemma child_game_wf (g : Game) (mover : Color) (s : SimResult) (b' : Board) (q : Q) (l : bool) :
  wf_game g -> wf_board b' -> s = mkSim (Some b') (Fin q) l ->
  wf_game (child_game g mover s).
Proof.
  intros [b [_ [_ [[qw Hw] [qb Hb]]]]] Hb' ->. exists b'. unfold child_game. cbn.
  rewrite Hw, Hb. split; [reflexivity|]. split; [exact Hb'|].
  destruct mover; split; eexists; reflexivity.
Qed.

Lemma tt_set_fin (tbl : TT) (k : Z) (e : TTEntry) :
  tt_fin tbl -> jfin (value e) -> tt_fin (tt_set tbl k e).
Proof.
  intros H He k' e' E. unfold tt_set in E.
  destruct (k' =? k); [injection E as <-; exact He|exact (H k' e' E)].
Qed.

Lemma tt_probe_fin (tbl : TT) (h : Z) (d : nat) (a bt v a' bt' : jsnum) :
  tt_fin tbl -> tt_probe tbl h d a bt = (Some v, a', bt') -> jfin v.
Proof.
  intros H. unfold tt_probe.
  destruct (tbl h) as [e|] eqn:Ee; [|discriminate].
  destruct (d <=? tdepth e)%nat; [|discriminate].
  destruct (flag e); cbv zeta; try destruct (jle _ _); intros E; try discriminate;
    injection E as <- _ _; exact (H h e Ee).
Qed.

Lemma jmax_fin (a : jsnum) (x : Q) : a = NInf \/ jfin a -> jfin (jmax a (Fin x)).
Proof.
  intros [->|[y ->]]; unfold jmax; simpl; [eexists; reflexivity|].
  destruct (negb (Qle_bool x y)); eexists; reflexivity.
Qed.

Lemma jmin_fin (a : jsnum) (x : Q) : a = PInf \/ jfin a -> jfin (jmin a (Fin x)).
Proof.
  intros [->|[y ->]]; unfold jmin; simpl; [eexists; reflexivity|].
  destruct (negb (Qle_bool y x)); eexists; reflexivity.
Qed.

Section SearchFacts.

Variable table : Z -> Z -> Z.
Variable btm : Z.

(** The loop over a node's moves ends with a finite best value as soon as
    one move was searched. *)
Lemma alphaBetaLoop_fin
    (search : Game -> jsnum -> jsnum -> bool -> Z -> TT -> option (jsnum * TT))
    (game : Game) (b : Board) (isMax : bool) (h : Z) :
  wf_game game -> board game = Some b ->
  (forall g' a' bt' mx h' t', wf_game g' -> tt_fin t' ->
     exists v t'', search g' a' bt' mx h' t' = Some (v, t'') /\ jfin v /\ tt_fin t'') ->
  forall ms bv a bt tbl,
  (forall m, In m ms -> In m (getAllPossibleMovesForPlayer b (currentPlayer game))) ->
  tt_fin tbl -> (bv = (if isMax then NInf else PInf) \/ jfin bv) ->
  exists bv' a' bt' tbl',
    alphaBetaLoop table btm search game b isMax h ms bv a bt tbl = Some (bv', a', bt', tbl')
    /\ (jfin bv \/ ms <> [] -> jfin bv') /\ tt_fin tbl'.
Proof.
  intros Hg Hb Hs. assert (Hw : wf_board b).
  { destruct Hg as [b0 [E [W _]]]. rewrite Hb in E. injection E as <-. exact W. }
  induction ms as [|m ms IH]; intros bv a bt tbl Hms Ht Hbv.
  { exists bv, a, bt, tbl. split; [reflexivity|]. split; [|exact Ht].
    intros [H|H]; [exact H|]. exfalso. apply H. reflexivity. }
  assert (Hm : In m (getAllPossibleMovesForPlayer b (currentPlayer game)))
    by (apply Hms; left; reflexivity).
  assert (Hms' : forall m', In m' ms -> In m' (getAllPossibleMovesForPlayer b (currentPlayer game)))
    by (intros; apply Hms; right; assumption).
  destruct (next_hash_generated table btm b _ m h Hw Hm) as [h' Eh].
  destruct (simulate_generated_wf _ b m Hw Hm) as [b' [g [l [Es Hw']]]].
  destruct (Hs (child_game game (currentPlayer game) (mkSim (Some b') (Fin g) l))
              a bt (negb isMax) h' tbl) as [v [t' [Ev [[qv ->] Ht']]]];
    [eapply child_game_wf; [exact Hg|exact Hw'|reflexivity]|exact Ht|].
  cbn [alphaBetaLoop]. rewrite Eh, Es, Ev. cbn [aiScoreGain jadd jneg].
  destruct isMax.
  - assert (Hf : jfin (jmax bv (Fin (g + qv)))) by (apply jmax_fin; exact Hbv).
    destruct (jle bt (jmax a (Fin (g + qv)))).
    + do 4 eexists. split; [reflexivity|]. split; [intros _; exact Hf|exact Ht'].
    + destruct (IH _ (jmax a (Fin (g + qv))) bt t' Hms' Ht' (or_intror Hf))
        as [bv' [a' [bt' [t'' [E [Hf' Ht'']]]]]].
      exists bv', a', bt', t''. split; [exact E|]. split; [|exact Ht''].
      intros _. apply Hf'. left. exact Hf.
  - assert (Hf : jfin (jmin bv (Fin (- g + qv)))) by (apply jmin_fin; exact Hbv).
    destruct (jle (jmin bt (Fin (- g + qv))) a).
    + do 4 eexists. split; [reflexivity|]. split; [intros _; exact Hf|exact Ht'].
    + destruct (IH _ a (jmin bt (Fin (- g + qv))) t' Hms' Ht' (or_intror Hf))
        as [bv' [a' [bt' [t'' [E [Hf' Ht'']]]]]].
      exists bv', a', bt', t''. split; [exact E|]. split; [|exact Ht''].
      intros _. apply Hf'. left. exact Hf.
Qed.

(** Every search of a well-formed position with a finite table returns a
    finite value and leaves a finite table. *)
Lemma alphaBetaSearch_fin (depth : nat) :
  forall game a bt mx root h tbl, wf_game game -> tt_fin tbl ->
  exists v tbl', alphaBetaSearch table btm depth game a bt mx root h tbl = Some (v, tbl')
                 /\ jfin v /\ tt_fin tbl'.
Proof.
  induction depth as [|d IH]; intros game a bt mx root h tbl Hg Ht;
    cbn [alphaBetaSearch];
    (destruct (tt_probe tbl h _ a bt) as [[[v|] a'] bt'] eqn:Ep;
     [exists v, tbl; split; [reflexivity|]; split; [eapply tt_probe_fin; eassumption|exact Ht]|]);
    destruct (evaluateBoard_fin game root Hg) as [q Hq].
  - rewrite Hq. cbn. exists (Fin q), tbl. split; [reflexivity|]. split; [eexists; reflexivity|exact Ht].
  - destruct (gameOver game).
    { rewrite Hq. cbn. exists (Fin q), tbl. split; [reflexivity|].
      split; [eexists; reflexivity|exact Ht]. }
    assert (Hg' := Hg). destruct Hg' as [b [Hb _]].
    rewrite Hb.
    destruct (hasValidMoves b (currentPlayer game)) eqn:Hv; cbn [negb].
    2: { rewrite Hq. cbn. exists (Fin q), tbl. split; [reflexivity|].
         split; [eexists; reflexivity|exact Ht]. }
    match goal with
    | |- context [alphaBetaLoop ?t ?k ?srch ?g ?bb ?mx ?hh ?ms0 ?bv0 ?al ?be ?tb] =>
      destruct (alphaBetaLoop_fin srch g bb mx hh Hg Hb
                  ltac:(intros; cbv beta; apply IH; assumption) ms0 bv0 al be tb)
        as [bv' [a2 [bt2 [t2 [E [Hf Ht2]]]]]]
    end.
    + intros m Hm. exact Hm.
    + exact Ht.
    + destruct mx; left; reflexivity.
    + rewrite E. exists bv', (tt_set t2 h (mkEntry bv' (S d) (node_flag bv' a bt2))).
      assert (Hbv : jfin bv') by (apply Hf; right; apply hasValidMoves_nonempty, Hv).
      split; [reflexivity|]. split; [exact Hbv|]. apply tt_set_fin; [exact Ht2|exact Hbv].
Qed.

Lemma root_move_value_fin (game : Game) (b : Board) (depth : nat) (h : Z) (m : Move) (tbl : TT) :
  wf_game game -> board game = Some b ->
  In m (getAllPossibleMovesForPlayer b (currentPlayer game)) -> tt_fin tbl ->
  exists q tbl', root_move_value table btm game b (currentPlayer game) depth h m tbl
                 = Some (Fin q, tbl') /\ tt_fin tbl'.
Proof.
  intros Hg Hb Hm Ht.
  assert (Hw : wf_board b).
  { destruct Hg as [b0 [E [W _]]]. rewrite Hb in E. injection E as <-. exact W. }
  destruct (simulate_generated_wf _ b m Hw Hm) as [b' [g [l [Es Hw']]]].
  unfold root_move_value. rewrite Es. cbn [leadsToChoiceForThisPlayer aiScoreGain].
  destruct l; [exists g, tbl; split; [reflexivity|exact Ht]|].
  destruct (next_hash_generated table btm b _ m h Hw Hm) as [h' Eh]. rewrite Eh.
  destruct (alphaBetaSearch_fin (depth - 1) (child_game game (currentPlayer game)
              (mkSim (Some b') (Fin g) false)) NInf PInf false (currentPlayer game) h' tbl)
    as [v [t' [Ev [[qv ->] Ht']]]];
    [eapply child_game_wf; [exact Hg|exact Hw'|reflexivity]|exact Ht|].
  rewrite Ev. exists (g + qv)%Q, t'. split; [reflexivity|exact Ht'].
Qed.

Variable expired : nat -> bool.

(** The root loop of one depth either stops on the clock or ends with a
    best move taken from the generated moves. *)
Lemma search_root_spec (game : Game) (b : Board) (depth : nat) (h : Z) :
  wf_game game -> board game = Some b ->
  forall ms k cur bv tbl,
  (forall m, In m ms -> In m (getAllPossibleMovesForPlayer b (currentPlayer game))) ->
  tt_fin tbl -> (cur = None -> bv = NInf) ->
  (forall m, cur = Some m -> In m (getAllPossibleMovesForPlayer b (currentPlayer game))) ->
  search_root table btm expired game b (currentPlayer game) depth h ms k cur bv tbl = Some TimedOut
  \/ exists best v tbl' k',
       search_root table btm expired game b (currentPlayer game) depth h ms k cur bv tbl
         = Some (Completed best v tbl' k')
       /\ tt_fin tbl'
       /\ (forall m, best = Some m -> In m (getAllPossibleMovesForPlayer b (currentPlayer game)))
       /\ (best = None -> cur = None /\ ms = []).
Proof.
  intros Hg Hb. induction ms as [|m ms IH]; intros k cur bv tbl Hms Ht Hcur Hin.
  { right. exists cur, bv, tbl, k. split; [reflexivity|]. split; [exact Ht|].
    split; [exact Hin|]. intros ->. split; reflexivity. }
  assert (Hm : In m (getAllPossibleMovesForPlayer b (currentPlayer game)))
    by (apply Hms; left; reflexivity).
  assert (Hms' : forall m', In m' ms -> In m' (getAllPossibleMovesForPlayer b (currentPlayer game)))
    by (intros; apply Hms; right; assumption).
  cbn [search_root]. destruct (expired k); [left; reflexivity|].
  destruct (root_move_value_fin game b depth h m tbl Hg Hb Hm Ht) as [q [t' [E Ht']]].
  rewrite E. destruct (jlt bv (Fin q)) eqn:Hlt.
  - destruct (IH (S k) (Some m) (Fin q) t' Hms' Ht' ltac:(discriminate)
                 ltac:(intros m' Em'; injection Em' as <-; exact Hm))
      as [H|[best [v [t2 [k2 [E2 [Ht2 [Hin2 Hnone]]]]]]]]; [left; exact H|].
    right. exists best, v, t2, k2. split; [exact E2|]. split; [exact Ht2|].
    split; [exact Hin2|]. intros Hn. destruct (Hnone Hn) as [Habs _]. discriminate.
  - destruct (IH (S k) cur bv t' Hms' Ht' Hcur Hin)
      as [H|[best [v [t2 [k2 [E2 [Ht2 [Hin2 Hnone]]]]]]]]; [left; exact H|].
    right. exists best, v, t2, k2. split; [exact E2|]. split; [exact Ht2|].
    split; [exact Hin2|]. intros Hn. destruct (Hnone Hn) as [Hc _].
    rewrite (Hcur Hc) in Hlt. discriminate.
Qed.

Lemma findIndex_lt (p : Move -> bool) (l : list Move) (i : nat) :
  findIndex p l = Some i -> (i < length l)%nat.
Proof.
  revert i. induction l as [|x l IH]; intros i; cbn [findIndex]; [discriminate|].
  destruct (p x); [intros E; injection E as <-; simpl; lia|].
  destruct (findIndex p l) as [j|]; [|discriminate].
  intros E. injection E as <-. specialize (IH j eq_refl). simpl. lia.
Qed.

Lemma remove_nth_incl (i : nat) (l : list Move) (x : Move) :
  In x (remove_nth i l) -> In x l.
Proof.
  revert i. induction l as [|y l IH]; intros [|i]; simpl; try tauto.
  intros [H|H]; [left; exact H|right; apply (IH i), H].
Qed.

Lemma prioritize_incl (bm : Move) (l : list Move) (x : Move) :
  In x (prioritize bm l) -> In x l.
Proof.
  unfold prioritize. destruct (findIndex (same_coords bm) l) as [i|] eqn:E; [|auto].
  intros [<-|H]; [apply nth_In, (findIndex_lt _ _ _ E)|apply (remove_nth_incl i), H].
Qed.

Lemma prioritize_nil (bm : Move) (l : list Move) : prioritize bm l = [] -> l = [].
Proof.
  unfold prioritize. destruct (findIndex (same_coords bm) l); [discriminate|auto].
Qed.

Lemma remove_nth_length (i : nat) (l : list Move) :
  (i < length l)%nat -> S (length (remove_nth i l)) = length l.
Proof.
  revert i. induction l as [|y l IH]; intros [|i] Hi; simpl in *; try lia.
  rewrite (IH i) by lia. reflexivity.
Qed.

Lemma prioritize_length (bm : Move) (l : list Move) :
  length (prioritize bm l) = length l.
Proof.
  unfold prioritize. destruct (findIndex (same_coords bm) l) as [i|] eqn:E; [|reflexivity].
  cbn [length]. apply remove_nth_length, (findIndex_lt _ _ _ E).
Qed.

(** The root loop of one depth stops on the clock as soon as one of its
    checks, made before each of its moves, finds the budget spent. *)
Lemma search_root_expires (game : Game) (b : Board) (depth : nat) (h : Z) :
  wf_game game -> board game = Some b ->
  forall ms k cur bv tbl,
  (forall m, In m ms -> In m (getAllPossibleMovesForPlayer b (currentPlayer game))) ->
  tt_fin tbl ->
  (exists j, (j < length ms)%nat /\ expired (k + j)%nat = true) ->
  search_root table btm expired game b (currentPlayer game) depth h ms k cur bv tbl = Some TimedOut.
Proof.
  intros Hg Hb. induction ms as [|m ms IH]; intros k cur bv tbl Hms Ht [j [Hj Ej]];
    [simpl in Hj; lia|].
  cbn [search_root]. destruct (expired k) eqn:Ek; [reflexivity|].
  destruct j as [|j]; [rewrite Nat.add_0_r in Ej; congruence|].
  assert (Hm : In m (getAllPossibleMovesForPlayer b (currentPlayer game)))
    by (apply Hms; left; reflexivity).
  destruct (root_move_value_fin game b depth h m tbl Hg Hb Hm Ht) as [q [t' [E Ht']]].
  assert (Hms' : forall m', In m' ms -> In m' (getAllPossibleMovesForPlayer b (currentPlayer game)))
    by (intros; apply Hms; right; assumption).
  assert (Hj' : exists j', (j' < length ms)%nat /\ expired (S k + j')%nat = true).
  { exists j. split; [simpl in Hj; lia|]. rewrite <- Ej. f_equal. lia. }
  rewrite E. destruct (jlt bv (Fin q)); apply IH; assumption.
Qed.

(** Iterative deepening keeps a generated move as its best move. *)
Lemma deepen_spec (game : Game) (b : Board) (fuel : nat) :
  wf_game game -> board game = Some b ->
  forall depth bm tbl k,
  In bm (getAllPossibleMovesForPlayer b (currentPlayer game)) -> tt_fin tbl ->
  exists m, deepen table btm expired fuel game b (currentPlayer game)
              (getAllPossibleMovesForPlayer b (currentPlayer game)) depth (Some bm) tbl k
            = Some (Some m)
            /\ In m (getAllPossibleMovesForPlayer b (currentPlayer game)).
Proof.
  intros Hg Hb. assert (Hw : wf_board b).
  { destruct Hg as [b0 [E [W _]]]. rewrite Hb in E. injection E as <-. exact W. }
  induction fuel as [|fuel IH]; intros depth bm tbl k Hbm Ht;
    [exists bm; split; [reflexivity|exact Hbm]|].
  cbn [deepen]. destruct (calculateZobristKey_some table btm b (currentPlayer game) Hw) as [h Eh].
  rewrite Eh.
  destruct (search_root_spec game b depth h Hg Hb
              (prioritize bm (getAllPossibleMovesForPlayer b (currentPlayer game))) k None NInf tbl)
    as [E|[best [v [t' [k' [E [Ht' [Hin Hnone]]]]]]]].
  - intros m Hm. apply prioritize_incl in Hm. exact Hm.
  - exact Ht.
  - intros _. reflexivity.
  - discriminate.
  - rewrite E. exists bm. split; [reflexivity|exact Hbm].
  - rewrite E. destruct best as [m|].
    2: { destruct (Hnone eq_refl) as [_ Hn]. apply prioritize_nil in Hn.
         rewrite Hn in Hbm. destruct Hbm. }
    destruct (expired k'); [exists m; split; [reflexivity|apply Hin; reflexivity]|].
    apply IH; [apply Hin; reflexivity|exact Ht'].
Qed.

End SearchFacts.

Lemma floor_index (rnd : Q) (n : nat) :
  (0 <= rnd < 1)%Q -> (0 < n)%nat ->
  (Z.to_nat (Qfloor (rnd * inject_Z (Z.of_nat n))) < n)%nat.
Proof.
  intros [H0 H1] Hn.
  pose proof (Qfloor_le (rnd * inject_Z (Z.of_nat n))) as A.
  pose proof (Qlt_floor (rnd * inject_Z (Z.of_nat n))) as B.
  assert (Hpos : (0 < inject_Z (Z.of_nat n))%Q).
  { change 0%Q with (inject_Z 0). rewrite <- Zlt_Qlt. lia. }
  assert (Hlt : (rnd * inject_Z (Z.of_nat n) < inject_Z (Z.of_nat n))%Q).
  { rewrite <- (Qmult_1_l (inject_Z (Z.of_nat n))) at 2. apply Qmult_lt_r; assumption. }
  assert (Hge : (0 <= rnd * inject_Z (Z.of_nat n))%Q)
    by (apply Qmult_le_0_compat; [exact H0|apply Qlt_le_weak, Hpos]).
  set (x := (rnd * inject_Z (Z.of_nat n))%Q) in *.
  assert (C1 : (Qfloor x < Z.of_nat n)%Z).
  { rewrite Zlt_Qlt. apply (Qle_lt_trans _ x); assumption. }
  assert (C2 : (0 < Qfloor x + 1)%Z).
  { rewrite Zlt_Qlt. apply (Qle_lt_trans _ x); [exact Hge|exact B]. }
  lia.
Qed.

(** C1: let [game] hold a board whose pieces carry numbers in [1..8], with
    finite scores, let the transposition table hold finite values only, let
    [Math.random()] return [rnd] in [[0, 1)], and let the clock run out at
    any checks whatever ([expired]).  If the side to move has no generated
    move, [findBestMoveWithAlphaBeta] returns [null].  Otherwise it returns
    one of the side's generated moves, and simulating that move does not
    give the invalid-move sentinel.  If the clock has run out at any of
    the checks made before the root moves of depth 1 (the [k]-th of them is
    check [k], for [k] below the number of moves), depth 1 does not
    complete and the returned move is the candidate drawn before the
    search. *)
Theorem findBestMove_returns_generated_move (table : Z -> Z -> Z) (btm : Z)
    (expired : nat -> bool) (rnd : Q) (game : Game) (tbl : TT) (b : Board) :
  board game = Some b -> wf_board b -> jfin (whiteScore game) -> jfin (blackScore game) ->
  tt_fin tbl -> (0 <= rnd < 1)%Q ->
  let M := getAllPossibleMovesForPlayer b (currentPlayer game) in
  (M = [] -> findBestMoveWithAlphaBeta table btm expired rnd game tbl = Some None)
  /\ (M <> [] ->
      exists m, findBestMoveWithAlphaBeta table btm expired rnd game tbl = Some (Some m)
        /\ In m M
        /\ exists b' g l,
             simulateFullMove (fromRow m) (fromCol m) (toRow m) (toCol m) (currentPlayer game) b
               = Some (mkSim (Some b') (Fin g) l))
  /\ (M <> [] -> (exists k, (k < length M)%nat /\ expired k = true) ->
      findBestMoveWithAlphaBeta table btm expired rnd game tbl
        = Some (nth_error M (Z.to_nat (Qfloor (rnd * inject_Z (Z.of_nat (length M))))))).
Proof.
  intros Hb Hw Hws Hbs Ht Hr M.
  assert (Hg : wf_game game) by (exists b; split; [exact Hb|]; split; [exact Hw|]; split; assumption).
  assert (Hnth : M <> [] -> exists m0,
            nth_error M (Z.to_nat (Qfloor (rnd * inject_Z (Z.of_nat (length M))))) = Some m0
            /\ In m0 M).
  { intros Hne. destruct (nth_error M _) as [m0|] eqn:E.
    - exists m0. split; [reflexivity|]. eapply nth_error_In, E.
    - exfalso. apply nth_error_None in E.
      assert (Hl : (0 < length M)%nat) by (destruct M; [congruence|simpl; lia]).
      pose proof (floor_index rnd (length M) Hr Hl). lia. }
  unfold findBestMoveWithAlphaBeta. rewrite Hb. cbv zeta. fold M.
  split; [|split].
  - intros ->. reflexivity.
  - intros Hne. destruct (Hnth Hne) as [m0 [E0 Hm0]].
    destruct M as [|m1 M1] eqn:EM; [congruence|]. rewrite <- EM in *.
    rewrite E0.
    destruct (deepen_spec table btm expired game b MAX_SEARCH_DEPTH Hg Hb 1 m0 tbl 0 Hm0 Ht)
      as [m [E Hm]].
    exists m. split; [exact E|]. split; [exact Hm|].
    destruct (simulate_generated_wf _ b m Hw Hm) as [b' [g [l [Es _]]]]. eauto.
  - intros Hne [k [Hk Hexp]]. destruct (Hnth Hne) as [m0 [E0 Hm0]].
    destruct M as [|m1 M1] eqn:EM; [congruence|]. rewrite <- EM in *.
    rewrite E0. cbn [MAX_SEARCH_DEPTH deepen].
    destruct (calculateZobristKey_some table btm b (currentPlayer game) Hw) as [h Eh].
    rewrite Eh.
    rewrite (search_root_expires table btm expired game b 1 h Hg Hb (prioritize m0 M) 0 None NInf tbl).
    + reflexivity.
    + intros m Hm. apply (prioritize_incl table btm expired) in Hm. exact Hm.
    + exact Ht.
    + exists k. rewrite prioritize_length. split; [exact Hk|exact Hexp].
Qed.

(** A position where Black has moves: two Black pieces and one White one. *)
Definition search_game : Game :=
  mkGame (Some (put [(1, 5, B 1); (2, 2, B 7); (6, 3, W 2)])) black (Fin 0) (Fin 3) false.

Lemma findBestMove_returns_generated_move_witness :
  (exists m, findBestMoveWithAlphaBeta ztab 99 (fun _ => false) (1 # 2) search_game empty_tt
               = Some (Some m)
             /\ In m (getAllPossibleMovesForPlayer (put [(1, 5, B 1); (2, 2, B 7); (6, 3, W 2)]) black))
  /\ findBestMoveWithAlphaBeta ztab 99 (fun k => Nat.eqb k 1) (1 # 2) search_game empty_tt
     = Some (nth_error (getAllPossibleMovesForPlayer (put [(1, 5, B 1); (2, 2, B 7); (6, 3, W 2)]) black) 3).
Proof.
  split.
  - destruct (findBestMove_returns_generated_move ztab 99 (fun _ => false) (1 # 2) search_game
                empty_tt (put [(1, 5, B 1); (2, 2, B 7); (6, 3, W 2)]))
      as [_ [A _]].
    + reflexivity.
    + apply wf_put. repeat constructor; simpl; lia.
    + eexists; reflexivity.
    + eexists; reflexivity.
    + intros k e E. discriminate.
    + split; vm_compute; [intros H; discriminate H|reflexivity].
    + destruct A as [m [E [Hm _]]].
      * vm_compute. discriminate.
      * exists m. split; [exact E|exact Hm].
  - destruct (findBestMove_returns_generated_move ztab 99 (fun k => Nat.eqb k 1) (1 # 2) search_game
                empty_tt (put [(1, 5, B 1); (2, 2, B 7); (6, 3, W 2)]))
      as [_ [_ C]].
    + reflexivity.
    + apply wf_put. repeat constructor; simpl; lia.
    + eexists; reflexivity.
    + eexists; reflexivity.
    + intros k e E. discriminate.
    + split; vm_compute; [intros H; discriminate H|reflexivity].
    + rewrite C.
      * reflexivity.
      * vm_compute. discriminate.
      * exists 1%nat. split; [vm_compute; repeat constructor|reflexivity].
Defined.

(* ================================================================= *)
(** ** C9: three-piece clusters *)

(** King-move adjacency of two distinct squares. *)
Definition adjb (a b : key) : bool :=
  negb (key_eqb a b) && (Z.abs (fst a - fst b) <=? 1) && (Z.abs (snd a - snd b) <=? 1).

Definition distinct3 (a b c : key) : bool :=
  negb (key_eqb a b) && negb (key_eqb a c) && negb (key_eqb b c).

(** Three squares form one connected component: two of the three pairs
    are adjacent. *)
Definition conn3 (a b c : key) : bool :=
  (adjb a b && adjb a c) || (adjb a b && adjb b c) || (adjb a c && adjb b c).

Definition sh (t k : key) : key := (fst k + fst t, snd k + snd t).

Lemma key_eqb_sh (t a b : key) : key_eqb (sh t a) (sh t b) = key_eqb a b.
Proof.
  destruct t as [t1 t2], a as [a1 a2], b as [b1 b2]. unfold key_eqb, sh; cbn [fst snd].
  destruct (Z.eqb_spec a1 b1), (Z.eqb_spec (a1 + t1) (b1 + t1)); try lia;
  destruct (Z.eqb_spec a2 b2), (Z.eqb_spec (a2 + t2) (b2 + t2)); try lia; reflexivity.
Qed.

Lemma mem_sh (t k : key) (l : list key) : mem (sh t k) (map (sh t) l) = mem k l.
Proof.
  induction l as [|a l IH]; [reflexivity|]. cbn [map mem existsb].
  unfold mem in IH. rewrite IH, key_eqb_sh. reflexivity.
Qed.

Lemma bfs_expand_sh (t : key) (pS : list key) (cur : key) (vS q : list key) :
  bfs_expand (map (sh t) pS) (sh t cur) (map (sh t) vS) (map (sh t) q)
  = let '(v, q') := bfs_expand pS cur vS q in (map (sh t) v, map (sh t) q').
Proof.
  unfold bfs_expand. generalize dirs8 as ds. intros ds. revert vS q.
  induction ds as [|[dR dC] ds IH]; intros vS q; [reflexivity|]. cbn [fold_left].
  replace (fst (sh t cur) + dR, snd (sh t cur) + dC) with (sh t (fst cur + dR, snd cur + dC))
    by (unfold sh; cbn [fst snd]; f_equal; lia).
  rewrite !mem_sh.
  destruct (mem (fst cur + dR, snd cur + dC) pS && negb (mem (fst cur + dR, snd cur + dC) vS)).
  - change (sh t (fst cur + dR, snd cur + dC) :: map (sh t) vS)
      with (map (sh t) ((fst cur + dR, snd cur + dC) :: vS)).
    change (map (sh t) q ++ [sh t (fst cur + dR, snd cur + dC)])
      with (map (sh t) q ++ map (sh t) [(fst cur + dR, snd cur + dC)]).
    rewrite <- map_app.
    apply IH.
  - apply IH.
Qed.

Lemma bfs_sh (t : key) (fuel : nat) (pS vS q : list key) :
  bfs fuel (map (sh t) pS) (map (sh t) vS) (map (sh t) q) = map (sh t) (bfs fuel pS vS q).
Proof.
  revert vS q. induction fuel as [|f IH]; intros vS q; [reflexivity|].
  destruct q as [|c q]; [reflexivity|]. cbn [bfs map].
  rewrite bfs_expand_sh. destruct (bfs_expand pS c vS q) as [v q']. apply IH.
Qed.

Lemma adjb_sh (t a b : key) : adjb (sh t a) (sh t b) = adjb a b.
Proof.
  unfold adjb. rewrite key_eqb_sh. unfold sh; cbn [fst snd].
  replace (fst a + fst t - (fst b + fst t)) with (fst a - fst b) by lia.
  replace (snd a + snd t - (snd b + snd t)) with (snd a - snd b) by lia.
  reflexivity.
Qed.

Lemma adjb_sym (a b : key) : adjb a b = adjb b a.
Proof.
  unfold adjb, key_eqb.
  rewrite (Z.eqb_sym (fst a)), (Z.eqb_sym (snd a)).
  replace (Z.abs (fst b - fst a)) with (Z.abs (fst a - fst b)) by lia.
  replace (Z.abs (snd b - snd a)) with (Z.abs (snd a - snd b)) by lia.
  reflexivity.
Qed.

Lemma key_eqb_sym (a b : key) : key_eqb a b = key_eqb b a.
Proof. unfold key_eqb. rewrite (Z.eqb_sym (fst a)), (Z.eqb_sym (snd a)). reflexivity. Qed.

Lemma conn3_swap12 (a b c : key) : conn3 a b c = conn3 b a c.
Proof.
  unfold conn3. rewrite (adjb_sym b a).
  destruct (adjb a b), (adjb a c), (adjb b c); reflexivity.
Qed.

Lemma conn3_swap23 (a b c : key) : conn3 a b c = conn3 a c b.
Proof.
  unfold conn3. rewrite (adjb_sym c b).
  destruct (adjb a b), (adjb a c), (adjb b c); reflexivity.
Qed.

Lemma distinct3_swap12 (a b c : key) : distinct3 a b c = distinct3 b a c.
Proof.
  unfold distinct3. rewrite (key_eqb_sym b a).
  destruct (key_eqb a b), (key_eqb a c), (key_eqb b c); reflexivity.
Qed.

Lemma distinct3_swap23 (a b c : key) : distinct3 a b c = distinct3 a c b.
Proof.
  unfold distinct3. rewrite (key_eqb_sym c b).
  destruct (key_eqb a b), (key_eqb a c), (key_eqb b c); reflexivity.
Qed.

Lemma In_zrange (a b x : Z) : In x (zrange a b) <-> a <= x <= b.
Proof.
  unfold zrange. rewrite in_map_iff. split.
  - intros [k [<- Hk]]. apply in_seq in Hk. lia.
  - intros H. exists (Z.to_nat (x - a)). split; [lia|]. apply in_seq. lia.
Qed.

Definition offsets : list key :=
  flat_map (fun r => map (fun c => (r, c)) (zrange (-2) 2)) (zrange (-2) 2).

(** The breadth-first search from the origin, over every placement of two
    more squares around it. *)
Lemma bfs3_table :
  forallb (fun d1 => forallb (fun d2 =>
    implb (distinct3 (0, 0) d1 d2 && conn3 (0, 0) d1 d2)
          (Nat.eqb (length (bfs 3 [(0, 0); d1; d2] [(0, 0)] [(0, 0)])) 3)) offsets) offsets
  = true.
Proof. vm_compute. reflexivity. Qed.

Lemma In_offsets (d : key) : -2 <= fst d <= 2 -> -2 <= snd d <= 2 -> In d offsets.
Proof.
  destruct d as [r c]. cbn [fst snd]. intros Hr Hc. unfold offsets.
  apply in_flat_map. exists r. split; [apply In_zrange; exact Hr|].
  apply in_map_iff. exists c. split; [reflexivity|apply In_zrange; exact Hc].
Qed.

(** [areConnectedOptimized] accepts every connected triple of squares,
    whatever their order. *)
Lemma areConnected3 (a b c : PieceData) :
  distinct3 (pkey a) (pkey b) (pkey c) = true -> conn3 (pkey a) (pkey b) (pkey c) = true ->
  areConnectedOptimized [a; b; c] = true.
Proof.
  intros Hd Hc.
  set (t := pkey a).
  set (d1 := (row b - row a, col b - col a)). set (d2 := (row c - row a, col c - col a)).
  assert (Ea : pkey a = sh t (0, 0)) by (unfold t, sh, pkey; cbn [fst snd]; f_equal; lia).
  assert (Eb : pkey b = sh t d1) by (unfold t, d1, sh, pkey; cbn [fst snd]; f_equal; lia).
  assert (Ec : pkey c = sh t d2) by (unfold t, d2, sh, pkey; cbn [fst snd]; f_equal; lia).
  unfold areConnectedOptimized. cbn [map length].
  rewrite Ea, Eb, Ec in *.
  change [sh t (0, 0); sh t d1; sh t d2] with (map (sh t) [(0, 0); d1; d2]).
  change [sh t (0, 0)] with (map (sh t) [(0, 0)]).
  rewrite bfs_sh, length_map.
  unfold distinct3, conn3 in Hd, Hc. rewrite !key_eqb_sh in Hd. rewrite !adjb_sh in Hc.
  assert (Hin : forall d, adjb (0, 0) d = true \/ (exists e, adjb (0, 0) e = true /\ adjb e d = true) ->
                -2 <= fst d <= 2 /\ -2 <= snd d <= 2).
  { intros d [H|[e [H1 H2]]]; unfold adjb in *; cbn [fst snd] in *;
      rewrite !andb_true_iff, !Z.leb_le in *; lia. }
  assert (H1 : -2 <= fst d1 <= 2 /\ -2 <= snd d1 <= 2).
  { apply Hin. destruct (adjb (0, 0) d1) eqn:E1; [left; reflexivity|right].
    exists d2. try rewrite E1 in Hc. cbn [andb orb] in Hc. apply andb_true_iff in Hc.
    rewrite (adjb_sym d2 d1). tauto. }
  assert (H2 : -2 <= fst d2 <= 2 /\ -2 <= snd d2 <= 2).
  { apply Hin. destruct (adjb (0, 0) d2) eqn:E2; [left; reflexivity|right].
    exists d1. try rewrite E2 in Hc. rewrite !andb_false_r, orb_false_l, orb_false_r in Hc.
    apply andb_true_iff in Hc. tauto. }
  pose proof bfs3_table as T. rewrite forallb_forall in T.
  specialize (T d1 (In_offsets d1 (proj1 H1) (proj2 H1))). rewrite forallb_forall in T.
  specialize (T d2 (In_offsets d2 (proj1 H2) (proj2 H2))).
  unfold distinct3, conn3 in T. rewrite Hd, Hc in T. exact T.
Qed.

Lemma perm3_cases {A : Type} (l : list A) (x y z : A) :
  Permutation l [x; y; z] ->
  l = [x; y; z] \/ l = [x; z; y] \/ l = [y; x; z] \/ l = [y; z; x]
  \/ l = [z; x; y] \/ l = [z; y; x].
Proof.
  intros H. destruct (Permutation_vs_cons_inv H) as [l1 [l2 E]]. subst l.
  apply Permutation_sym, Permutation_cons_app_inv, Permutation_length_2_inv in H.
  destruct l1 as [|u [|v [|w l1]]]; cbn [app] in H |- *;
    destruct H as [H|H]; inversion H; subst; tauto.
Qed.

(** The subsets of a three-entry window: only the full one can be accepted. *)
Lemma findValidCombinations3 (a b c : PieceData) :
  sum_numbers [a; b] <> 10 -> sum_numbers [a; c] <> 10 -> sum_numbers [b; c] <> 10 ->
  sum_numbers [a; b; c] = 10 -> has_color white [a; b; c] = true ->
  has_color black [a; b; c] = true -> areConnectedOptimized [a; b; c] = true ->
  findValidCombinations [a; b; c] = [[a; b; c]].
Proof.
  intros Hab Hac Hbc Hs Hw Hb Hc. unfold findValidCombinations. cbn [length].
  change (zrange 3 (shl32 1 (Z.of_nat 3) - 1)) with [3; 4; 5; 6; 7].
  cbn -[areConnectedOptimized sum_numbers has_color].
  apply Z.eqb_neq in Hab, Hac, Hbc. apply Z.eqb_eq in Hs.
  rewrite Hab, Hac, Hbc, Hs, Hw, Hb, Hc. reflexivity.
Qed.

Lemma nearby_pieces_lookup (r c : Z) (b : Board) (pd : PieceData) :
  In pd (nearby_pieces r c b) -> b (row pd) (col pd) = Some (pdpiece pd).
Proof.
  unfold nearby_pieces. rewrite in_flat_map. intros [r' [_ H]].
  rewrite in_flat_map in H. destruct H as [c' [_ H]].
  destruct (b r' c') as [p|] eqn:E; [|destruct H].
  destruct H as [<-|[]]. exact E.
Qed.

(** The relocated board of [simulateFullMove], before its two passes. *)
Definition moved (b : Board) (fr fc tr tc : Z) (p : Piece) : Board :=
  set_cell (set_cell (copy_board b) tr tc (Some p)) fr fc None.

Ltac perm3 s12 s23 :=
  first [ assumption | rewrite s12; assumption | rewrite s23; assumption
        | rewrite s12, s23; assumption | rewrite s23, s12; assumption
        | rewrite s12, s23, s12; assumption ].

Section Cluster.

Variables (tr tc yr yc zr zc : Z) (pp py pz : bool).

Let x := mkPD tr tc (mkPiece white 3 pp).
Let y := mkPD yr yc (mkPiece white 3 py).
Let z := mkPD zr zc (mkPiece black 4 pz).

Hypothesis Hd : distinct3 (tr, tc) (yr, yc) (zr, zc) = true.
Hypothesis Hc : conn3 (tr, tc) (yr, yc) (zr, zc) = true.

Lemma cluster_accepted (l : list PieceData) :
  Permutation l [x; y; z] -> findValidCombinations l = [l].
Proof.
  intros H.
  assert (A : forall a b c,
            distinct3 (pkey a) (pkey b) (pkey c) = true ->
            conn3 (pkey a) (pkey b) (pkey c) = true ->
            sum_numbers [a; b] <> 10 -> sum_numbers [a; c] <> 10 -> sum_numbers [b; c] <> 10 ->
            sum_numbers [a; b; c] = 10 -> has_color white [a; b; c] = true ->
            has_color black [a; b; c] = true ->
            findValidCombinations [a; b; c] = [[a; b; c]]).
  { intros a b c D C S1 S2 S3 S4 W B.
    apply findValidCombinations3; try assumption. apply areConnected3; assumption. }
  destruct (perm3_cases l x y z H) as [E | [E | [E | [E | [E | E]]]]]; subst l;
    (apply A; [ | | vm_compute; discriminate | vm_compute; discriminate
              | vm_compute; discriminate | reflexivity | reflexivity | reflexivity]);
    unfold x, y, z, pkey; cbn [row col].
  all: first [ perm3 distinct3_swap12 distinct3_swap23 | perm3 conn3_swap12 conn3_swap23 ].
Qed.

End Cluster.

Lemma cluster_captures (tb : Board) (tr tc yr yc zr zc : Z) (pp py pz : bool)
    (l : list PieceData) :
  tb tr tc = Some (mkPiece white 3 pp) -> tb yr yc = Some (mkPiece white 3 py) ->
  tb zr zc = Some (mkPiece black 4 pz) ->
  Permutation l [mkPD tr tc (mkPiece white 3 pp); mkPD yr yc (mkPiece white 3 py);
                 mkPD zr zc (mkPiece black 4 pz)] ->
  combination_captures white tb [l] 0 = ([(zr, zc)], 4).
Proof.
  intros Hx Hy Hz H.
  destruct (perm3_cases _ _ _ _ H) as [E | [E | [E | [E | [E | E]]]]]; subst l;
    unfold combination_captures; cbn [fold_left row col];
    repeat first [rewrite Hx | rewrite Hy | rewrite Hz | progress cbn]; reflexivity.
Qed.

Lemma scan_colors_cluster (tr tc yr yc zr zc : Z) (pp py pz : bool) (l : list PieceData) :
  Permutation l [mkPD tr tc (mkPiece white 3 pp); mkPD yr yc (mkPiece white 3 py);
                 mkPD zr zc (mkPiece black 4 pz)] ->
  scan_colors l false false = (true, true).
Proof.
  intros H.
  destruct (perm3_cases _ _ _ _ H) as [E | [E | [E | [E | [E | E]]]]]; subst l; reflexivity.
Qed.

(** C9: a White 3 moves to [(tr, tc)] and ends neither on row 0 nor as an
    unpromoted piece reaching it (no promotion pass).  After the move, the
    7x7 window around [(tr, tc)] holds exactly three pieces, in some order:
    the moved White 3, another White 3 at [(yr, yc)] and a Black 4 at
    [(zr, zc)], on three distinct squares forming one connected component
    under 8-directional adjacency.  Then, listed in any order, the three
    pieces are the only combination [findValidCombinations] accepts, and
    its captures are the Black 4 alone, for 4 points; the simulated move
    removes the Black 4, gains 4 points and reports no choice. *)
Theorem cluster_captures_black_four (b : Board) (fr fc tr tc yr yc zr zc : Z)
    (pp py pz : bool) :
  square b fr fc = Some (mkPiece white 3 pp) -> 0 <= tr < 8 -> square b tr tc = None ->
  (tr <> 0 \/ pp = true) ->
  distinct3 (tr, tc) (yr, yc) (zr, zc) = true -> conn3 (tr, tc) (yr, yc) (zr, zc) = true ->
  Permutation (nearby_pieces tr tc (moved b fr fc tr tc (mkPiece white 3 pp)))
    [mkPD tr tc (mkPiece white 3 pp); mkPD yr yc (mkPiece white 3 py);
     mkPD zr zc (mkPiece black 4 pz)] ->
  (forall l, Permutation l [mkPD tr tc (mkPiece white 3 pp); mkPD yr yc (mkPiece white 3 py);
                            mkPD zr zc (mkPiece black 4 pz)] ->
     findValidCombinations l = [l]
     /\ combination_captures white (moved b fr fc tr tc (mkPiece white 3 pp))
          (findValidCombinations l) 0 = ([(zr, zc)], 4))
  /\ simulateFullMove fr fc tr tc white b
     = Some (mkSim (Some (set_cell (moved b fr fc tr tc (mkPiece white 3 pp)) zr zc None))
                   (Fin 4) false).
Proof.
  intros Hf Htr Ht Hnp Hd Hc Hperm.
  set (tb0 := moved b fr fc tr tc (mkPiece white 3 pp)) in *.
  assert (Hin : forall pd, In pd [mkPD tr tc (mkPiece white 3 pp); mkPD yr yc (mkPiece white 3 py);
                                 mkPD zr zc (mkPiece black 4 pz)] ->
                tb0 (row pd) (col pd) = Some (pdpiece pd)).
  { intros pd Hpd. apply (nearby_pieces_lookup tr tc).
    apply (Permutation_in _ (Permutation_sym Hperm)), Hpd. }
  pose proof (Hin _ (or_introl eq_refl)) as Hx.
  pose proof (Hin _ (or_intror (or_introl eq_refl))) as Hy.
  pose proof (Hin _ (or_intror (or_intror (or_introl eq_refl)))) as Hz.
  cbn [row col pdpiece] in Hx, Hy, Hz.
  assert (Part : forall l, Permutation l [mkPD tr tc (mkPiece white 3 pp);
                                         mkPD yr yc (mkPiece white 3 py);
                                         mkPD zr zc (mkPiece black 4 pz)] ->
            findValidCombinations l = [l]
            /\ combination_captures white tb0 (findValidCombinations l) 0 = ([(zr, zc)], 4)).
  { intros l Hl. pose proof (cluster_accepted tr tc yr yc zr zc pp py pz Hd Hc l Hl) as E.
    split; [exact E|]. rewrite E. apply (cluster_captures tb0 tr tc yr yc zr zc pp py pz l);
    assumption. }
  split; [exact Part|].
  rewrite (simulate_valid b fr fc tr tc white (mkPiece white 3 pp) Hf eq_refl Htr Ht).
  cbv zeta. change (set_cell (set_cell (copy_board b) tr tc (Some (mkPiece white 3 pp))) fr fc None)
    with tb0.
  assert (Hb : b fr fc = Some (mkPiece white 3 pp)).
  { unfold square in Hf. destruct (in_grid fr fc); congruence. }
  assert (Hp : promotion_step fr fc tr tc b (mkPiece white 3 pp) tb0 = Some (tb0, 0, false)).
  { unfold promotion_step. rewrite Hb. cbn [color Color_eqb andb orb promoted].
    destruct Hnp as [H0|H0].
    - apply Z.eqb_neq in H0. rewrite H0. reflexivity.
    - subst pp. rewrite andb_false_r. reflexivity. }
  rewrite Hp.
  unfold combination_step, checkCombinationsAroundPositionOnBoard. cbv zeta.
  destruct (Part _ Hperm) as [E1 E2].
  rewrite (scan_colors_cluster tr tc yr yc zr zc pp py pz _ Hperm). cbn [negb orb].
  rewrite E2, E1. reflexivity.
Qed.

Lemma cluster_captures_black_four_witness :
  simulateFullMove 4 3 3 3 white cluster_board
  = Some (mkSim (Some (set_cell (moved cluster_board 4 3 3 3 (W 3)) 2 4 None)) (Fin 4) false).
Proof.
  assert (E : nearby_pieces 3 3 (moved cluster_board 4 3 3 3 (mkPiece white 3 false))
              = [mkPD 2 4 (mkPiece black 4 false); mkPD 3 3 (mkPiece white 3 false);
                 mkPD 3 4 (mkPiece white 3 false)]) by (vm_compute; reflexivity).
  apply (cluster_captures_black_four cluster_board 4 3 3 3 3 4 2 4 false false false).
  - reflexivity.
  - lia.
  - reflexivity.
  - left. discriminate.
  - reflexivity.
  - reflexivity.
  - rewrite E. apply (Permutation_cons_append [mkPD 3 3 (mkPiece white 3 false);
                                              mkPD 3 4 (mkPiece white 3 false)]).
Defined.

(* ================================================================= *)
(** ** C2: the source board in the heap *)

(** The objects [simulateFullMove] touches, in a heap of numbered
    locations: the board and row arrays hold references, a cell is [null]
    ([None]) or a reference to a piece object.  New objects are appended.
    The other objects the method creates (result records, the capture set,
    key strings) are never shared with the caller and are kept as plain
    values.  A thrown exception ends the computation with [None] and leaves
    the heap as it was at the throw. *)
Module HeapModel.

Inductive obj :=
  | OPiece (p : Piece)
  | ORow (cells : list (option nat))
  | OBoard (rows : list nat).

Definition heap := list obj.

Definition M (A : Type) := heap -> heap * option A.

Definition ret {A : Type} (a : A) : M A := fun h => (h, Some a).

Definition bind {A B : Type} (m : M A) (k : A -> M B) : M B :=
  fun h => let (h1, r) := m h in
           match r with Some a => k a h1 | None => (h1, None) end.

Local Notation "x <- m ;; k" := (bind m (fun x => k))
  (at level 61, m at next level, right associativity).
Local Notation "m ;; k" := (bind m (fun _ => k)) (at level 61, right associativity).

Definition throw {A : Type} : M A := fun h => (h, None).

Definition load (l : nat) : M obj :=
  fun h => match nth_error h l with Some o => (h, Some o) | None => (h, None) end.

Fixpoint replace_nth {A : Type} (l : list A) (i : nat) (x : A) : list A :=
  match l, i with
  | [], _ => []
  | _ :: l', O => x :: l'
  | y :: l', S i' => y :: replace_nth l' i' x
  end.

Definition store (l : nat) (o : obj) : M unit :=
  fun h => match nth_error h l with
           | Some _ => (replace_nth h l o, Some tt)
           | None => (h, None)
           end.

Definition alloc (o : obj) : M nat := fun h => (h ++ [o], Some (length h)).

(** [a[i] = v] on an array: an index past the end extends it with holes;
    a negative index sets a property that no read by index sees. *)
Fixpoint set_nth_ext (cells : list (option nat)) (i : nat) (v : option nat)
    : list (option nat) :=
  match cells, i with
  | [], O => [v]
  | [], S i' => None :: set_nth_ext [] i' v
  | _ :: cs, O => v :: cs
  | x :: cs, S i' => x :: set_nth_ext cs i' v
  end.

Definition set_index (cells : list (option nat)) (c : Z) (v : option nat) : list (option nat) :=
  if c <? 0 then cells else set_nth_ext cells (Z.to_nat c) v.

(** [a[i]]: [undefined] off the array. *)
Definition get_index (cells : list (option nat)) (c : Z) : option nat :=
  if c <? 0 then None
  else match nth_error cells (Z.to_nat c) with Some x => x | None => None end.

Definition row_index (rows : list nat) (r : Z) : option nat :=
  if r <? 0 then None else nth_error rows (Z.to_nat r).

(** [board[r]]. *)
Definition get_row (b : nat) (r : Z) : M (option nat) :=
  o <- load b;;
  match o with OBoard rows => ret (row_index rows r) | _ => throw end.

(** [board[r][c]]: throws when the row is [undefined]. *)
Definition read_cell (b : nat) (r c : Z) : M (option nat) :=
  rl <- get_row b r;;
  match rl with
  | None => throw
  | Some rl => o <- load rl;;
               match o with ORow cells => ret (get_index cells c) | _ => throw end
  end.

(** [board[r]?.[c]]. *)
Definition read_cell_opt (b : nat) (r c : Z) : M (option nat) :=
  rl <- get_row b r;;
  match rl with
  | None => ret None
  | Some rl => o <- load rl;;
               match o with ORow cells => ret (get_index cells c) | _ => throw end
  end.

(** [board[r][c] = v]. *)
Definition write_cell (b : nat) (r c : Z) (v : option nat) : M unit :=
  rl <- get_row b r;;
  match rl with
  | None => throw
  | Some rl => o <- load rl;;
               match o with
               | ORow cells => store rl (ORow (set_index cells c v))
               | _ => throw
               end
  end.

(** The pieces a board object shows, read through the heap. *)
Definition view (h : heap) (b : nat) : Board := fun r c =>
  match nth_error h b with
  | Some (OBoard rows) =>
    match row_index rows r with
    | Some rl =>
      match nth_error h rl with
      | Some (ORow cells) =>
        match get_index cells c with
        | Some pl => match nth_error h pl with Some (OPiece p) => Some p | _ => None end
        | None => None
        end
      | _ => None
      end
    | None => None
    end
  | _ => None
  end.

Definition view_m (b : nat) : M Board := fun h => (h, Some (view h b)).

(** [r.map(p => (p ? { ...p } : null))]. *)
Fixpoint copy_cells (cells : list (option nat)) : M (list (option nat)) :=
  match cells with
  | [] => ret []
  | None :: cs => cs' <- copy_cells cs;; ret (None :: cs')
  | Some pl :: cs => o <- load pl;; l <- alloc o;; cs' <- copy_cells cs;; ret (Some l :: cs')
  end.

(** [sourceBoard.map(r => ...)]. *)
Fixpoint copy_rows (rows : list nat) : M (list nat) :=
  match rows with
  | [] => ret []
  | rl :: rs =>
    o <- load rl;;
    match o with
    | ORow cells => cs' <- copy_cells cells;; l <- alloc (ORow cs');;
                    rs' <- copy_rows rs;; ret (l :: rs')
    | _ => throw
    end
  end.

Definition copy_board_m (src : nat) : M nat :=
  o <- load src;;
  match o with OBoard rows => rs' <- copy_rows rows;; alloc (OBoard rs') | _ => throw end.

(** [tempBoard[r][c] = null] for every key. *)
Fixpoint clear_m (tb : nat) (ks : list key) : M unit :=
  match ks with
  | [] => ret tt
  | k :: ks' => write_cell tb (fst k) (snd k) None;; clear_m tb ks'
  end.

Definition sentinel : option nat * jsnum * bool := (None, NInf, false).

(** [simulateFullMove], lines 267-325, on the board object [src]; the
    result's board is a reference.  The read-only passes run on the
    board the heap shows. *)
Definition simulate_heap (fromRow fromCol toRow toCol : Z) (forPlayerColor : Color)
    (src : nat) : M (option nat * jsnum * bool) :=
  tb <- copy_board_m src;;
  pl <- read_cell_opt tb fromRow fromCol;;
  match pl with
  | None => ret sentinel
  | Some pl =>
    o <- load pl;;
    match o with
    | OPiece pieceToMove =>
      if negb (Color_eqb (color pieceToMove) forPlayerColor) then ret sentinel else
      mp <- alloc (OPiece pieceToMove);;
      dest <- read_cell tb toRow toCol;;
      if is_some dest then ret sentinel else
      write_cell tb toRow toCol (Some mp);;
      write_cell tb fromRow fromCol None;;
      orig <- read_cell src fromRow fromCol;;
      unpromoted <- match orig with
                    | None => ret false
                    | Some l => o <- load l;;
                                match o with
                                | OPiece p => ret (negb (promoted p))
                                | _ => ret true
                                end
                    end;;
      let isPromotion := (Color_eqb (color pieceToMove) white && (toRow =? 0))
                         || (Color_eqb (color pieceToMove) black && (toRow =? 7)) in
      pr <- (if isPromotion && unpromoted then
               store mp (OPiece (promote pieceToMove));;
               b <- view_m tb;;
               match processPromotion toRow toCol b with
               | None => throw
               | Some pr => clear_m tb (captures pr);; ret (points pr, leadsToChoice pr)
               end
             else ret (0, false));;
      let (scoreGain, leads) := pr in
      b <- view_m tb;;
      match checkCombinationsAroundPositionOnBoard toRow toCol b forPlayerColor with
      | [] => ret (Some tb, Fin (inject_Z scoreGain), leads)
      | combinations =>
        let (toRemove, sg) := combination_captures forPlayerColor b combinations scoreGain in
        clear_m tb toRemove;;
        ret (Some tb, Fin (inject_Z sg), leads)
      end
    | _ => ret sentinel
    end
  end.

(** Every reference held by an object of the heap points into the heap. *)
Definition refs_ok (len : nat) (o : obj) : bool :=
  match o with
  | OPiece _ => true
  | ORow cells => forallb (fun x => match x with Some l => Nat.ltb l len | None => true end) cells
  | OBoard rows => forallb (fun l => Nat.ltb l len) rows
  end.

Definition closedb (h : heap) : bool := forallb (refs_ok (length h)) h.

(** [h'] extends [h] and agrees with it below [n]. *)
Definition grows (n : nat) (h h' : heap) : Prop :=
  (length h <= length h')%nat /\ forall l, (l < n)%nat -> nth_error h' l = nth_error h l.

Definition hoare {A : Type} (n : nat) (P : heap -> Prop) (m : M A) (Q : A -> heap -> Prop) : Prop :=
  forall h, P h -> grows n h (fst (m h))
                   /\ match snd (m h) with Some a => Q a (fst (m h)) | None => True end.

(** The copy [tb] is a board object at or above [n] whose rows lie in
    [[n, tb)]. *)
Definition Inv (n tb : nat) (h : heap) : Prop :=
  (n <= tb)%nat /\ exists rows, nth_error h tb = Some (OBoard rows)
                              /\ forall rl, In rl rows -> (n <= rl < tb)%nat.

Definition InvM (n tb mp : nat) (h : heap) : Prop :=
  Inv n tb h /\ (tb < mp < length h)%nat.

Lemma grows_refl (n : nat) (h : heap) : grows n h h.
Proof. split; auto. Qed.

Lemma grows_trans (n : nat) (h1 h2 h3 : heap) : grows n h1 h2 -> grows n h2 h3 -> grows n h1 h3.
Proof.
  intros [L1 E1] [L2 E2]. split; [lia|]. intros l Hl. rewrite E2 by exact Hl. apply E1, Hl.
Qed.

Lemma hoare_ret {A : Type} (n : nat) (P : heap -> Prop) (a : A) (Q : A -> heap -> Prop) :
  (forall h, P h -> Q a h) -> hoare n P (ret a) Q.
Proof. intros H h Hp. split; [apply grows_refl|apply H, Hp]. Qed.

Lemma hoare_throw {A : Type} (n : nat) (P : heap -> Prop) (Q : A -> heap -> Prop) :
  hoare n P throw Q.
Proof. intros h _. split; [apply grows_refl|exact I]. Qed.

Lemma hoare_bind {A B : Type} (n : nat) (P : heap -> Prop) (m : M A) (Q : A -> heap -> Prop)
    (k : A -> M B) (R : B -> heap -> Prop) :
  hoare n P m Q -> (forall a, hoare n (Q a) (k a) R) -> hoare n P (bind m k) R.
Proof.
  intros Hm Hk h Hp. unfold bind. destruct (Hm h Hp) as [G1 Q1].
  destruct (m h) as [h1 [a|]]; cbn in *; [|split; [exact G1|exact I]].
  destruct (Hk a h1 Q1) as [G2 R2]. split; [eapply grows_trans; eassumption|exact R2].
Qed.

Lemma hoare_pre {A : Type} (n : nat) (P P' : heap -> Prop) (m : M A) (Q : A -> heap -> Prop) :
  (forall h, P h -> P' h) -> hoare n P' m Q -> hoare n P m Q.
Proof. intros HP H h Hp. apply H, HP, Hp. Qed.

Lemma hoare_post {A : Type} (n : nat) (P : heap -> Prop) (m : M A) (Q Q' : A -> heap -> Prop) :
  (forall a h, Q a h -> Q' a h) -> hoare n P m Q -> hoare n P m Q'.
Proof.
  intros HQ H h Hp. destruct (H h Hp) as [G R]. split; [exact G|].
  destruct (snd (m h)); [apply HQ, R|exact I].
Qed.

(** A computation that leaves the heap as it is. *)
Definition readonly {A : Type} (m : M A) : Prop := forall h, fst (m h) = h.

Lemma hoare_readonly {A : Type} (n : nat) (P : heap -> Prop) (m : M A) :
  readonly m -> hoare n P m (fun _ h => P h).
Proof.
  intros R h Hp. specialize (R h). destruct (m h) as [h1 [a|]]; cbn in *; subst h1;
    (split; [apply grows_refl|]); [exact Hp|exact I].
Qed.

Lemma readonly_bind {A B : Type} (m : M A) (k : A -> M B) :
  readonly m -> (forall a, readonly (k a)) -> readonly (bind m k).
Proof.
  intros Rm Rk h. unfold bind. specialize (Rm h).
  destruct (m h) as [h1 [a|]]; cbn in *; subst h1; [apply Rk|reflexivity].
Qed.

Lemma readonly_ret {A : Type} (a : A) : readonly (ret a).
Proof. intros h. reflexivity. Qed.

Lemma readonly_throw {A : Type} : readonly (@throw A).
Proof. intros h. reflexivity. Qed.

Lemma readonly_load (l : nat) : readonly (load l).
Proof. intros h. unfold load. destruct (nth_error h l); reflexivity. Qed.

Lemma readonly_view (b : nat) : readonly (view_m b).
Proof. intros h. reflexivity. Qed.

Lemma readonly_get_row (b : nat) (r : Z) : readonly (get_row b r).
Proof.
  apply readonly_bind; [apply readonly_load|].
  intros []; [apply readonly_throw|apply readonly_throw|apply readonly_ret].
Qed.

Lemma readonly_read_cell (b : nat) (r c : Z) : readonly (read_cell b r c).
Proof.
  apply readonly_bind; [apply readonly_get_row|]. intros [rl|]; [|apply readonly_throw].
  apply readonly_bind; [apply readonly_load|].
  intros []; [apply readonly_throw|apply readonly_ret|apply readonly_throw].
Qed.

Lemma readonly_read_cell_opt (b : nat) (r c : Z) : readonly (read_cell_opt b r c).
Proof.
  apply readonly_bind; [apply readonly_get_row|]. intros [rl|]; [|apply readonly_ret].
  apply readonly_bind; [apply readonly_load|].
  intros []; [apply readonly_throw|apply readonly_ret|apply readonly_throw].
Qed.

Lemma length_replace_nth {A : Type} (l : list A) (i : nat) (x : A) :
  length (replace_nth l i x) = length l.
Proof. revert i. induction l as [|y l IH]; intros [|i]; simpl; auto. Qed.

Lemma nth_error_replace_nth_other {A : Type} (l : list A) (i j : nat) (x : A) :
  i <> j -> nth_error (replace_nth l i x) j = nth_error l j.
Proof.
  revert i j. induction l as [|y l IH]; intros [|i] [|j] H; simpl; auto; try congruence.
Qed.

Lemma hoare_alloc (n : nat) (P : heap -> Prop) (o : obj) :
  (forall h, P h -> (n <= length h)%nat) ->
  hoare n P (alloc o) (fun l h' => exists h, P h /\ h' = h ++ [o] /\ l = length h).
Proof.
  intros HP h Hp. cbn. split; [|eauto].
  split; [rewrite length_app; lia|].
  intros l Hl. apply nth_error_app1. specialize (HP h Hp). lia.
Qed.

Lemma nth_error_lt {A : Type} (l : list A) (i : nat) (x : A) :
  nth_error l i = Some x -> (i < length l)%nat.
Proof. intros E. apply nth_error_Some. congruence. Qed.

Lemma copy_cells_spec (n : nat) (cells : list (option nat)) :
  hoare n (fun h => (n <= length h)%nat) (copy_cells cells) (fun _ h => (n <= length h)%nat).
Proof.
  induction cells as [|[pl|] cs IH]; cbn [copy_cells].
  - apply hoare_ret. auto.
  - eapply hoare_bind; [apply hoare_readonly, readonly_load|]. intros o.
    eapply hoare_bind; [apply hoare_alloc; auto|]. intros l.
    eapply hoare_bind.
    + eapply hoare_pre; [|apply IH]. intros h [h0 [H0 [-> _]]]. rewrite length_app. lia.
    + intros cs'. apply hoare_ret. auto.
  - eapply hoare_bind; [apply IH|]. intros cs'. apply hoare_ret. auto.
Qed.

Lemma hoare_keep {A : Type} (n : nat) (P : heap -> Prop) (m : M A) (Q : A -> heap -> Prop)
    (X : nat -> Prop) :
  (forall a b, (a <= b)%nat -> X a -> X b) ->
  hoare n P m Q -> hoare n (fun h => P h /\ X (length h)) m (fun a h => Q a h /\ X (length h)).
Proof.
  intros Xm H h [Hp Hx]. destruct (H h Hp) as [[L G] R]. split; [split; assumption|].
  destruct (snd (m h)); [split; [exact R|eapply Xm; eassumption]|exact I].
Qed.

Lemma copy_rows_spec (n : nat) (rows : list nat) :
  hoare n (fun h => (n <= length h)%nat) (copy_rows rows)
    (fun rs h => (n <= length h)%nat /\ forall rl, In rl rs -> (n <= rl < length h)%nat).
Proof.
  induction rows as [|rl rows IH]; cbn [copy_rows].
  - apply hoare_ret. intros h H. split; [exact H|intros rl []].
  - eapply hoare_bind; [apply hoare_readonly, readonly_load|]. intros o.
    destruct o as [|cells|]; [apply hoare_throw| |apply hoare_throw].
    eapply hoare_bind; [apply copy_cells_spec|]. intros cs'.
    eapply hoare_bind; [apply hoare_alloc; auto|]. intros l.
    eapply hoare_bind.
    + eapply hoare_pre;
        [|refine (hoare_keep _ _ _ _ (fun len => (n <= l < len)%nat) _ IH); intros a b Hab Ha; lia].
      intros h [h0 [H0 [-> ->]]]. rewrite length_app. cbn [length]. split; lia.
    + intros rs. apply hoare_ret. intros h [[Hn Hr] Hl]. split; [exact Hn|].
      intros rl' [<-|Hin]; [exact Hl|apply Hr, Hin].
Qed.

Lemma copy_board_spec (n src : nat) :
  hoare n (fun h => (n <= length h)%nat) (copy_board_m src) (fun tb h => Inv n tb h).
Proof.
  unfold copy_board_m.
  eapply hoare_bind; [apply hoare_readonly, readonly_load|]. intros o.
  destruct o as [| |rows]; [apply hoare_throw|apply hoare_throw|].
  eapply hoare_bind; [apply copy_rows_spec|]. intros rs.
  eapply hoare_post; [|apply hoare_alloc; intros h [H _]; exact H].
  intros tb h' [h [[Hn Hr] [-> ->]]]. split; [exact Hn|]. exists rs. split.
  - rewrite nth_error_app2, Nat.sub_diag by lia. reflexivity.
  - exact Hr.
Qed.

Lemma row_index_In (rows : list nat) (r : Z) (rl : nat) :
  row_index rows r = Some rl -> In rl rows.
Proof. unfold row_index. destruct (r <? 0); [discriminate|apply nth_error_In]. Qed.

Lemma get_index_In (cells : list (option nat)) (c : Z) (pl : nat) :
  get_index cells c = Some pl -> In (Some pl) cells.
Proof.
  unfold get_index. destruct (c <? 0); [discriminate|].
  destruct (nth_error cells (Z.to_nat c)) as [x|] eqn:E; [|discriminate].
  intros ->. eapply nth_error_In, E.
Qed.

(** A store at or above [n] to a location other than the copy itself. *)
Lemma store_invm (n tb mp l : nat) (o : obj) (h : heap) :
  InvM n tb mp h -> (n <= l)%nat -> l <> tb ->
  grows n h (replace_nth h l o) /\ InvM n tb mp (replace_nth h l o).
Proof.
  intros [[Hn [rows [Htb Hr]]] Hmp] Hl Ht. split; [split|split; [split|]].
  - rewrite length_replace_nth. lia.
  - intros l' Hl'. apply nth_error_replace_nth_other. lia.
  - exact Hn.
  - exists rows. rewrite nth_error_replace_nth_other by congruence. split; [exact Htb|exact Hr].
  - rewrite length_replace_nth. exact Hmp.
Qed.

Lemma write_cell_invm (n tb mp : nat) (r c : Z) (v : option nat) :
  hoare n (InvM n tb mp) (write_cell tb r c v) (fun _ => InvM n tb mp).
Proof.
  intros h HI. pose proof HI as [[Hn [rows [Htb Hr]]] Hmp].
  unfold write_cell, get_row, bind, load, ret, throw, store. rewrite Htb. cbn beta iota.
  destruct (row_index rows r) as [rl|] eqn:Er; cbn beta iota; [|split; [apply grows_refl|exact I]].
  pose proof (Hr rl (row_index_In _ _ _ Er)) as Hrl.
  destruct (nth_error h rl) as [o|] eqn:Erl; cbn beta iota; [|split; [apply grows_refl|exact I]].
  destruct o as [|cells|]; cbn beta iota; try (split; [apply grows_refl|exact I]).
  rewrite Erl. cbn [fst snd].
  apply (store_invm n tb mp); [exact HI|lia|lia].
Qed.

Lemma store_mp_invm (n tb mp : nat) (o : obj) :
  hoare n (InvM n tb mp) (store mp o) (fun _ => InvM n tb mp).
Proof.
  intros h HI. pose proof HI as [[Hn [rows [Htb Hr]]] Hmp].
  unfold store. destruct (nth_error h mp) eqn:E; cbn [fst snd]; [|split; [apply grows_refl|exact I]].
  apply (store_invm n tb mp); [exact HI|lia|lia].
Qed.

Lemma clear_m_invm (n tb mp : nat) (ks : list key) :
  hoare n (InvM n tb mp) (clear_m tb ks) (fun _ => InvM n tb mp).
Proof.
  induction ks as [|k ks IH]; cbn [clear_m].
  - apply hoare_ret. auto.
  - eapply hoare_bind; [apply write_cell_invm|]. intros u. exact IH.
Qed.

Lemma alloc_invm (n tb : nat) (o : obj) :
  hoare n (Inv n tb) (alloc o) (fun mp => InvM n tb mp).
Proof.
  eapply hoare_post; [|apply hoare_alloc; intros h [Hn [rows [Htb _]]]; apply nth_error_lt in Htb; lia].
  intros mp h' [h [[Hn [rows [Htb Hr]]] [-> ->]]]. pose proof (nth_error_lt _ _ _ Htb).
  split; [split; [exact Hn|exists rows]|rewrite length_app; cbn [length]; lia].
  rewrite nth_error_app1 by lia. split; [exact Htb|exact Hr].
Qed.

(** Whatever the outcome (a result, the sentinel or a thrown error), the
    objects that existed before the call are left as they were, and a
    result board is a new object. *)
Lemma simulate_heap_spec (n : nat) (fr fc tr tc : Z) (s : Color) (src : nat) :
  hoare n (fun h => length h = n) (simulate_heap fr fc tr tc s src)
    (fun res _ => match fst (fst res) with Some t => (n <= t)%nat | None => True end).
Proof.
  unfold simulate_heap.
  eapply hoare_bind;
    [apply (hoare_pre _ _ (fun h => (n <= length h)%nat)); [intros h E; lia|apply copy_board_spec]|].
  intros tb.
  eapply hoare_bind; [apply hoare_readonly, readonly_read_cell_opt|]. intros [pl|];
    [|apply hoare_ret; intros; exact I].
  eapply hoare_bind; [apply hoare_readonly, readonly_load|]. intros [p| |];
    [|apply hoare_ret; intros; exact I ..].
  destruct (negb _); [apply hoare_ret; intros; exact I|].
  eapply hoare_bind; [apply alloc_invm|]. intros mp.
  eapply hoare_bind; [apply hoare_readonly, readonly_read_cell|]. intros dest.
  destruct (is_some dest); [apply hoare_ret; intros; exact I|].
  eapply hoare_bind; [apply write_cell_invm|]. intros ?.
  eapply hoare_bind; [apply write_cell_invm|]. intros ?.
  eapply hoare_bind; [apply hoare_readonly, readonly_read_cell|]. intros orig.
  eapply hoare_bind.
  { apply hoare_readonly. destruct orig as [l|]; [|apply readonly_ret].
    apply readonly_bind; [apply readonly_load|]. intros []; apply readonly_ret. }
  intros unp. cbv zeta.
  eapply hoare_bind with (Q := fun _ => InvM n tb mp).
  { destruct (_ && unp).
    - eapply hoare_bind; [apply store_mp_invm|]. intros ?.
      eapply hoare_bind; [apply hoare_readonly, readonly_view|]. intros b.
      destruct (processPromotion tr tc b) as [pr|]; [|apply hoare_throw].
      eapply hoare_bind; [apply clear_m_invm|]. intros ?. apply hoare_ret. auto.
    - apply hoare_ret. auto. }
  intros [sg leads].
  eapply hoare_bind; [apply hoare_readonly, readonly_view|]. intros b.
  destruct (checkCombinationsAroundPositionOnBoard tr tc b s) as [|c cs].
  - apply hoare_ret. intros h [[Hn _] _]. exact Hn.
  - destruct (combination_captures s b (c :: cs) sg) as [toRemove sg'].
    eapply hoare_bind; [apply clear_m_invm|]. intros ?.
    apply hoare_ret. intros h [[Hn _] _]. exact Hn.
Qed.

Lemma closedb_refs (h : heap) (l : nat) (o : obj) :
  closedb h = true -> nth_error h l = Some o -> refs_ok (length h) o = true.
Proof.
  unfold closedb. rewrite forallb_forall. intros H E. apply H. eapply nth_error_In, E.
Qed.

Lemma view_grows (h h' : heap) (src : nat) :
  closedb h = true -> (src < length h)%nat -> grows (length h) h h' ->
  forall r c, view h' src r c = view h src r c.
Proof.
  intros Hc Hs [_ G] r c. unfold view. rewrite (G src Hs).
  destruct (nth_error h src) as [o|] eqn:Eo; [|reflexivity].
  destruct o as [| |rows]; try reflexivity.
  pose proof (closedb_refs _ _ _ Hc Eo) as Ro. cbn [refs_ok] in Ro. rewrite forallb_forall in Ro.
  destruct (row_index rows r) as [rl|] eqn:Er; [|reflexivity].
  pose proof (Ro rl (row_index_In _ _ _ Er)) as Hrl. apply Nat.ltb_lt in Hrl.
  rewrite (G rl Hrl).
  destruct (nth_error h rl) as [o|] eqn:Erl; [|reflexivity].
  destruct o as [|cells|]; try reflexivity.
  pose proof (closedb_refs _ _ _ Hc Erl) as Rc. cbn [refs_ok] in Rc. rewrite forallb_forall in Rc.
  destruct (get_index cells c) as [pl|] eqn:Ec; [|reflexivity].
  pose proof (Rc (Some pl) (get_index_In _ _ _ Ec)) as Hpl. apply Nat.ltb_lt in Hpl.
  rewrite (G pl Hpl). reflexivity.
Qed.

(** An 8x8 board laid out in a heap: the board object at 0, row [r] at
    [1 + r], the piece of square [(r, c)] at [9 + 8 r + c]. *)
Definition heap_of_board (b : Board) : heap :=
  OBoard (seq 1 8)
  :: map (fun r => ORow (map (fun c => if is_some (b (Z.of_nat r) (Z.of_nat c))
                                       then Some (9 + 8 * r + c)%nat else None) (seq 0 8)))
         (seq 0 8)
  ++ flat_map (fun r => map (fun c => OPiece (match b (Z.of_nat r) (Z.of_nat c) with
                                              | Some p => p
                                              | None => W 0
                                              end)) (seq 0 8)) (seq 0 8).

Definition piece_eqb (p q : Piece) : bool :=
  Color_eqb (color p) (color q) && (number p =? number q) && Bool.eqb (promoted p) (promoted q).

Definition opt_piece_eqb (x y : option Piece) : bool :=
  match x, y with
  | Some p, Some q => piece_eqb p q
  | None, None => true
  | _, _ => false
  end.

(** The heap run and [simulateFullMove] give the same outcome, and the
    same pieces on the 64 squares. *)
Definition heap_agrees (fr fc tr tc : Z) (s : Color) (b : Board) : bool :=
  match snd (simulate_heap fr fc tr tc s 0 (heap_of_board b)),
        fst (simulate_heap fr fc tr tc s 0 (heap_of_board b)),
        simulateFullMove fr fc tr tc s b with
  | Some (Some t, Fin g1, l1), h', Some (mkSim (Some b') (Fin g2) l2) =>
    forallb (fun '(r, c) => opt_piece_eqb (view h' t r c) (b' r c)) squares
    && Qeq_bool g1 g2 && Bool.eqb l1 l2
  | Some (None, NInf, false), _, Some (mkSim None NInf false) => true
  | None, _, None => true
  | _, _, _ => false
  end.

Lemma heap_agrees_examples :
  heap_agrees 4 3 3 3 white cluster_board = true
  /\ heap_agrees 1 0 0 0 white promo_board = true
  /\ heap_agrees 4 3 3 3 black cluster_board = true
  /\ heap_agrees 4 3 4 3 white cluster_board = true
  /\ heap_agrees 4 3 9 3 white cluster_board = true.
Proof. vm_compute. repeat split. Qed.

End HeapModel.

(** C2: [simulateFullMove] never writes to the objects it is given.  On a
    heap in which every reference points into the heap, whatever the
    outcome of the call (a result, the sentinel or a thrown error), every
    object that existed before is unchanged, so every square of the source
    board shows the same piece (colour, number and promoted flag) as
    before; a result board is a new object. *)
Theorem simulate_heap_frame (fr fc tr tc : Z) (s : Color) (src : nat) (h : HeapModel.heap)
    (Hsrc : (src < length h)%nat) (Hc : HeapModel.closedb h = true) :
  (forall l, (l < length h)%nat ->
     nth_error (fst (HeapModel.simulate_heap fr fc tr tc s src h)) l = nth_error h l)
  /\ (forall r c, HeapModel.view (fst (HeapModel.simulate_heap fr fc tr tc s src h)) src r c
                  = HeapModel.view h src r c)
  /\ match snd (HeapModel.simulate_heap fr fc tr tc s src h) with
     | Some (Some t, _, _) => (length h <= t)%nat
     | _ => True
     end.
Proof.
  destruct (HeapModel.simulate_heap_spec (length h) fr fc tr tc s src h eq_refl) as [G R].
  split; [apply G|split; [apply HeapModel.view_grows; assumption|]].
  destruct (snd (HeapModel.simulate_heap fr fc tr tc s src h)) as [[[[t|] g] l]|]; auto.
Qed.

Lemma simulate_heap_frame_witness :
  (0 < length (HeapModel.heap_of_board cluster_board))%nat
  /\ HeapModel.closedb (HeapModel.heap_of_board cluster_board) = true
  /\ (forall r c,
        HeapModel.view (fst (HeapModel.simulate_heap 4 3 3 3 white 0
                               (HeapModel.heap_of_board cluster_board))) 0 r c
        = HeapModel.view (HeapModel.heap_of_board cluster_board) 0 r c).
Proof.
  assert (H1 : (0 < length (HeapModel.heap_of_board cluster_board))%nat) by (vm_compute; lia).
  assert (H2 : HeapModel.closedb (HeapModel.heap_of_board cluster_board) = true)
    by (vm_compute; reflexivity).
  split; [exact H1|split; [exact H2|]].
  exact (proj1 (proj2 (simulate_heap_frame 4 3 3 3 white 0 _ H1 H2))).
Defined.

(* ================================================================= *)
(** ** Further definitions: the initial board, [checkPromotion], [ZOBRIST] *)

(** The board seen from the other side: rotated by a half turn, with the
    colours of the pieces exchanged. *)
Definition swap_piece (p : Piece) : Piece := mkPiece (opponent (color p)) (number p) (promoted p).

Definition rotate_board (b : Board) : Board :=
  fun r c => option_map swap_piece (b (7 - r) (7 - c)).

Definition rotate_move (m : Move) : Move :=
  mkMove (7 - fromRow m) (7 - fromCol m) (7 - toRow m) (7 - toCol m) (swap_piece (piece m)).

Definition blackRow1 : list Z := [8; 7; 6; 5; 4; 3; 2; 1].

Definition blackRow2 : list Z := [1; 2; 3; 4; 5; 6; 7; 8].

Definition whiteRow1 : list Z := [8; 7; 6; 5; 4; 3; 2; 1].

Definition whiteRow2 : list Z := [1; 2; 3; 4; 5; 6; 7; 8].

(** [initializeBoardData()]: the board it stores in [this.board]. *)
Definition initializeBoardData : Board :=
  fold_left (fun b col =>
    let i := Z.to_nat col in
    let b := set_cell b 0 col (Some (mkPiece black (nth i blackRow1 0) false)) in
    let b := set_cell b 1 col (Some (mkPiece black (nth i blackRow2 0) false)) in
    let b := set_cell b 6 col (Some (mkPiece white (nth i whiteRow1 0) false)) in
    set_cell b 7 col (Some (mkPiece white (nth i whiteRow2 0) false)))
    (zrange 0 7) empty_board.

(** [checkPromotion(row, col)] on [this.board]: the result and the board
    after it.  [p.promoted = true] mutates the piece object; the cells of a
    hydrated board hold distinct objects, so only the square [(row, col)]
    sees it.  [this.board[row]] is [undefined] off the rows: TypeError. *)
Definition checkPromotion (board : Board) (row col : Z) : option (bool * Board) :=
  if negb ((0 <=? row) && (row <? 8)) then None
  else
    match board row col with
    | None => Some (false, board)
    | Some p =>
      if promoted p then Some (false, board)
      else if (Color_eqb (color p) white && (row =? 0)) || (Color_eqb (color p) black && (row =? 7))
      then Some (true, set_cell board row col (Some (promote p)))
      else Some (false, board)
    end.

Definition Piece_eq_dec (p q : Piece) : {p = q} + {p <> q}.
Proof. decide equality; [apply Bool.bool_dec|apply Z.eq_dec|decide equality]. Defined.

Definition opt_piece_eq_dec (x y : option Piece) : {x = y} + {x <> y}.
Proof. decide equality. apply Piece_eq_dec. Defined.

(** [random64()] from the two [Math.random()] draws it makes, [low] first. *)
Definition random64 (u1 u2 : Q) : Z :=
  let low := Qfloor (u1 * inject_Z (2 ^ 32)) in
  let high := Qfloor (u2 * inject_Z (2 ^ 32)) in
  Z.lor (Z.shiftl high 32) low.

(** [ZOBRIST] from the sequence [rnd] of [Math.random()] results: entry
    [(piece, square)] is the [64 * piece + square]-th call of [random64],
    [blackToMove] the 1025th. *)
Definition zobrist_init (rnd : nat -> Q) : (Z -> Z -> Z) * Z :=
  (fun pi si => let k := Z.to_nat (64 * pi + si) in random64 (rnd (2 * k)%nat) (rnd (2 * k + 1)%nat),
   random64 (rnd 2048%nat) (rnd 2049%nat)).

(** The entries a search leaves in the table, compared with those it found. *)
(** [sublist l l']: [l] is [l'] with some entries left out, in their order. *)
Inductive sublist {A : Type} : list A -> list A -> Prop :=
  | sublist_nil : sublist [] []
  | sublist_skip (x : A) (l l' : list A) : sublist l l' -> sublist l (x :: l')
  | sublist_keep (x : A) (l l' : list A) : sublist l l' -> sublist (x :: l) (x :: l').

Definition tt_within (d : nat) (t t' : TT) : Prop :=
  forall k, t' k = t k \/ exists e, t' k = Some e /\ (1 <= tdepth e <= d)%nat.

(* ================================================================= *)
(** ** Lemmas on the rules engine, the hashing and the search *)

Lemma valid_moves_iff (r c : Z) (b : Board) (k : Color) (tr tc : Z) :
  0 <= c < 8 ->
  In (tr, tc) (getValidMovesOnBoard r c b k) <->
  tr = r + direction_of k /\ 0 <= tr < 8 /\ 0 <= tc < 8 /\ b tr tc = None
  /\ (tc = c \/ tc = c - 1 \/ tc = c + 1).
Proof.
  intros Hc. split; [apply getValidMovesOnBoard_spec, Hc|].
  intros [-> [Htr [Htc [Hb Hcol]]]]. unfold getValidMovesOnBoard.
  replace ((0 <=? r + direction_of k) && (r + direction_of k <? 8)) with true
    by (symmetry; apply andb_true_iff; split; [apply Z.leb_le|apply Z.ltb_lt]; lia).
  apply in_or_app. destruct Hcol as [E|[E|E]]; subst tc.
  - left. rewrite Hb. left. reflexivity.
  - right. apply in_flat_map. exists (-1). split; [cbn; tauto|].
    replace (c + -1) with (c - 1) by lia. rewrite Hb. cbn [is_some negb]. rewrite andb_true_r.
    replace ((0 <=? c - 1) && (c - 1 <? 8)) with true
      by (symmetry; apply andb_true_iff; split; [apply Z.leb_le|apply Z.ltb_lt]; lia).
    left. reflexivity.
  - right. apply in_flat_map. exists 1. split; [cbn; tauto|].
    rewrite Hb. cbn [is_some negb]. rewrite andb_true_r.
    replace ((0 <=? c + 1) && (c + 1 <? 8)) with true
      by (symmetry; apply andb_true_iff; split; [apply Z.leb_le|apply Z.ltb_lt]; lia).
    left. reflexivity.
Qed.

Lemma valid_moves_NoDup (r c : Z) (b : Board) (k : Color) :
  NoDup (getValidMovesOnBoard r c b k).
Proof.
  unfold getValidMovesOnBoard. cbn [flat_map app].
  destruct (_ && _); [|constructor].
  destruct (is_some (b _ c)), (_ && _ && _), (_ && _ && _); cbn [app];
    repeat (constructor; [cbn; intros H; repeat destruct H as [H|H]; try injection H; lia|]);
    constructor.
Qed.

(** Membership in the move list of a player, square by square. *)
Lemma generated_iff (k : Color) (b : Board) (m : Move) :
  In m (getAllPossibleMovesForPlayerOnBoard k b) <->
  in_grid (fromRow m) (fromCol m) = true /\ b (fromRow m) (fromCol m) = Some (piece m)
  /\ color (piece m) = k /\ toRow m = fromRow m + direction_of k
  /\ 0 <= toRow m < 8 /\ 0 <= toCol m < 8 /\ b (toRow m) (toCol m) = None
  /\ (toCol m = fromCol m \/ toCol m = fromCol m - 1 \/ toCol m = fromCol m + 1).
Proof.
  split.
  - intros H. destruct (generated_move_spec k b m H) as [Hf [Hc [Hg [E1 [E2 [E3 [E4 E5]]]]]]].
    unfold square in Hf, E4. rewrite Hg in Hf.
    assert (Hg2 : in_grid (toRow m) (toCol m) = true) by (apply in_grid_spec; lia).
    rewrite Hg2 in E4. tauto.
  - intros [Hg [Hf [Hc [E1 [E2 [E3 [E4 E5]]]]]]].
    unfold getAllPossibleMovesForPlayerOnBoard. apply in_flat_map.
    exists (fromRow m, fromCol m). split; [apply In_squares, Hg|].
    rewrite Hf, Hc, Color_eqb_refl. unfold moves_from. apply in_map_iff.
    exists (toRow m, toCol m). split; [destruct m; reflexivity|].
    apply in_grid_spec in Hg. apply valid_moves_iff; [lia|]. tauto.
Qed.

Lemma rotate_board_some (b : Board) (r c : Z) (p : Piece) :
  rotate_board b r c = Some p <-> b (7 - r) (7 - c) = Some (swap_piece p).
Proof.
  unfold rotate_board. destruct (b (7 - r) (7 - c)) as [q|]; cbn; [|split; discriminate].
  destruct p as [[] pn pp], q as [[] qn qp]; unfold swap_piece; cbn;
    split; intros E; inversion E; subst; reflexivity.
Qed.

Lemma rotate_board_none (b : Board) (r c : Z) :
  rotate_board b r c = None <-> b (7 - r) (7 - c) = None.
Proof. unfold rotate_board. destruct (b (7 - r) (7 - c)); cbn; split; congruence. Qed.

Lemma opponent_direction (k : Color) : direction_of (opponent k) = - direction_of k.
Proof. destruct k; reflexivity. Qed.

Lemma swap_piece_color (p : Piece) (k : Color) : color (swap_piece p) = k <-> color p = opponent k.
Proof. destruct p as [[] n pr], k; cbn; split; congruence. Qed.

Lemma in_grid_rot (r c : Z) : in_grid (7 - r) (7 - c) = in_grid r c.
Proof.
  destruct (in_grid r c) eqn:E.
  - apply in_grid_spec in E. apply in_grid_spec. lia.
  - destruct (in_grid (7 - r) (7 - c)) eqn:E'; [|reflexivity].
    apply in_grid_spec in E'. rewrite <- E. symmetry. apply in_grid_spec. lia.
Qed.

Lemma toInt32_range (x : Z) : -2^31 <= toInt32 x < 2^31.
Proof.
  unfold toInt32. pose proof (Z.mod_pos_bound x (2^32) ltac:(lia)).
  destruct (Z.leb_spec (2^31) (x mod 2^32)); lia.
Qed.

Lemma toInt32_id (y : Z) : -2^31 <= y < 2^31 -> toInt32 y = y.
Proof.
  intros H. unfold toInt32. destruct (Z.leb_spec 0 y).
  - rewrite Z.mod_small by lia. destruct (Z.leb_spec (2^31) y); lia.
  - replace (y mod 2^32) with (y + 2^32).
    + destruct (Z.leb_spec (2^31) (y + 2^32)); lia.
    + apply Z.mod_unique with (-1); lia.
Qed.

Lemma land_pow2_zero (x j : Z) : 0 <= j -> Z.land x (2^j) = 0 <-> Z.testbit x j = false.
Proof.
  intros Hj. split.
  - intros E. pose proof (Z.land_spec x (2^j) j) as S. rewrite E, Z.bits_0, Z.pow2_bits_true in S by lia.
    rewrite andb_true_r in S. congruence.
  - intros Hb. apply Z.bits_inj_0. intros n. rewrite Z.land_spec.
    destruct (Z.eq_dec n j) as [->|Hn]; [rewrite Hb; reflexivity|].
    destruct (Z.ltb_spec n 0); [rewrite !Z.testbit_neg_r by lia; reflexivity|].
    rewrite Z.pow2_bits_false by lia. apply andb_false_r.
Qed.

Lemma neg_bits_high (x k : Z) : -2^31 <= x < 0 -> 31 <= k -> Z.testbit x k = true.
Proof.
  intros Hx Hk. replace x with (Z.lnot (Z.lnot x)) by apply Z.lnot_involutive.
  rewrite Z.lnot_spec by lia. apply negb_true_iff.
  apply Z.bits_above_log2; [unfold Z.lnot; lia|].
  destruct (Z.eq_dec (Z.lnot x) 0) as [E|E]; [rewrite E; cbn; lia|].
  assert (Z.log2 (Z.lnot x) < 31); [|lia].
  apply Z.log2_lt_pow2; unfold Z.lnot in *; lia.
Qed.

Lemma pos_bits_high (x k : Z) : 0 <= x < 2^31 -> 31 <= k -> Z.testbit x k = false.
Proof.
  intros Hx Hk. destruct (Z.eq_dec x 0) as [->|E]; [apply Z.bits_0|].
  apply Z.bits_above_log2; [lia|].
  assert (Z.log2 x < 31); [apply Z.log2_lt_pow2; lia|lia].
Qed.

(** The two bit tests of [findValidCombinations] read the same bit. *)
Lemma bit_tests_agree (m i : Z) :
  0 <= i -> (band32 m (shl32 1 i) =? 0) = (band32 (sar32 m i) 1 =? 0).
Proof.
  intros Hi. set (x := toInt32 m). set (j := i mod 32).
  assert (Hx : -2^31 <= x < 2^31) by apply toInt32_range.
  assert (Hj : 0 <= j < 32) by (apply Z.mod_pos_bound; lia).
  assert (R : (band32 (sar32 m i) 1 =? 0) = negb (Z.testbit x j)).
  { unfold band32, sar32. fold x j.
    rewrite (toInt32_id (Z.shiftr x j)).
    2:{ rewrite Z.shiftr_div_pow2 by lia.
        assert (0 < 2^j) by (apply Z.pow_pos_nonneg; lia).
        assert (2^0 <= 2^j) by (apply Z.pow_le_mono_r; lia).
        split.
        - apply Z.div_le_lower_bound; [lia|]. nia.
        - apply Z.div_lt_upper_bound; [lia|]. nia. }
    change (toInt32 1) with 1. change 1 with (Z.ones 1) at 1. rewrite Z.land_ones by lia.
    rewrite Z.shiftr_div_pow2, Z.pow_1_r by lia.
    pose proof (Z.testbit_spec' x j ltac:(lia)) as S. rewrite <- S.
    destruct (Z.testbit x j); reflexivity. }
  rewrite R. unfold band32, shl32. fold x. change (toInt32 1) with 1.
  rewrite Z.shiftl_1_l. fold j.
  rewrite (toInt32_id (toInt32 (2^j))) by apply toInt32_range.
  destruct (Z.eq_dec j 31) as [E|E].
  - rewrite E. change (toInt32 (2^31)) with (- 2^31).
    destruct (Z.testbit x 31) eqn:B; cbn [negb].
    + apply Z.eqb_neq. intros H0.
      pose proof (Z.land_spec x (- 2^31) 31) as S. rewrite H0, Z.bits_0, B in S.
      change (Z.testbit (- 2^31) 31) with true in S. discriminate.
    + apply Z.eqb_eq. apply Z.bits_inj_0. intros n. rewrite Z.land_spec.
      destruct (Z.ltb_spec n 0); [rewrite Z.testbit_neg_r by lia; reflexivity|].
      destruct (Z.ltb_spec n 31).
      * replace (- 2^31) with (Z.lnot (Z.ones 31)) by reflexivity.
        rewrite Z.lnot_spec, Z.ones_spec_low by lia. apply andb_false_r.
      * destruct (Z.ltb_spec x 0).
        -- rewrite (neg_bits_high x 31) in B by lia. discriminate.
        -- rewrite pos_bits_high by lia. reflexivity.
  - rewrite toInt32_id.
    2:{ assert (2^0 <= 2^j) by (apply Z.pow_le_mono_r; lia).
        assert (2^j <= 2^30) by (apply Z.pow_le_mono_r; lia). lia. }
    destruct (Z.testbit x j) eqn:B; cbn [negb].
    + apply Z.eqb_neq. rewrite land_pow2_zero by lia. congruence.
    + apply Z.eqb_eq. apply land_pow2_zero; [lia|exact B].
Qed.

Lemma filter_combine_length {A : Type} (f : nat -> bool) (ps : list A) (k : nat) :
  length (filter (fun '(i, _) => f i) (combine (seq k (length ps)) ps))
  = length (filter f (seq k (length ps))).
Proof.
  revert k. induction ps as [|p ps IH]; intros k; [reflexivity|].
  cbn [length seq combine filter]. destruct (f k); cbn [length]; rewrite IH; reflexivity.
Qed.

Lemma select_length (m : Z) (ps : list PieceData) :
  Z.of_nat (length (select m ps)) = bit_count m (length ps).
Proof.
  unfold select, bit_count. rewrite length_map. f_equal.
  rewrite <- (filter_combine_length _ ps 0). f_equal. apply filter_ext.
  intros [i p]. rewrite bit_tests_agree by lia. reflexivity.
Qed.

Lemma select_incl (m : Z) (ps : list PieceData) : incl (select m ps) ps.
Proof.
  intros x Hx. unfold select in Hx. apply in_map_iff in Hx.
  destruct Hx as [[i y] [E Hy]]. cbn [snd] in E. subst y.
  apply filter_In in Hy. exact (in_combine_r _ _ _ _ (proj1 Hy)).
Qed.

Lemma filter_combine_sublist {A : Type} (f : nat -> bool) (ps : list A) (k : nat) :
  sublist (map snd (filter (fun '(i, _) => f i) (combine (seq k (length ps)) ps))) ps.
Proof.
  revert k. induction ps as [|p ps IH]; intros k; [constructor|].
  cbn [length seq combine filter]. destruct (f k); cbn [map snd].
  - apply sublist_keep, IH.
  - apply sublist_skip, IH.
Qed.

Lemma select_sublist (m : Z) (ps : list PieceData) : sublist (select m ps) ps.
Proof.
  unfold select.
  exact (filter_combine_sublist (fun i => negb (band32 m (shl32 1 (Z.of_nat i)) =? 0)) ps 0).
Qed.

Lemma findValidCombinations_sublist (ps c : list PieceData) :
  In c (findValidCombinations ps) -> sublist c ps.
Proof.
  unfold findValidCombinations. rewrite in_flat_map. intros [m [_ H]].
  destruct (_ || _); [destruct H|].
  match type of H with In c (if ?g then _ else _) => destruct g end; [|destruct H].
  destruct H as [<-|[]]. apply select_sublist.
Qed.

Lemma findValidCombinations_sound_aux (ps c : list PieceData) :
  In c (findValidCombinations ps) ->
  (2 <= length c <= 8)%nat /\ sum_numbers c = 10 /\ has_color white c = true
  /\ has_color black c = true /\ areConnectedOptimized c = true /\ incl c ps.
Proof.
  unfold findValidCombinations. rewrite in_flat_map. intros [m [_ H]].
  destruct ((bit_count m (length ps) >? 8) || (bit_count m (length ps) <? 2)) eqn:Hb;
    [destruct H|].
  rewrite orb_false_iff, Z.gtb_ltb, Z.ltb_ge, Z.ltb_ge in Hb.
  rewrite <- select_length in Hb.
  match type of H with In c (if ?g then _ else _) => destruct g eqn:Hg end; [|destruct H].
  destruct H as [<-|[]].
  rewrite !andb_true_iff, Z.eqb_eq in Hg.
  split; [lia|]. split; [tauto|]. split; [tauto|]. split; [tauto|]. split; [tauto|].
  apply select_incl.
Qed.

Lemma dirs8_spec (dR dC : Z) :
  In (dR, dC) dirs8 -> -1 <= dR <= 1 /\ -1 <= dC <= 1 /\ (dR <> 0 \/ dC <> 0).
Proof.
  cbn [dirs8 In]. intros H.
  repeat (destruct H as [H|H]; [inversion H; subst; lia|]). destruct H.
Qed.

Lemma bfs_expand_isolated (pS : list key) (cur : key) (vS q : list key) :
  (forall dR dC, In (dR, dC) dirs8 -> mem (fst cur + dR, snd cur + dC) pS = false) ->
  bfs_expand pS cur vS q = (vS, q).
Proof.
  unfold bfs_expand. generalize dirs8 as ds. intros ds H.
  induction ds as [|[dR dC] ds IH]; [reflexivity|]. cbn [fold_left].
  rewrite (H dR dC (or_introl eq_refl)). cbn [andb].
  apply IH. intros; apply H; right; assumption.
Qed.

Lemma areConnected_pair (a b : PieceData) :
  areConnectedOptimized [a; b] = adjb (pkey a) (pkey b).
Proof.
  set (t := pkey a). set (d := (row b - row a, col b - col a)).
  assert (Ea : pkey a = sh t (0, 0)) by (unfold t, sh, pkey; cbn [fst snd]; f_equal; lia).
  assert (Eb : pkey b = sh t d) by (unfold t, d, sh, pkey; cbn [fst snd]; f_equal; lia).
  unfold areConnectedOptimized. cbn [map length].
  rewrite Ea, Eb.
  replace (adjb t (sh t d)) with (adjb (sh t (0, 0)) (sh t d))
    by (f_equal; unfold sh; destruct t; cbn [fst snd]; f_equal; lia).
  rewrite adjb_sh.
  change [sh t (0, 0); sh t d] with (map (sh t) [(0, 0); d]).
  change [sh t (0, 0)] with (map (sh t) [(0, 0)]).
  rewrite bfs_sh, length_map. clearbody d. destruct d as [x y].
  destruct (Z.le_gt_cases (Z.abs x) 1) as [Hx|Hx];
  [destruct (Z.le_gt_cases (Z.abs y) 1) as [Hy|Hy]|].
  - assert (x = -1 \/ x = 0 \/ x = 1) as [E|[E|E]] by lia; subst x;
    assert (y = -1 \/ y = 0 \/ y = 1) as [E|[E|E]] by lia; subst y; vm_compute; reflexivity.
  - cbn [bfs]. rewrite bfs_expand_isolated.
    + cbn [bfs length]. unfold adjb. cbn [fst snd].
      replace (Z.abs (0 - y) <=? 1) with false by (symmetry; apply Z.leb_gt; lia).
      rewrite andb_false_r. reflexivity.
    + intros dR dC Hd. apply dirs8_spec in Hd. unfold mem, key_eqb. cbn [existsb fst snd].
      destruct (Z.eqb_spec (0 + dR) 0), (Z.eqb_spec (0 + dC) 0),
               (Z.eqb_spec (0 + dR) x), (Z.eqb_spec (0 + dC) y);
        cbn [andb orb]; try reflexivity; exfalso; lia.
  - cbn [bfs]. rewrite bfs_expand_isolated.
    + cbn [bfs length]. unfold adjb. cbn [fst snd].
      replace (Z.abs (0 - x) <=? 1) with false by (symmetry; apply Z.leb_gt; lia).
      rewrite andb_false_r, andb_false_l. reflexivity.
    + intros dR dC Hd. apply dirs8_spec in Hd. unfold mem, key_eqb. cbn [existsb fst snd].
      destruct (Z.eqb_spec (0 + dR) 0), (Z.eqb_spec (0 + dC) 0),
               (Z.eqb_spec (0 + dR) x), (Z.eqb_spec (0 + dC) y);
        cbn [andb orb]; try reflexivity; exfalso; lia.
Qed.

Lemma nearby_pieces_window (r c : Z) (b : Board) (pd : PieceData) :
  In pd (nearby_pieces r c b) -> In (row pd) (window r) /\ In (col pd) (window c).
Proof.
  unfold nearby_pieces. rewrite in_flat_map. intros [r' [Hr H]].
  rewrite in_flat_map in H. destruct H as [c' [Hc H]].
  destruct (b r' c') as [p|]; [|destruct H].
  destruct H as [<-|[]]. cbn [row col]. tauto.
Qed.

Lemma checkCombinations_local_aux (r0 c0 : Z) (b : Board) (s : Color) (c : list PieceData) (pd : PieceData) :
  In c (checkCombinationsAroundPositionOnBoard r0 c0 b s) -> In pd c ->
  b (row pd) (col pd) = Some (pdpiece pd) /\ 0 <= row pd <= 7 /\ 0 <= col pd <= 7
  /\ Z.abs (row pd - r0) <= 3 /\ Z.abs (col pd - c0) <= 3.
Proof.
  unfold checkCombinationsAroundPositionOnBoard.
  destruct (scan_colors (nearby_pieces r0 c0 b) false false) as [hw hb].
  destruct (negb hw || negb hb); [intros []|].
  intros Hc Hp. apply findValidCombinations_sound_aux in Hc.
  destruct Hc as (_ & _ & _ & _ & _ & Hi). apply Hi in Hp.
  split; [exact (nearby_pieces_lookup _ _ _ _ Hp)|].
  apply nearby_pieces_window in Hp. unfold window in Hp. rewrite !In_zrange in Hp. lia.
Qed.

Lemma init_off_grid (r c : Z) : in_grid r c = false -> initializeBoardData r c = None.
Proof.
  intros H. unfold initializeBoardData.
  assert (G : forall l b, (forall x, In x l -> 0 <= x < 8) -> b r c = None ->
    fold_left (fun b col =>
      let i := Z.to_nat col in
      let b := set_cell b 0 col (Some (mkPiece black (nth i blackRow1 0) false)) in
      let b := set_cell b 1 col (Some (mkPiece black (nth i blackRow2 0) false)) in
      let b := set_cell b 6 col (Some (mkPiece white (nth i whiteRow1 0) false)) in
      set_cell b 7 col (Some (mkPiece white (nth i whiteRow2 0) false))) l b r c = None).
  { induction l as [|x l IH]; intros b Hl Hb; [exact Hb|]. cbn [fold_left]. apply IH.
    - intros y Hy. apply Hl. right. exact Hy.
    - assert (Hx : 0 <= x < 8) by (apply Hl; left; reflexivity).
      assert (Hrc : forall r', 0 <= r' < 8 -> (r =? r') && (c =? x) = false).
      { intros r' Hr'. destruct (Z.eqb_spec r r'), (Z.eqb_spec c x); try reflexivity.
        subst. exfalso. assert (in_grid r' x = true) by (apply in_grid_spec; lia). congruence. }
      unfold set_cell. rewrite !Hrc by lia. exact Hb. }
  apply G; [intros x Hx; apply In_zrange in Hx; lia|reflexivity].
Qed.

Lemma init_table :
  forallb (fun '(r, c) =>
    if opt_piece_eq_dec (rotate_board initializeBoardData r c) (initializeBoardData r c)
    then true else false) squares = true.
Proof. vm_compute. reflexivity. Qed.

Lemma initial_board_rotation (r c : Z) :
  rotate_board initializeBoardData r c = initializeBoardData r c.
Proof.
  destruct (in_grid r c) eqn:E.
  - pose proof init_table as T. rewrite forallb_forall in T.
    specialize (T (r, c) (proj2 (In_squares r c) E)). cbn beta iota in T.
    destruct (opt_piece_eq_dec _ _); [assumption|discriminate].
  - rewrite init_off_grid by exact E. apply rotate_board_none.
    apply init_off_grid. rewrite in_grid_rot. exact E.
Qed.

Lemma moves_rotate (board : Board) (playerColor : Color) (m : Move) :
  In m (getAllPossibleMovesForPlayer (rotate_board board) (opponent playerColor))
  <-> In (rotate_move m) (getAllPossibleMovesForPlayer board playerColor).
Proof.
  rewrite !getAllPossibleMoves_same, !generated_iff.
  destruct m as [fr fc tr tc p]. unfold rotate_move. cbn [fromRow fromCol toRow toCol piece].
  rewrite rotate_board_some, rotate_board_none, opponent_direction, in_grid_rot, swap_piece_color.
  split; intros (H1 & H2 & H3 & H4 & H5 & H6 & H7 & H8);
    repeat split; try assumption; try lia.
Qed.

Lemma checkPromotion_aux (b : Board) (r c : Z) (x : bool) (b' : Board) :
  checkPromotion b r c = Some (x, b') ->
  checkPromotion b' r c = Some (false, b')
  /\ (forall r' c', r' <> r \/ c' <> c -> b' r' c' = b r' c')
  /\ (x = false -> b' = b)
  /\ (x = true -> exists p, b r c = Some p /\ promoted p = false /\ b' r c = Some (promote p)).
Proof.
  unfold checkPromotion. destruct (negb ((0 <=? r) && (r <? 8))) eqn:Hr; [discriminate|].
  destruct (b r c) as [p|] eqn:Ep.
  2:{ intros E. inversion E; subst. rewrite Ep. repeat split; try discriminate; auto. }
  destruct (promoted p) eqn:Hp.
  { intros E. inversion E; subst. rewrite Ep, Hp. repeat split; try discriminate; auto. }
  destruct ((Color_eqb (color p) white && (r =? 0)) || (Color_eqb (color p) black && (r =? 7))) eqn:Hc.
  - intros E. inversion E; subst. unfold set_cell at 1. rewrite !Z.eqb_refl. cbn [andb promote promoted].
    repeat split.
    + intros r' c' H. unfold set_cell.
      destruct (Z.eqb_spec r' r), (Z.eqb_spec c' c); try reflexivity; lia.
    + discriminate.
    + intros _. exists p. unfold set_cell. rewrite !Z.eqb_refl. auto.
  - intros E. inversion E; subst. rewrite Ep, Hp, Hc. repeat split; try discriminate; auto.
Qed.

Lemma floor_scaled (u : Q) (N : Z) :
  (0 <= u < 1)%Q -> 0 < N -> 0 <= Qfloor (u * inject_Z N) < N.
Proof.
  intros [H0 H1] HN.
  pose proof (Qfloor_le (u * inject_Z N)) as A.
  pose proof (Qlt_floor (u * inject_Z N)) as B.
  assert (Hpos : (0 < inject_Z N)%Q) by (change 0%Q with (inject_Z 0); rewrite <- Zlt_Qlt; lia).
  assert (Hlt : (u * inject_Z N < inject_Z N)%Q).
  { rewrite <- (Qmult_1_l (inject_Z N)) at 2. apply Qmult_lt_r; assumption. }
  assert (Hge : (0 <= u * inject_Z N)%Q)
    by (apply Qmult_le_0_compat; [exact H0|apply Qlt_le_weak, Hpos]).
  set (x := (u * inject_Z N)%Q) in *.
  assert (C1 : Qfloor x < N) by (rewrite Zlt_Qlt; apply (Qle_lt_trans _ x); assumption).
  assert (C2 : 0 < Qfloor x + 1) by (rewrite Zlt_Qlt; apply (Qle_lt_trans _ x); [exact Hge|exact B]).
  lia.
Qed.

Lemma lor_shift_low (h l : Z) :
  0 <= l < 2 ^ 32 -> Z.lor (Z.shiftl h 32) l = h * 2 ^ 32 + l.
Proof.
  intros Hl. rewrite Z.shiftl_mul_pow2 by lia.
  assert (D : Z.land (h * 2 ^ 32) l = 0).
  { apply Z.bits_inj_0. intros n. rewrite Z.land_spec.
    destruct (Z.ltb_spec n 0); [rewrite Z.testbit_neg_r by lia; reflexivity|].
    destruct (Z.ltb_spec n 32).
    - rewrite <- Z.shiftl_mul_pow2 by lia. rewrite Z.shiftl_spec_low by lia. reflexivity.
    - destruct (Z.eq_dec l 0) as [->|E]; [rewrite Z.bits_0; apply andb_false_r|].
      rewrite (Z.bits_above_log2 l n); [apply andb_false_r|lia|].
      assert (Z.log2 l < 32) by (apply Z.log2_lt_pow2; lia). lia. }
  rewrite <- Z.lxor_lor by exact D. rewrite <- Z.add_nocarry_lxor by exact D. reflexivity.
Qed.

Lemma random64_spec_aux (u1 u2 : Q) :
  (0 <= u1 < 1)%Q -> (0 <= u2 < 1)%Q ->
  0 <= random64 u1 u2 < 2 ^ 64
  /\ Z.land (random64 u1 u2) (Z.ones 32) = Qfloor (u1 * inject_Z (2 ^ 32))
  /\ Z.shiftr (random64 u1 u2) 32 = Qfloor (u2 * inject_Z (2 ^ 32)).
Proof.
  intros H1 H2. unfold random64.
  pose proof (floor_scaled u1 (2 ^ 32) H1 ltac:(lia)) as L.
  pose proof (floor_scaled u2 (2 ^ 32) H2 ltac:(lia)) as Hh.
  set (low := Qfloor (u1 * inject_Z (2 ^ 32))) in *.
  set (high := Qfloor (u2 * inject_Z (2 ^ 32))) in *.
  rewrite lor_shift_low by exact L.
  split; [lia|]. split.
  - rewrite Z.land_ones by lia. rewrite Z.add_comm, Z.mod_add by lia. apply Z.mod_small; exact L.
  - rewrite Z.shiftr_div_pow2 by lia. rewrite Z.add_comm, Z.div_add by lia.
    rewrite Z.div_small by exact L. reflexivity.
Qed.

Lemma lxor_u64 (a b : Z) : 0 <= a < 2 ^ 64 -> 0 <= b < 2 ^ 64 -> 0 <= Z.lxor a b < 2 ^ 64.
Proof.
  intros Ha Hb. split; [apply Z.lxor_nonneg; lia|].
  destruct (Z.eq_dec (Z.lxor a b) 0) as [->|E]; [lia|].
  assert (Hx : 0 <= Z.lxor a b) by (apply Z.lxor_nonneg; lia).
  assert (La : Z.log2 a < 64)
    by (destruct (Z.eq_dec a 0) as [->|]; [cbn; lia|apply Z.log2_lt_pow2; lia]).
  assert (Lb : Z.log2 b < 64)
    by (destruct (Z.eq_dec b 0) as [->|]; [cbn; lia|apply Z.log2_lt_pow2; lia]).
  pose proof (Z.log2_lxor a b ltac:(lia) ltac:(lia)) as Lx.
  apply Z.log2_lt_pow2; lia.
Qed.

Lemma zobrist_entry_none (table : Z -> Z -> Z) (pi si : Z) :
  0 <= si < 64 -> ~ (0 <= pi < 16) -> zobrist_entry table pi si = None.
Proof.
  intros Hs Hp. unfold zobrist_entry.
  replace ((0 <=? pi) && (pi <? 16) && (0 <=? si) && (si <? 64)) with false; [reflexivity|].
  symmetry. apply not_true_iff_false. rewrite !andb_true_iff, !Z.leb_le, !Z.ltb_lt. lia.
Qed.

Lemma zfold_none_iff (table : Z -> Z -> Z) (b : Board) (l : list (Z * Z)) (h : Z) :
  (forall r c, In (r, c) l -> in_grid r c = true) ->
  fold_left (zobrist_step table b) l (Some h) = None
  <-> exists r c p, In (r, c) l /\ b r c = Some p /\ ~ (0 <= getPieceIndex p < 16).
Proof.
  revert h. induction l as [|[r c] l IH]; intros h Hl; cbn [fold_left].
  - split; [discriminate|]. intros (r & c & p & [] & _).
  - assert (Hg : 0 <= r < 8 /\ 0 <= c < 8) by (apply in_grid_spec, Hl; left; reflexivity).
    assert (Hl' : forall r' c', In (r', c') l -> in_grid r' c' = true)
      by (intros; apply Hl; right; assumption).
    cbn [zobrist_step]. destruct (b r c) as [p|] eqn:E.
    + destruct (Z.le_gt_cases 0 (getPieceIndex p)) as [P0|P0];
      [destruct (Z.lt_ge_cases (getPieceIndex p) 16) as [P1|P1]|].
      * rewrite zobrist_entry_some by lia. cbn [option_map]. rewrite IH by exact Hl'.
        split.
        -- intros (r' & c' & p' & Hin & Hb & Hn). exists r', c', p'. split; [right; exact Hin|auto].
        -- intros (r' & c' & p' & [Eq|Hin] & Hb & Hn).
           ++ inversion Eq; subst r' c'. rewrite E in Hb. inversion Hb; subst p'. lia.
           ++ exists r', c', p'. auto.
      * rewrite zobrist_entry_none by lia. cbn [option_map]. rewrite zfold_none.
        split; [intros _|reflexivity]. exists r, c, p. split; [left; reflexivity|]. split; [exact E|lia].
      * rewrite zobrist_entry_none by lia. cbn [option_map]. rewrite zfold_none.
        split; [intros _|reflexivity]. exists r, c, p. split; [left; reflexivity|]. split; [exact E|lia].
    + rewrite IH by exact Hl'. split.
      * intros (r' & c' & p' & Hin & Hb & Hn). exists r', c', p'. split; [right; exact Hin|auto].
      * intros (r' & c' & p' & [Eq|Hin] & Hb & Hn).
        -- inversion Eq; subst r' c'. congruence.
        -- exists r', c', p'. auto.
Qed.

Lemma calculateZobristKey_none (table : Z -> Z -> Z) (btm : Z) (b : Board) (k : Color) :
  calculateZobristKey table btm b k = None
  <-> exists r c p, in_grid r c = true /\ b r c = Some p /\ ~ (0 <= getPieceIndex p < 16).
Proof.
  unfold calculateZobristKey.
  transitivity (fold_left (zobrist_step table b) squares (Some 0) = None).
  - destruct (fold_left _ squares (Some 0)); split; congruence.
  - rewrite zfold_none_iff by (intros r c; apply In_squares).
    split; intros (r & c & p & H1 & H2 & H3); exists r, c, p; rewrite In_squares in *; auto.
Qed.

Section Keys64.
Variable table : Z -> Z -> Z.
Variable btm : Z.
Hypothesis table_u64 : forall pi si, 0 <= pi < 16 -> 0 <= si < 64 -> 0 <= table pi si < 2 ^ 64.
Hypothesis btm_u64 : 0 <= btm < 2 ^ 64.
Lemma zobrist_entry_u64 (pi si z : Z) : zobrist_entry table pi si = Some z -> 0 <= z < 2 ^ 64.
Proof.
  unfold zobrist_entry. destruct (_ && _) eqn:E; [|discriminate].
  rewrite !andb_true_iff, !Z.leb_le, !Z.ltb_lt in E. intros H. inversion H; subst.
  apply table_u64; lia.
Qed.
Lemma zfold_u64 (b : Board) (l : list (Z * Z)) (h h' : Z) :
  0 <= h < 2 ^ 64 -> fold_left (zobrist_step table b) l (Some h) = Some h' -> 0 <= h' < 2 ^ 64.
Proof.
  revert h. induction l as [|[r c] l IH]; intros h Hh; cbn [fold_left].
  - intros E. inversion E; subst. exact Hh.
  - cbn [zobrist_step]. destruct (b r c) as [p|]; [|apply IH, Hh].
    destruct (zobrist_entry table (getPieceIndex p) (r * 8 + c)) as [z|] eqn:Ez; cbn [option_map].
    + apply IH. apply lxor_u64; [exact Hh|exact (zobrist_entry_u64 _ _ _ Ez)].
    + rewrite zfold_none. discriminate.
Qed.
Lemma calculateZobristKey_u64 (b : Board) (k : Color) (h : Z) :
  calculateZobristKey table btm b k = Some h -> 0 <= h < 2 ^ 64.
Proof.
  unfold calculateZobristKey.
  destruct (fold_left (zobrist_step table b) squares (Some 0)) as [h0|] eqn:E; [|discriminate].
  apply zfold_u64 in E; [|lia]. intros H. inversion H; subst.
  destruct k; [exact E|apply lxor_u64; assumption].
Qed.
Lemma next_hash_u64 (h h' : Z) (m : Move) :
  0 <= h < 2 ^ 64 -> next_hash table btm h m = Some h' -> 0 <= h' < 2 ^ 64.
Proof.
  intros Hh. unfold next_hash.
  destruct (zobrist_entry table _ (fromRow m * 8 + fromCol m)) as [k1|] eqn:E1; [|discriminate].
  destruct (zobrist_entry table _ (toRow m * 8 + toCol m)) as [k2|] eqn:E2; [|discriminate].
  intros H. inversion H; subst.
  apply lxor_u64; [|exact btm_u64]. apply lxor_u64; [|exact (zobrist_entry_u64 _ _ _ E2)].
  apply lxor_u64; [exact Hh|exact (zobrist_entry_u64 _ _ _ E1)].
Qed.
End Keys64.

Lemma zobrist_init_u64 (rnd : nat -> Q) :
  (forall n, (0 <= rnd n < 1)%Q) ->
  (forall pi si, 0 <= pi < 16 -> 0 <= si < 64 -> 0 <= fst (zobrist_init rnd) pi si < 2 ^ 64)
  /\ 0 <= snd (zobrist_init rnd) < 2 ^ 64.
Proof.
  intros Hr. split.
  - intros pi si _ _. cbn [fst zobrist_init]. apply random64_spec_aux; apply Hr.
  - cbn [snd zobrist_init]. apply random64_spec_aux; apply Hr.
Qed.

Lemma next_hash_xor (table : Z -> Z -> Z) (btm h h1 : Z) (m : Move) :
  next_hash table btm h m = Some h1 ->
  exists d, h1 = Z.lxor h d /\ forall g, next_hash table btm g m = Some (Z.lxor g d).
Proof.
  unfold next_hash.
  destruct (zobrist_entry table _ (fromRow m * 8 + fromCol m)) as [k1|]; [|discriminate].
  destruct (zobrist_entry table _ (toRow m * 8 + toCol m)) as [k2|]; [|discriminate].
  intros H. inversion H; subst. exists (Z.lxor (Z.lxor k1 k2) btm).
  split; [|intros g; f_equal]; rewrite !Z.lxor_assoc; reflexivity.
Qed.

Lemma next_hash_algebra (table : Z -> Z -> Z) (btm h h1 h2 : Z) (m1 m2 : Move) :
  next_hash table btm h m1 = Some h1 ->
  next_hash table btm h1 m1 = Some h
  /\ (next_hash table btm h1 m2 = Some h2 ->
      exists h', next_hash table btm h m2 = Some h' /\ next_hash table btm h' m1 = Some h2).
Proof.
  intros H1. destruct (next_hash_xor table btm h h1 m1 H1) as [d1 [E1 F1]].
  split.
  - rewrite F1, E1. f_equal. rewrite Z.lxor_assoc, Z.lxor_nilpotent, Z.lxor_0_r. reflexivity.
  - intros H2. destruct (next_hash_xor table btm h1 h2 m2 H2) as [d2 [E2 F2]].
    exists (Z.lxor h d2). split; [apply F2|]. rewrite F1. f_equal. subst.
    rewrite !Z.lxor_assoc, (Z.lxor_comm d2 d1). reflexivity.
Qed.

Lemma evaluateBoard_antisym (g : Game) (b : Board) (w bl : Q) :
  board g = Some b -> whiteScore g = Fin w -> blackScore g = Fin bl ->
  exists qw qb, evaluateBoard g white = Some (Fin qw) /\ evaluateBoard g black = Some (Fin qb)
                /\ (qw == - qb)%Q.
Proof.
  intros Hb Hw Hbl. unfold evaluateBoard. rewrite Hb, Hw, Hbl. cbn [opponent jadd jsub jneg].
  assert (H0 : (0 + (w + - bl) == - (0 + (bl + - w)))%Q) by ring.
  revert H0. generalize (0 + (w + - bl))%Q (0 + (bl + - w))%Q. generalize squares as l.
  induction l as [|[r c] l IH]; intros a1 a2 Ha; cbn [fold_left].
  - exists a1, a2. auto.
  - destruct (b r c) as [p|]; [|apply IH, Ha].
    destruct (color p); cbn [Color_eqb jadd jsub jneg]; apply IH; rewrite Ha; ring.
Qed.

Lemma tt_probe_spec (tbl : TT) (h : Z) (d : nat) (a bt : jsnum) :
  (forall v a' bt', tt_probe tbl h d a bt = (Some v, a', bt') ->
     exists e, tbl h = Some e /\ (d <= tdepth e)%nat /\ v = value e)
  /\ ((forall e, tbl h = Some e -> (tdepth e < d)%nat) -> tt_probe tbl h d a bt = (None, a, bt)).
Proof.
  unfold tt_probe. split.
  - intros v a' bt'. destruct (tbl h) as [e|]; [|discriminate].
    destruct (Nat.leb_spec d (tdepth e)); [|discriminate].
    destruct (flag e); [|destruct (jle bt (jmax a (value e)))|destruct (jle (jmin bt (value e)) a)];
      intros E; inversion E; subst; eauto.
  - intros H. destruct (tbl h) as [e|]; [|reflexivity].
    specialize (H e eq_refl). destruct (Nat.leb_spec d (tdepth e)); [lia|reflexivity].
Qed.

Lemma tt_within_refl (d : nat) (t : TT) : tt_within d t t.
Proof. intros k. left. reflexivity. Qed.

Lemma tt_within_trans (d : nat) (t1 t2 t3 : TT) :
  tt_within d t1 t2 -> tt_within d t2 t3 -> tt_within d t1 t3.
Proof.
  intros H12 H23 k. destruct (H23 k) as [E|E]; [rewrite E; apply H12|right; exact E].
Qed.

Lemma tt_within_mono (d d' : nat) (t t' : TT) :
  (d <= d')%nat -> tt_within d t t' -> tt_within d' t t'.
Proof.
  intros Hd H k. destruct (H k) as [E|[e [E He]]]; [left; exact E|right; exists e; split; [exact E|lia]].
Qed.

Section TableWrites.
Variable table : Z -> Z -> Z.
Variable btm : Z.
Lemma alphaBetaLoop_within (d : nat)
    (search : Game -> jsnum -> jsnum -> bool -> Z -> TT -> option (jsnum * TT))
    (game : Game) (b : Board) (isMax : bool) (h : Z) :
  (forall g' a' bt' mx h' t v t', search g' a' bt' mx h' t = Some (v, t') -> tt_within d t t') ->
  forall ms bv a bt tbl bv' a' bt' tbl',
  alphaBetaLoop table btm search game b isMax h ms bv a bt tbl = Some (bv', a', bt', tbl') ->
  tt_within d tbl tbl'.
Proof.
  intros Hs. induction ms as [|m ms IH]; intros bv a bt tbl bv' a' bt' tbl'; cbn [alphaBetaLoop].
  - intros E. inversion E; subst. apply tt_within_refl.
  - destruct (next_hash table btm h m) as [h'|]; [|discriminate].
    destruct (simulateFullMove _ _ _ _ _ b) as [s|]; [|discriminate].
    destruct (search _ a bt (negb isMax) h' tbl) as [[v t1]|] eqn:Es; [|discriminate].
    apply Hs in Es.
    destruct isMax;
      [destruct (jle bt (jmax a (jadd (aiScoreGain s) v)))
      |destruct (jle (jmin bt (jadd (jneg (aiScoreGain s)) v)) a)];
      intros E; try (inversion E; subst; exact Es);
      exact (tt_within_trans _ _ _ _ Es (IH _ _ _ _ _ _ _ _ E)).
Qed.
Lemma alphaBetaSearch_within (depth : nat) :
  forall game a bt mx root h tbl v tbl',
  alphaBetaSearch table btm depth game a bt mx root h tbl = Some (v, tbl') ->
  tt_within depth tbl tbl'.
Proof.
  induction depth as [|d IH]; intros game a bt mx root h tbl v tbl'; cbn [alphaBetaSearch];
    (destruct (tt_probe tbl h _ a bt) as [[[v0|] a0] bt0];
     [intros E; inversion E; subst; apply tt_within_refl|]).
  - destruct (evaluateBoard game root); cbn; [|discriminate].
    intros E; inversion E; subst; apply tt_within_refl.
  - destruct (gameOver game).
    { destruct (evaluateBoard game root); cbn; [|discriminate].
      intros E; inversion E; subst; apply tt_within_refl. }
    destruct (board game) as [b|]; [|discriminate].
    destruct (negb (hasValidMoves b (currentPlayer game))).
    { destruct (evaluateBoard game root); cbn; [|discriminate].
      intros E; inversion E; subst; apply tt_within_refl. }
    destruct (alphaBetaLoop _ _ _ _ _ _ _ _ _ _ _ _) as [[[[bv' a2] bt2] t2]|] eqn:E; [|discriminate].
    assert (Hw : tt_within d tbl t2).
    { refine (alphaBetaLoop_within d _ _ _ _ _ _ _ _ _ _ _ _ _ _ _ E).
      intros g' a' bt' mx' h' t v' t' Hs. exact (IH _ _ _ _ _ _ _ _ _ Hs). }
    intros F. inversion F; subst. apply (tt_within_trans _ _ t2).
    + apply tt_within_mono with d; [lia|exact Hw].
    + intros k. unfold tt_set. destruct (Z.eqb_spec k h); [|left; reflexivity].
      right. eexists. split; [reflexivity|]. cbn [tdepth]. lia.
Qed.
End TableWrites.

Lemma remove_nth_perm (i : nat) (l : list Move) (x : Move) :
  (i < length l)%nat -> Permutation (nth i l x :: remove_nth i l) l.
Proof.
  revert i. induction l as [|y l IH]; intros [|i] Hi; cbn [length] in Hi; try lia.
  - cbn. reflexivity.
  - cbn [nth remove_nth]. eapply perm_trans; [apply perm_swap|]. apply perm_skip, IH. lia.
Qed.

Lemma findIndex_first (p : Move -> bool) (l : list Move) (i : nat) (x : Move) :
  findIndex p l = Some i ->
  p (nth i l x) = true /\ forall j, (j < i)%nat -> p (nth j l x) = false.
Proof.
  revert i. induction l as [|y l IH]; intros i; cbn [findIndex]; [discriminate|].
  destruct (p y) eqn:Ey.
  - intros E. inversion E; subst. split; [exact Ey|intros j Hj; lia].
  - destruct (findIndex p l) as [k|] eqn:Ek; [|discriminate].
    intros E. inversion E; subst. destruct (IH k eq_refl) as [H1 H2].
    split; [exact H1|]. intros [|j] Hj; [exact Ey|]. apply H2. lia.
Qed.

Lemma findIndex_none (p : Move -> bool) (l : list Move) :
  findIndex p l = None -> forall x, In x l -> p x = false.
Proof.
  induction l as [|y l IH]; cbn [findIndex In]; [tauto|].
  destruct (p y) eqn:Ey; [discriminate|].
  destruct (findIndex p l); [discriminate|]. intros _ x [<-|H]; [exact Ey|apply IH; auto].
Qed.

Lemma prioritize_spec (bm : Move) (l : list Move) :
  Permutation (prioritize bm l) l
  /\ ((forall x, In x l -> same_coords bm x = false) -> prioritize bm l = l)
  /\ (forall x, In x l -> same_coords bm x = true ->
      exists i, (i < length l)%nat /\ prioritize bm l = nth i l bm :: remove_nth i l
                /\ same_coords bm (nth i l bm) = true
                /\ forall j, (j < i)%nat -> same_coords bm (nth j l bm) = false).
Proof.
  unfold prioritize. destruct (findIndex (same_coords bm) l) as [i|] eqn:E.
  - pose proof (findIndex_lt _ _ _ E) as Hi.
    destruct (findIndex_first _ _ _ bm E) as [H1 H2].
    split; [apply remove_nth_perm, Hi|]. split.
    + intros H. exfalso. rewrite (H _ (nth_In l bm Hi)) in H1. discriminate.
    + intros _ _ _. exists i. auto.
  - split; [reflexivity|]. split; [reflexivity|].
    intros x Hx Hs. rewrite (findIndex_none _ _ E x Hx) in Hs. discriminate.
Qed.

Lemma key_eqb_true (a b : key) : key_eqb a b = true <-> a = b.
Proof.
  destruct a as [a1 a2], b as [b1 b2]. unfold key_eqb. cbn [fst snd].
  rewrite andb_true_iff, !Z.eqb_eq. split; [intros [-> ->]; reflexivity|intros E; inversion E; auto].
Qed.

Lemma mem_true (k : key) (l : list key) : mem k l = true <-> In k l.
Proof.
  unfold mem. rewrite existsb_exists. split.
  - intros [x [Hx E]]. apply key_eqb_true in E. subst. exact Hx.
  - intros H. exists k. split; [exact H|apply key_eqb_true; reflexivity].
Qed.

Lemma clear_cells_spec (tb : Board) (ks : list key) (r c : Z) :
  clear_cells tb ks r c = if mem (r, c) ks then None else tb r c.
Proof.
  unfold clear_cells. revert tb. induction ks as [|k ks IH]; intros tb; [reflexivity|].
  cbn [fold_left]. rewrite IH. cbn [mem existsb]. fold (mem (r, c) ks).
  destruct (mem (r, c) ks); [rewrite orb_true_r; reflexivity|rewrite orb_false_r].
  unfold set_cell, key_eqb. cbn [fst snd]. destruct (_ && _); reflexivity.
Qed.

Lemma fold_left_inv {A B : Type} (P : A -> Prop) (f : A -> B -> A) (l : list B) (a : A) :
  (forall a x, P a -> P (f a x)) -> P a -> P (fold_left f l a).
Proof. revert a. induction l as [|x l IH]; intros a Hf Ha; [exact Ha|apply IH; auto]. Qed.

Lemma combination_captures_opp (s : Color) (tb : Board) (combos : list (list PieceData))
    (sg0 : Z) (ks : list key) (sg : Z) :
  combination_captures s tb combos sg0 = (ks, sg) ->
  forall k, In k ks -> exists q, tb (fst k) (snd k) = Some q /\ color q <> s.
Proof.
  unfold combination_captures. intros E.
  set (P := fun (acc : list key * Z) =>
              forall k, In k (fst acc) -> exists q, tb (fst k) (snd k) = Some q /\ color q <> s).
  assert (H : P (ks, sg)).
  { rewrite <- E. apply fold_left_inv; [|intros k []].
    intros acc combination Hacc. apply fold_left_inv; [|exact Hacc].
    intros [toRemove g] pos Ha. cbn beta iota.
    destruct (tb (row pos) (col pos)) as [pc|] eqn:Epc; [|exact Ha].
    destruct (negb (Color_eqb (color pc) s)) eqn:Ec; [|exact Ha].
    destruct (mem (row pos, col pos) toRemove); [exact Ha|].
    intros k Hk. cbn [fst] in Hk. apply in_app_or in Hk. destruct Hk as [Hk|[<-|[]]].
    - exact (Ha k Hk).
    - exists pc. split; [exact Epc|]. apply negb_true_iff, Color_eqb_false in Ec. exact Ec. }
  exact H.
Qed.

Lemma combination_step_clears (tr tc : Z) (s : Color) (tb tb' : Board) (g g' : Z) :
  combination_step tr tc s tb g = (tb', g') ->
  exists ks, tb' = clear_cells tb ks
             /\ forall k, In k ks -> exists q, tb (fst k) (snd k) = Some q /\ color q <> s.
Proof.
  unfold combination_step.
  destruct (checkCombinationsAroundPositionOnBoard tr tc tb s) as [|c0 cs].
  - intros E. inversion E; subst. exists []. split; [reflexivity|intros k []].
  - destruct (combination_captures s tb (c0 :: cs) g) as [ks sg] eqn:E.
    intros F. inversion F; subst. exists ks. split; [reflexivity|].
    exact (combination_captures_opp _ _ _ _ _ _ E).
Qed.

Lemma promotion_step_clears (fr fc tr tc : Z) (src : Board) (mp : Piece) (tb tb' : Board) (g : Z) (l : bool) :
  promotion_step fr fc tr tc src mp tb = Some (tb', g, l) ->
  tb' = tb
  \/ exists ks, tb' = clear_cells (set_cell tb tr tc (Some (promote mp))) ks
      /\ forall k, In k ks -> exists q, set_cell tb tr tc (Some (promote mp)) (fst k) (snd k) = Some q
                                   /\ color q = opponent (color mp).
Proof.
  unfold promotion_step. destruct (_ && _).
  2:{ intros E. inversion E; subst. left. reflexivity. }
  unfold processPromotion. rewrite set_cell_same. cbv beta iota.
  change (color (promote mp)) with (color mp). change (number (promote mp)) with (number mp).
  set (tb1 := set_cell tb tr tc (Some (promote mp))).
  assert (Hm : forall k, In k (matching_pieces tb1 (opponent (color mp)) (number mp)) ->
                 exists q, tb1 (fst k) (snd k) = Some q /\ color q = opponent (color mp)).
  { intros [r c] Hk. unfold matching_pieces in Hk. apply filter_In in Hk. destruct Hk as [_ Hk].
    cbn [fst snd]. destruct (tb1 r c) as [q|]; [|discriminate].
    exists q. split; [reflexivity|]. rewrite !andb_true_iff, Color_eqb_true in Hk. tauto. }
  destruct (matching_pieces tb1 (opponent (color mp)) (number mp)) as [|m [|m' ms]] eqn:Em;
    intros E; inversion E; subst; right.
  - exists []. split; [reflexivity|intros k []].
  - exists [m]. split; [reflexivity|]. intros k [<-|[]]. apply Hm. left. reflexivity.
  - exists [m]. split; [reflexivity|]. intros k [<-|[]]. apply Hm. left. reflexivity.
Qed.

Lemma pair_neq (a b c d : Z) : (a, b) <> (c, d) -> a <> c \/ b <> d.
Proof. intros H. destruct (Z.eq_dec a c) as [->|E]; [right; intros ->; apply H; reflexivity|left; exact E]. Qed.

Section SimulateEffect.
Variables (b : Board) (fr fc tr tc : Z) (s : Color) (p : Piece).
Hypothesis Hcol : color p = s.
Hypothesis Hne : (fr, fc) <> (tr, tc).
(** The board during [simulateFullMove], compared with the source board. *)
Definition sim_inv (t : Board) : Prop :=
  t fr fc = None
  /\ (t tr tc = Some p \/ t tr tc = Some (promote p))
  /\ forall r c, (r, c) <> (fr, fc) -> (r, c) <> (tr, tc) ->
       t r c = square b r c \/ (t r c = None /\ exists q, square b r c = Some q /\ color q <> s).
Lemma sim_inv_clear (t : Board) (ks : list key) :
  sim_inv t -> (forall k, In k ks -> exists q, t (fst k) (snd k) = Some q /\ color q <> s) ->
  sim_inv (clear_cells t ks).
Proof.
  intros (H1 & H2 & H3) Hk. unfold sim_inv. rewrite !clear_cells_spec.
  assert (Hto : mem (tr, tc) ks = false).
  { apply not_true_iff_false. intros Hm. apply mem_true, Hk in Hm.
    destruct Hm as [q [E Hq]]. cbn [fst snd] in E.
    destruct H2 as [H2|H2]; rewrite H2 in E; inversion E; subst; apply Hq; reflexivity. }
  split; [destruct (mem (fr, fc) ks); [reflexivity|exact H1]|].
  split; [rewrite Hto; exact H2|].
  intros r c Hf Ht. rewrite clear_cells_spec. destruct (mem (r, c) ks) eqn:Hm.
  - apply mem_true, Hk in Hm. destruct Hm as [q [E Hq]]. cbn [fst snd] in E.
    destruct (H3 r c Hf Ht) as [E'|[E' _]]; [|congruence].
    right. split; [reflexivity|]. exists q. rewrite <- E'. auto.
  - apply H3; assumption.
Qed.
Lemma sim_inv_promote (t : Board) :
  sim_inv t -> t tr tc = Some p -> sim_inv (set_cell t tr tc (Some (promote p))).
Proof.
  intros (H1 & H2 & H3) Ht. unfold sim_inv.
  split; [rewrite set_cell_other by (apply pair_neq, Hne); exact H1|].
  split; [right; apply set_cell_same|].
  intros r c Hf Htc. rewrite set_cell_other by (apply pair_neq, Htc).
  apply H3; assumption.
Qed.
End SimulateEffect.

Lemma simulate_effect (b : Board) (fr fc tr tc : Z) (s : Color) (b' : Board) (g : jsnum) (l : bool) :
  simulateFullMove fr fc tr tc s b = Some (mkSim (Some b') g l) ->
  exists p, square b fr fc = Some p /\ color p = s /\ 0 <= tr < 8 /\ square b tr tc = None
            /\ sim_inv b fr fc tr tc s p b'.
Proof.
  unfold simulateFullMove, invalid_move. cbv zeta.
  change (copy_board b fr fc) with (square b fr fc).
  change (copy_board b tr tc) with (square b tr tc).
  destruct (square b fr fc) as [p|] eqn:Hf; [|discriminate].
  destruct (Color_eqb (color p) s) eqn:Hc; cbn [negb]; [|discriminate].
  apply Color_eqb_true in Hc.
  destruct ((0 <=? tr) && (tr <? 8)) eqn:Htr; cbn [negb]; [|discriminate].
  destruct (square b tr tc) eqn:Ht; cbn [is_some]; [discriminate|].
  assert (Hne : (fr, fc) <> (tr, tc)) by (intros E; inversion E; subst; congruence).
  set (tb0 := set_cell (set_cell (copy_board b) tr tc (Some p)) fr fc None).
  assert (I0 : sim_inv b fr fc tr tc s p tb0).
  { unfold sim_inv, tb0. split; [apply set_cell_same|].
    split; [left; rewrite set_cell_other by (apply pair_neq; congruence); apply set_cell_same|].
    intros r c H1 H2. left.
    rewrite set_cell_other by (apply pair_neq, H1).
    rewrite set_cell_other by (apply pair_neq, H2). apply copy_board_square. }
  assert (Ht0 : tb0 tr tc = Some p).
  { unfold tb0. rewrite set_cell_other by (apply pair_neq; congruence). apply set_cell_same. }
  destruct (promotion_step fr fc tr tc b p tb0) as [[[tb1 g1] l1]|] eqn:Ep; [|discriminate].
  assert (I1 : sim_inv b fr fc tr tc s p tb1).
  { destruct (promotion_step_clears _ _ _ _ _ _ _ _ _ _ Ep) as [->|[ks [-> Hks]]]; [exact I0|].
    apply sim_inv_clear; [exact Hc|apply sim_inv_promote; assumption|].
    intros k Hk. destruct (Hks k Hk) as [q [E Hq]]. exists q. split; [exact E|].
    rewrite Hq, <- Hc. destruct (color p); discriminate. }
  destruct (combination_step tr tc s tb1 g1) as [tb2 g2] eqn:Ec.
  intros E. inversion E; subst b'.
  exists p. split; [reflexivity|]. split; [exact Hc|].
  split; [rewrite andb_true_iff, Z.leb_le, Z.ltb_lt in Htr; exact Htr|]. split; [reflexivity|].
  destruct (combination_step_clears _ _ _ _ _ _ _ Ec) as [ks [-> Hks]].
  apply sim_inv_clear; assumption.
Qed.

(* ================================================================= *)
(** ** Further properties of the code *)

(** X1: For a column of the grid, [getValidMovesOnBoard] lists each target
    at most once, and a square is listed exactly when it lies one row
    forward for the colour, on the grid, in the same or a neighbouring
    column, and is empty. *)
Theorem getValidMovesOnBoard_exact (row col : Z) (boardState : Board) (pieceColor : Color) (tr tc : Z) :
  0 <= col < 8 ->
  NoDup (getValidMovesOnBoard row col boardState pieceColor)
  /\ (In (tr, tc) (getValidMovesOnBoard row col boardState pieceColor) <->
      tr = row + direction_of pieceColor /\ 0 <= tr < 8 /\ 0 <= tc < 8
      /\ boardState tr tc = None /\ (tc = col \/ tc = col - 1 \/ tc = col + 1)).
Proof. intros Hc. split; [apply valid_moves_NoDup|apply valid_moves_iff, Hc]. Qed.

Lemma getValidMovesOnBoard_exact_witness :
  0 <= 3 < 8
  /\ NoDup (getValidMovesOnBoard 6 3 (put [(5, 2, B 1)]) white)
  /\ (In (5, 4) (getValidMovesOnBoard 6 3 (put [(5, 2, B 1)]) white) <->
      5 = 6 + direction_of white /\ 0 <= 5 < 8 /\ 0 <= 4 < 8
      /\ put [(5, 2, B 1)] 5 4 = None /\ (4 = 3 \/ 4 = 3 - 1 \/ 4 = 3 + 1)).
Proof.
  assert (H : 0 <= 3 < 8) by lia. split; [exact H|].
  exact (getValidMovesOnBoard_exact 6 3 (put [(5, 2, B 1)]) white 5 4 H).
Defined.

(** X2: A move is in the list of [getAllPossibleMovesForPlayer] exactly when
    it starts on a square of the grid holding the listed piece of the player
    and goes one row forward, to the same or a neighbouring column, onto an
    empty square of the grid. *)
Theorem getAllPossibleMovesForPlayer_exact (board : Board) (playerColor : Color) (m : Move) :
  In m (getAllPossibleMovesForPlayer board playerColor) <->
  in_grid (fromRow m) (fromCol m) = true /\ board (fromRow m) (fromCol m) = Some (piece m)
  /\ color (piece m) = playerColor /\ toRow m = fromRow m + direction_of playerColor
  /\ 0 <= toRow m < 8 /\ 0 <= toCol m < 8 /\ board (toRow m) (toCol m) = None
  /\ (toCol m = fromCol m \/ toCol m = fromCol m - 1 \/ toCol m = fromCol m + 1).
Proof. rewrite getAllPossibleMoves_same. apply generated_iff. Qed.


(** X4: [hasValidMoves] holds exactly when [getAllPossibleMovesForPlayer]
    returns a non-empty list. *)
Theorem hasValidMoves_iff (board : Board) (playerColor : Color) :
  hasValidMoves board playerColor = true <-> getAllPossibleMovesForPlayer board playerColor <> [].
Proof.
  split; [apply hasValidMoves_nonempty|].
  unfold hasValidMoves, getAllPossibleMovesForPlayer. generalize squares as l.
  induction l as [|[r c] l IH]; cbn [existsb flat_map]; [tauto|].
  intros H. apply orb_true_iff.
  destruct (board r c) as [p|] eqn:E; [|right; apply IH, H].
  destruct (Color_eqb (color p) playerColor); [|right; apply IH, H].
  destruct (getValidMoves board r c) as [|t ts]; [right; apply IH, H|].
  left. reflexivity.
Qed.

(** X5: Move generation is symmetric between the colours: on the board
    turned by a half turn with the colours exchanged, the moves of the other
    player are exactly the turned moves of the player. *)
Theorem moves_colour_symmetric (board : Board) (playerColor : Color) (m : Move) :
  In m (getAllPossibleMovesForPlayer (rotate_board board) (opponent playerColor))
  <-> In (rotate_move m) (getAllPossibleMovesForPlayer board playerColor).
Proof. apply moves_rotate. Qed.

(** X6: The board of [initializeBoardData] is unchanged by a half turn with
    the colours exchanged, so the moves Black has there are exactly the
    turned moves of White. *)
Theorem initial_position_symmetric (r c : Z) (m : Move) :
  rotate_board initializeBoardData r c = initializeBoardData r c
  /\ (In m (getAllPossibleMovesForPlayer initializeBoardData black)
      <-> In (rotate_move m) (getAllPossibleMovesForPlayer initializeBoardData white)).
Proof.
  split; [apply initial_board_rotation|].
  rewrite <- moves_rotate. cbn [opponent].
  rewrite !getAllPossibleMoves_same, !generated_iff, !initial_board_rotation. reflexivity.
Qed.

(** X7: [checkPromotion] changes at most the square [(row, col)]: it reports
    [true] only when that square held an unpromoted piece, which it marks
    promoted; it reports [false] with the board untouched otherwise; and a
    second call on the same square reports [false]. *)
Theorem checkPromotion_settles (board board' : Board) (row col : Z) (promotedNow : bool) :
  checkPromotion board row col = Some (promotedNow, board') ->
  checkPromotion board' row col = Some (false, board')
  /\ (forall r' c', r' <> row \/ c' <> col -> board' r' c' = board r' c')
  /\ (promotedNow = false -> board' = board)
  /\ (promotedNow = true -> exists p, board row col = Some p /\ promoted p = false
                                   /\ board' row col = Some (promote p)).
Proof. apply checkPromotion_aux. Qed.

Lemma checkPromotion_settles_witness :
  exists b', checkPromotion (put [(0, 4, W 6)]) 0 4 = Some (true, b')
  /\ checkPromotion b' 0 4 = Some (false, b').
Proof.
  eexists. split; [reflexivity|].
  exact (proj1 (checkPromotion_settles (put [(0, 4, W 6)]) _ 0 4 true eq_refl)).
Defined.

(** X8: the two 32-bit tests of bit [i] of the mask [m], [(m >> i) & 1]
    when counting and [m & (1 << i)] when selecting, always agree.  Every
    combination [findValidCombinations] returns is a sub-list of its input
    (entries left out, order kept) with 2 to 8 entries whose numbers sum to
    10, with a piece of each colour, and connected. *)
Theorem findValidCombinations_sound (ps c : list PieceData) :
  (forall m i, 0 <= i -> (band32 m (shl32 1 i) =? 0) = (band32 (sar32 m i) 1 =? 0))
  /\ (In c (findValidCombinations ps) ->
      (2 <= length c <= 8)%nat /\ sum_numbers c = 10 /\ has_color white c = true
      /\ has_color black c = true /\ areConnectedOptimized c = true /\ sublist c ps).
Proof.
  split; [exact bit_tests_agree|]. intros H.
  pose proof (findValidCombinations_sublist ps c H) as S.
  apply findValidCombinations_sound_aux in H. tauto.
Qed.

Lemma findValidCombinations_sound_witness :
  In [mkPD 2 2 (W 4); mkPD 2 3 (B 6)] (findValidCombinations [mkPD 2 2 (W 4); mkPD 2 3 (B 6)])
  /\ (2 <= length [mkPD 2 2 (W 4); mkPD 2 3 (B 6)] <= 8)%nat
  /\ sum_numbers [mkPD 2 2 (W 4); mkPD 2 3 (B 6)] = 10
  /\ has_color white [mkPD 2 2 (W 4); mkPD 2 3 (B 6)] = true
  /\ has_color black [mkPD 2 2 (W 4); mkPD 2 3 (B 6)] = true
  /\ areConnectedOptimized [mkPD 2 2 (W 4); mkPD 2 3 (B 6)] = true
  /\ sublist [mkPD 2 2 (W 4); mkPD 2 3 (B 6)] [mkPD 2 2 (W 4); mkPD 2 3 (B 6)].
Proof.
  assert (H : In [mkPD 2 2 (W 4); mkPD 2 3 (B 6)]
                 (findValidCombinations [mkPD 2 2 (W 4); mkPD 2 3 (B 6)])) by (vm_compute; tauto).
  split; [exact H|exact (proj2 (findValidCombinations_sound _ _) H)].
Defined.

(** X9: two pieces form a connected group exactly when they stand on
    distinct, king-adjacent squares. *)
Theorem areConnectedOptimized_pair (a b : PieceData) :
  areConnectedOptimized [a; b] = adjb (pkey a) (pkey b).
Proof. apply areConnected_pair. Qed.

(** X10: every piece of every combination found around [(checkRow,
    checkCol)] is a piece of the board on its square, on the grid, at most
    three rows and three columns from the checked square; and the
    combination is one [findValidCombinations] accepts. *)
Theorem checkCombinations_local (checkRow checkCol : Z) (boardState : Board) (s : Color)
    (c : list PieceData) (pd : PieceData) :
  In c (checkCombinationsAroundPositionOnBoard checkRow checkCol boardState s) -> In pd c ->
  boardState (row pd) (col pd) = Some (pdpiece pd) /\ 0 <= row pd <= 7 /\ 0 <= col pd <= 7
  /\ Z.abs (row pd - checkRow) <= 3 /\ Z.abs (col pd - checkCol) <= 3
  /\ (2 <= length c <= 8)%nat /\ sum_numbers c = 10 /\ has_color white c = true
  /\ has_color black c = true /\ areConnectedOptimized c = true.
Proof.
  intros Hc Hp. split; [|split; [|split; [|split; [|split]]]];
    try apply (checkCombinations_local_aux _ _ _ _ _ _ Hc Hp).
  unfold checkCombinationsAroundPositionOnBoard in Hc.
  destruct (scan_colors _ false false) as [hw hb].
  destruct (negb hw || negb hb); [destruct Hc|].
  destruct (findValidCombinations_sound_aux _ _ Hc) as (H1 & H2 & H3 & H4 & H5 & _). auto.
Qed.

Lemma checkCombinations_local_witness :
  In [mkPD 2 2 (W 4); mkPD 2 3 (B 6)]
     (checkCombinationsAroundPositionOnBoard 2 3 (put [(2, 2, W 4); (2, 3, B 6)]) white)
  /\ In (mkPD 2 2 (W 4)) [mkPD 2 2 (W 4); mkPD 2 3 (B 6)]
  /\ put [(2, 2, W 4); (2, 3, B 6)] 2 2 = Some (W 4).
Proof.
  assert (H1 : In [mkPD 2 2 (W 4); mkPD 2 3 (B 6)]
     (checkCombinationsAroundPositionOnBoard 2 3 (put [(2, 2, W 4); (2, 3, B 6)]) white))
    by (vm_compute; tauto).
  assert (H2 : In (mkPD 2 2 (W 4)) [mkPD 2 2 (W 4); mkPD 2 3 (B 6)]) by (left; reflexivity).
  split; [exact H1|]. split; [exact H2|].
  exact (proj1 (checkCombinations_local _ _ _ _ _ _ H1 H2)).
Defined.

(** X11: [calculateZobristKey] fails (the table lookup throws) exactly when
    some square of the grid holds a piece whose index is outside [0..15];
    otherwise it returns a key. *)
Theorem calculateZobristKey_none_iff (table : Z -> Z -> Z) (btm : Z) (board : Board) (currentPlayer : Color) :
  calculateZobristKey table btm board currentPlayer = None
  <-> exists r c p, in_grid r c = true /\ board r c = Some p /\ ~ (0 <= getPieceIndex p < 16).
Proof. apply calculateZobristKey_none. Qed.

(** X12: on pieces numbered 1 to 8, [getPieceIndex] lies in [0..15] and
    tells apart every colour and number. *)
Theorem getPieceIndex_injective (p q : Piece) :
  1 <= number p <= 8 -> 1 <= number q <= 8 ->
  0 <= getPieceIndex p < 16
  /\ (getPieceIndex p = getPieceIndex q <-> color p = color q /\ number p = number q).
Proof.
  intros Hp Hq. split; [apply piece_index_range, Hp|].
  unfold getPieceIndex. destruct (color p), (color q); split;
    try (intros [E _]; discriminate); try (intros [_ E]; lia); intros E; try lia; split; auto; lia.
Qed.

Lemma getPieceIndex_injective_witness :
  (1 <= number (W 3) <= 8 /\ 1 <= number (B 3) <= 8)
  /\ 0 <= getPieceIndex (W 3) < 16.
Proof.
  assert (H1 : 1 <= number (W 3) <= 8) by (cbn; lia).
  assert (H2 : 1 <= number (B 3) <= 8) by (cbn; lia).
  split; [split; assumption|exact (proj1 (getPieceIndex_injective _ _ H1 H2))].
Defined.

(** X13: with both [Math.random()] draws in [[0, 1)], [random64()] is a
    64-bit value whose low 32 bits are [floor(u1 * 2^32)] from the first
    draw and whose high 32 bits are [floor(u2 * 2^32)] from the second. *)
Theorem random64_round_trip (u1 u2 : Q) :
  (0 <= u1 < 1)%Q -> (0 <= u2 < 1)%Q ->
  0 <= random64 u1 u2 < 2 ^ 64
  /\ Z.land (random64 u1 u2) (Z.ones 32) = Qfloor (u1 * inject_Z (2 ^ 32))
  /\ Z.shiftr (random64 u1 u2) 32 = Qfloor (u2 * inject_Z (2 ^ 32)).
Proof. apply random64_spec_aux. Qed.

Lemma random64_round_trip_witness :
  ((0 <= 1 # 2 < 1)%Q /\ (0 <= 3 # 4 < 1)%Q)
  /\ Z.shiftr (random64 (1 # 2) (3 # 4)) 32 = Qfloor ((3 # 4) * inject_Z (2 ^ 32)).
Proof.
  assert (H1 : (0 <= 1 # 2 < 1)%Q) by (unfold Qle, Qlt; cbn; lia).
  assert (H2 : (0 <= 3 # 4 < 1)%Q) by (unfold Qle, Qlt; cbn; lia).
  split; [split; assumption|exact (proj2 (proj2 (random64_round_trip _ _ H1 H2)))].
Defined.

(** X14: when every [Math.random()] draw lies in [[0, 1)], the keys of
    [ZOBRIST] are 64-bit values, and so are every full hash
    [calculateZobristKey] computes from them and every incremental update of
    a 64-bit hash. *)
Theorem zobrist_keys_64bit (rnd : nat -> Q) (board : Board) (currentPlayer : Color) (m : Move) (h h' : Z) :
  (forall n, (0 <= rnd n < 1)%Q) ->
  (forall pi si, 0 <= pi < 16 -> 0 <= si < 64 -> 0 <= fst (zobrist_init rnd) pi si < 2 ^ 64)
  /\ 0 <= snd (zobrist_init rnd) < 2 ^ 64
  /\ (calculateZobristKey (fst (zobrist_init rnd)) (snd (zobrist_init rnd)) board currentPlayer
        = Some h -> 0 <= h < 2 ^ 64)
  /\ (0 <= h < 2 ^ 64 -> next_hash (fst (zobrist_init rnd)) (snd (zobrist_init rnd)) h m = Some h'
      -> 0 <= h' < 2 ^ 64).
Proof.
  intros Hr. destruct (zobrist_init_u64 rnd Hr) as [Ht Hb].
  split; [exact Ht|]. split; [exact Hb|]. split.
  - apply calculateZobristKey_u64; assumption.
  - apply next_hash_u64; assumption.
Qed.

Lemma zobrist_keys_64bit_witness :
  (forall n : nat, (0 <= 1 # 3 < 1)%Q)
  /\ (calculateZobristKey (fst (zobrist_init (fun _ => 1 # 3))) (snd (zobrist_init (fun _ => 1 # 3)))
        (put [(6, 3, W 2)]) black
      = Some (Z.lxor (random64 (1 # 3) (1 # 3)) (random64 (1 # 3) (1 # 3)))
      -> 0 <= Z.lxor (random64 (1 # 3) (1 # 3)) (random64 (1 # 3) (1 # 3)) < 2 ^ 64).
Proof.
  assert (H : forall n : nat, (0 <= 1 # 3 < 1)%Q) by (intros _; unfold Qle, Qlt; cbn; lia).
  split; [exact H|].
  exact (proj1 (proj2 (proj2 (zobrist_keys_64bit (fun _ => 1 # 3) (put [(6, 3, W 2)]) black
           (mkMove 6 3 5 3 (W 2)) _ 0 H)))).
Defined.

(** X15: the incremental hash update undoes itself (playing the update of a
    move twice restores the hash), and the updates of two moves commute. *)
Theorem next_hash_undo_commute (table : Z -> Z -> Z) (btm h h1 h2 : Z) (m1 m2 : Move) :
  next_hash table btm h m1 = Some h1 ->
  next_hash table btm h1 m1 = Some h
  /\ (next_hash table btm h1 m2 = Some h2 ->
      exists h', next_hash table btm h m2 = Some h' /\ next_hash table btm h' m1 = Some h2).
Proof. apply next_hash_algebra. Qed.

Lemma next_hash_undo_commute_witness :
  next_hash ztab 99 5 (mkMove 6 3 5 3 (W 2)) = Some (Z.lxor (Z.lxor (Z.lxor 5 (ztab 1 51)) (ztab 1 43)) 99)
  /\ next_hash ztab 99 (Z.lxor (Z.lxor (Z.lxor 5 (ztab 1 51)) (ztab 1 43)) 99) (mkMove 6 3 5 3 (W 2)) = Some 5.
Proof.
  assert (H : next_hash ztab 99 5 (mkMove 6 3 5 3 (W 2))
              = Some (Z.lxor (Z.lxor (Z.lxor 5 (ztab 1 51)) (ztab 1 43)) 99)) by reflexivity.
  split; [exact H|].
  exact (proj1 (next_hash_undo_commute ztab 99 5 _ 0 _ (mkMove 6 3 5 3 (W 2)) H)).
Defined.

(** X16: with a board and finite scores, the evaluation of a position for
    White is the opposite of its evaluation for Black. *)
Theorem evaluateBoard_zero_sum (game : Game) (b : Board) (w bl : Q) :
  board game = Some b -> whiteScore game = Fin w -> blackScore game = Fin bl ->
  exists qw qb, evaluateBoard game white = Some (Fin qw) /\ evaluateBoard game black = Some (Fin qb)
                /\ (qw == - qb)%Q.
Proof. apply evaluateBoard_antisym. Qed.

Lemma evaluateBoard_zero_sum_witness :
  exists qw qb, evaluateBoard search_game white = Some (Fin qw)
                /\ evaluateBoard search_game black = Some (Fin qb) /\ (qw == - qb)%Q.
Proof.
  exact (evaluateBoard_zero_sum search_game (put [(1, 5, B 1); (2, 2, B 7); (6, 3, W 2)]) 0 3
           eq_refl eq_refl eq_refl).
Defined.

(** X17: the table probe ends a node early only on an entry stored under the
    node's hash with a depth at least the node's, and then returns that
    entry's value; without such an entry it returns nothing and leaves the
    window as it was. *)
Theorem tt_probe_cutoff (tbl : TT) (currentHash : Z) (depth : nat) (alpha beta : jsnum) :
  (forall v alpha' beta', tt_probe tbl currentHash depth alpha beta = (Some v, alpha', beta') ->
     exists e, tbl currentHash = Some e /\ (depth <= tdepth e)%nat /\ v = value e)
  /\ ((forall e, tbl currentHash = Some e -> (tdepth e < depth)%nat) ->
      tt_probe tbl currentHash depth alpha beta = (None, alpha, beta)).
Proof. apply tt_probe_spec. Qed.

(** X18: a search of depth [depth] changes a table entry only to store one
    whose depth lies between 1 and [depth]; a depth-0 search never writes. *)
Theorem alphaBetaSearch_table_writes (table : Z -> Z -> Z) (btm : Z) (depth : nat) (game : Game)
    (alpha beta : jsnum) (isMaximizingPlayer : bool) (aiRootColor : Color) (currentHash : Z)
    (tbl tbl' : TT) (v : jsnum) :
  alphaBetaSearch table btm depth game alpha beta isMaximizingPlayer aiRootColor currentHash tbl
    = Some (v, tbl') ->
  forall k, tbl' k = tbl k \/ exists e, tbl' k = Some e /\ (1 <= tdepth e <= depth)%nat.
Proof. apply alphaBetaSearch_within. Qed.

Lemma alphaBetaSearch_table_writes_witness :
  exists v tbl', alphaBetaSearch ztab 99 2 search_game NInf PInf true black 0 empty_tt = Some (v, tbl')
    /\ (tbl' 0 = empty_tt 0 \/ exists e, tbl' 0 = Some e /\ (1 <= tdepth e <= 2)%nat).
Proof.
  destruct (alphaBetaSearch ztab 99 2 search_game NInf PInf true black 0 empty_tt) as [[v tbl']|] eqn:E.
  - exists v, tbl'. split; [reflexivity|]. exact (alphaBetaSearch_table_writes _ _ _ _ _ _ _ _ _ _ _ _ E 0).
  - vm_compute in E. discriminate.
Defined.

(** X19: the ordering of the root moves is a permutation of them; it leaves
    them as they are when none has the coordinates of the previous best
    move, and otherwise puts first the first move that has them, the others
    following in their order. *)
Theorem prioritize_order (bestMoveSoFar : Move) (possibleMoves : list Move) :
  Permutation (prioritize bestMoveSoFar possibleMoves) possibleMoves
  /\ ((forall x, In x possibleMoves -> same_coords bestMoveSoFar x = false) ->
      prioritize bestMoveSoFar possibleMoves = possibleMoves)
  /\ (forall x, In x possibleMoves -> same_coords bestMoveSoFar x = true ->
      exists i, (i < length possibleMoves)%nat
        /\ prioritize bestMoveSoFar possibleMoves
           = nth i possibleMoves bestMoveSoFar :: remove_nth i possibleMoves
        /\ same_coords bestMoveSoFar (nth i possibleMoves bestMoveSoFar) = true
        /\ forall j, (j < i)%nat -> same_coords bestMoveSoFar (nth j possibleMoves bestMoveSoFar) = false).
Proof. apply prioritize_spec. Qed.

(** X20: a simulation that returns a board moved a piece of the mover from a
    square of the grid to an empty square of a row of the grid. On the new
    board the origin is empty and the destination holds the piece, maybe
    promoted. Every other square keeps its piece or is emptied, and only
    opposing pieces are removed: no piece of the mover is taken and no piece
    is added. *)
Theorem simulateFullMove_effect (fromRow fromCol toRow toCol : Z) (forPlayerColor : Color)
    (sourceBoard b' : Board) (g : jsnum) (l : bool) :
  simulateFullMove fromRow fromCol toRow toCol forPlayerColor sourceBoard = Some (mkSim (Some b') g l) ->
  exists p, square sourceBoard fromRow fromCol = Some p /\ color p = forPlayerColor
    /\ 0 <= toRow < 8 /\ square sourceBoard toRow toCol = None
    /\ b' fromRow fromCol = None
    /\ (b' toRow toCol = Some p \/ b' toRow toCol = Some (promote p))
    /\ forall r c, (r, c) <> (fromRow, fromCol) -> (r, c) <> (toRow, toCol) ->
         b' r c = square sourceBoard r c
         \/ (b' r c = None /\ exists q, square sourceBoard r c = Some q /\ color q <> forPlayerColor).
Proof. intros H. destruct (simulate_effect _ _ _ _ _ _ _ _ _ H) as (p & H1 & H2 & H3 & H4 & I). exists p. unfold sim_inv in I. tauto. Qed.

Lemma simulateFullMove_effect_witness :
  exists b' g l, simulateFullMove 6 3 5 3 white (put [(6, 3, W 2); (1, 5, B 1)]) = Some (mkSim (Some b') g l)
    /\ b' 6 3 = None /\ (b' 5 3 = Some (W 2) \/ b' 5 3 = Some (promote (W 2))).
Proof.
  destruct (simulateFullMove 6 3 5 3 white (put [(6, 3, W 2); (1, 5, B 1)])) as [[[b'|] g l]|] eqn:E;
    try (vm_compute in E; discriminate).
  exists b', g, l. split; [reflexivity|].
  destruct (simulateFullMove_effect _ _ _ _ _ _ _ _ _ E) as (p & H1 & H2 & H3 & H4 & H5 & H6 & _).
  vm_compute in H1. inversion H1; subst p. auto.
Defined.
